(** * Proxy-SC: scrape, check and save proxies (src/main.py)

    A shallow embedding of [main.py] and the properties of its
    specification.  Python values are modelled as follows.

    - [str] is a list of Unicode code points ([text]); string constants
      of the program are written with [str "..."].
    - [set[Proxy]] is the list of the stored objects, looked up with
      [Proxy.__hash__] and [Proxy.__eq__] as a Python set does; a [dict]
      whose order is observable is an association list; the decoded JSON
      object of a lookup is a finite map.
    - [float] is the kernel's binary64.
    - Exceptions are a sum type; network, clock, file system and console
      are an explicit world: answers are read from oracles and calls are
      recorded as events. *)

From Stdlib Require Import ZArith NArith Lia List String Ascii Floats DecimalString.
From Stdlib Require Import Sorting.Permutation Sorting.Sorted.
From stdpp Require Import gmap strings list fin_maps sorting.

Local Open Scope N_scope.

(** ** Text *)

Abbreviation char := N (only parsing).
Abbreviation text := (list N) (only parsing).

(** The code point of an ASCII character, and a string constant of the
    program (all of them are ASCII). *)
Definition ch (a : ascii) : char := N_of_ascii a.
Definition str (s : string) : text := ch <$> list_ascii_of_string s.

(** The code points of value zero of the Unicode decimal digits (general
    category Nd, Unicode 14.0); each is followed by the digits 1 to 9 of
    its script.  Both [\d] of [re] (on [str] patterns) and [int] read
    this table. *)
Definition decimal_zeros : list N :=
  [48; 1632; 1776; 1984; 2406; 2534; 2662; 2790; 2918; 3046; 3174; 3302;
   3430; 3558; 3664; 3792; 3872; 4160; 4240; 6112; 6160; 6470; 6608; 6784;
   6800; 6992; 7088; 7232; 7248; 42528; 43216; 43264; 43472; 43504; 43600;
   44016; 65296; 66720; 68912; 69734; 69872; 69942; 70096; 70384; 70736;
   70864; 71248; 71360; 71472; 71904; 72016; 72784; 73040; 73120; 92768;
   92864; 93008; 120782; 120792; 120802; 120812; 120822; 123200; 123632;
   125264; 130032].

(** [unicodedata.decimal]: the value of a decimal digit. *)
Definition decimal (c : char) : option N :=
  (λ z, c - z) <$> find (λ z, (z <=? c) && (c <? z + 10)) decimal_zeros.

Definition isdecimal (c : char) : bool :=
  match decimal c with Some _ => true | None => false end.

(** [int(s)] on a string of decimal digits, the only strings the program
    converts (the digit groups of an extracted address).  [None] stands
    for [ValueError]; the signs, blanks and underscores that [int] also
    accepts are not modelled and give [None] too. *)
Definition int_step (acc : option Z) (c : char) : option Z :=
  match acc, decimal c with
  | Some a, Some v => Some (10 * a + Z.of_N v)%Z
  | _, _ => None
  end.

Definition int (s : text) : option Z :=
  match s with
  | [] => None
  | _ => foldl int_step (Some 0%Z) s
  end.

(** ** Backtracking matcher

    [re] explores alternatives in order and quantifiers greedily, and
    reports the first path that succeeds.  A pattern is modelled by the
    function that lists, in that order, every way it can match a prefix
    of the remaining text: the consumed prefix and what is left. *)

Definition rx := text → list (text * text).

Definition eps : rx := λ s, [([], s)].

Definition chr (p : char → bool) : rx := λ s,
  match s with
  | c :: s' => if p c then [([c], s')] else []
  | [] => []
  end.

Definition cat (a b : rx) : rx := λ s,
  '(x, s1) ← a s; '(y, s2) ← b s1; [(x ++ y, s2)].

Definition alt (a b : rx) : rx := λ s, a s ++ b s.

(** [a?], greedy. *)
Definition opt (a : rx) : rx := alt a eps.

(** [a{n}] and the greedy [a{0,n}]. *)
Fixpoint times (n : nat) (a : rx) : rx :=
  match n with O => eps | S k => cat a (times k a) end.

Fixpoint upto (n : nat) (a : rx) : rx :=
  match n with O => eps | S k => opt (cat a (upto k a)) end.

Definition cats (l : list rx) : rx := foldr cat eps l.
Definition alts (l : list rx) : rx := foldr alt (λ _, []) l.

(** [^] without [re.MULTILINE]: only at index 0 of the text. *)
Definition caret (bol : bool) : rx := λ s, if bol then [([], s)] else [].

(** [$]: at the end of the text, or before a newline that ends it. *)
Definition dollar : rx := λ s,
  match s with
  | [] => [([], s)]
  | [c] => if c =? 10 then [([], s)] else []
  | _ => []
  end.

Definition lit (a : ascii) : rx := chr (N.eqb (ch a)).
Definition rng (lo hi : ascii) : rx := chr (λ c, (ch lo <=? c) && (c <=? ch hi)).
Definition d : rx := chr isdecimal.
Definition D : rx := chr (λ c, negb (isdecimal c)).

(** ** The pattern of [ProxyScraperChecker.__init__] (lines 143-159) *)

(** [(?:[1-9]|[1-9]\d|1\d{2}|2[0-4]\d|25[0-5])], commented 1-255. *)
Definition octet1 : rx :=
  alts [ rng "1" "9";
         cat (rng "1" "9") d;
         cat (lit "1") (times 2 d);
         cats [lit "2"; rng "0" "4"; d];
         cats [lit "2"; lit "5"; rng "0" "5"] ].

(** [(?:\d|[1-9]\d|1\d{2}|2[0-4]\d|25[0-5])], commented 0-255. *)
Definition octet : rx :=
  alts [ d;
         cat (rng "1" "9") d;
         cat (lit "1") (times 2 d);
         cats [lit "2"; rng "0" "4"; d];
         cats [lit "2"; lit "5"; rng "0" "5"] ].

(** [(?:\d|[1-9]\d{1,3}|[1-5]\d{4}|6[0-4]\d{3}|65[0-4]\d{2}|655[0-2]\d|6553[0-5])],
    commented 0-65535. *)
Definition port : rx :=
  alts [ d;
         cats [rng "1" "9"; d; upto 2 d];
         cat (rng "1" "5") (times 4 d);
         cats [lit "6"; rng "0" "4"; times 3 d];
         cats [lit "6"; lit "5"; rng "0" "4"; times 2 d];
         cats [lit "6"; lit "5"; lit "5"; rng "0" "2"; d];
         cats [lit "6"; lit "5"; lit "5"; lit "3"; rng "0" "5"] ].

(** Group 2: the four octets. *)
Definition ipv4 : rx :=
  cats [octet1; lit "."; octet; lit "."; octet; lit "."; octet].

(** One way the whole pattern matches at the head of [s]: what the
    optional [(?:^|\D)?] consumed, groups 1 and 2, and the text left
    after the closing [(?:\D|$)]. *)
Record attempt := Attempt {
  a_lead : text;
  a_group1 : text;
  a_group2 : text;
  a_rest : text;
}.

Definition regex (bol : bool) : text → list attempt := λ s,
  '(lead, s0) ← opt (alt (caret bol) D) s;
  '(g2, s1) ← ipv4 s0;
  '(c, s2) ← lit ":" s1;
  '(p, s3) ← port s2;
  '(_, s4) ← alt D dollar s3;
  [Attempt lead (g2 ++ c ++ p) g2 s4].

(** A match object: [m.start()], [m.end()], [m.start(1)], [m.group(1)]
    and [m.group(2)]. *)
Record Match := {
  m_start : nat;
  m_end : nat;
  start1 : nat;
  group1 : text;
  group2 : text;
}.

(** [regex.match] at index [pos], where [s] is the text from [pos] on. *)
Definition match_at (pos : nat) (s : text) : option Match :=
  match regex (Nat.eqb pos 0) s with
  | a :: _ =>
      Some {| m_start := pos;
              m_end := pos + (length s - length (a_rest a));
              start1 := pos + length (a_lead a);
              group1 := a_group1 a;
              group2 := a_group2 a |}
  | [] => None
  end.

(** [regex.finditer]: the leftmost match, then the leftmost one that
    starts at or after its end, and so on.  [skip] counts the indices
    still inside the previous match. *)
Fixpoint scan (pos skip : nat) (s : text) : list Match :=
  match skip with
  | S k => match s with [] => [] | _ :: s' => scan (S pos) k s' end
  | O =>
      match match_at pos s with
      | Some m =>
          m :: match s with
               | [] => []
               | _ :: s' => scan (S pos) (m_end m - pos - 1) s'
               end
      | None => match s with [] => [] | _ :: s' => scan (S pos) 0 s' end
      end
  end.

Definition finditer (s : text) : list Match := scan 0 0 s.

(** The Pattern Extractor: the pairs [fetch_source] builds a [Proxy] from,
    [(proxy.group(1), proxy.group(2))]. *)
Definition extract (s : text) : list (text * text) :=
  (λ m, (group1 m, group2 m)) <$> finditer s.

(** ** Strings: the [str] methods the program calls *)

(** [s.replace(old, new)] for one-character [old] and [new]. *)
Definition replace (old new : char) (s : text) : text :=
  (λ c, if c =? old then new else c) <$> s.

(** [s.split(sep)] for a one-character [sep]. *)
Fixpoint split (sep : char) (s : text) : list text :=
  match s with
  | [] => [[]]
  | c :: s' =>
      if c =? sep then [] :: split sep s'
      else match split sep s' with
           | w :: ws => (c :: w) :: ws
           | [] => [[c]]
           end
  end.

(** [sep.join(l)]. *)
Fixpoint join (sep : text) (l : list text) : text :=
  match l with
  | [] => []
  | [x] => x
  | x :: l' => x ++ sep ++ join sep l'
  end.

(** [a in s] on strings. *)
Fixpoint startswith (a s : text) : bool :=
  match a, s with
  | [], _ => true
  | x :: a', y :: s' => (x =? y) && startswith a' s'
  | _ :: _, [] => false
  end.

Fixpoint contains (a s : text) : bool :=
  startswith a s || match s with [] => false | _ :: s' => contains a s' end.

(** [s.strip()]. *)
Definition isspace (c : char) : bool :=
  existsb (N.eqb c)
    [9; 10; 11; 12; 13; 28; 29; 30; 31; 32; 133; 160; 5760; 8192; 8193; 8194;
     8195; 8196; 8197; 8198; 8199; 8200; 8201; 8202; 8232; 8233; 8239; 8287;
     12288].

Fixpoint lstrip (s : text) : text :=
  match s with
  | c :: s' => if isspace c then lstrip s' else s
  | [] => []
  end.
Definition strip (s : text) : text := rev (lstrip (rev (lstrip s))).

(** [s.splitlines()]. *)
Definition linebreak (c : char) : bool :=
  existsb (N.eqb c) [10; 11; 12; 13; 28; 29; 30; 133; 8232; 8233].

Fixpoint splitlines_from (cur : text) (s : text) : list text :=
  match s with
  | [] => match cur with [] => [] | _ => [rev cur] end
  | c :: s' =>
      if linebreak c then
        rev cur ::
          match s' with
          | c' :: s'' =>
              if (c =? 13) && (c' =? 10) then splitlines_from [] s''
              else splitlines_from [] s'
          | [] => []
          end
      else splitlines_from (c :: cur) s'
  end.

Definition splitlines (s : text) : list text := splitlines_from [] s.

(** [str(n)] for an integer. *)
Definition show (n : Z) : text := str (NilZero.string_of_int (Z.to_int n)).

(** ** Exceptions *)

Inductive exn :=
| ValueError (msg : text)
| KeyError
| AttributeError
| FileNotFoundError
| OSError (errno : option Z)
| OtherException (shown : text).   (* any other subclass of [Exception] *)

Abbreviation result A := (exn + A)%type (only parsing).

(** ** [class Proxy] (lines 31-60) *)

Record Proxy := {
  socket_address : text;          (* ip:port *)
  ip : text;
  is_anonymous : option bool;     (* [None] until a check has answered *)
  geolocation : text;             (* |country|region|city *)
  timeout : float;
}.

Definition Proxy_init (socket_address ip : text) : Proxy :=
  {| socket_address := socket_address;
     ip := ip;
     is_anonymous := None;
     geolocation := str "|?|?|?";
     timeout := infinity |}.

(** A value of the decoded lookup payload: a string, or any other JSON
    value, of which the program only observes whether it is truthy and
    how an f-string prints it. *)
Inductive value :=
| VStr (s : text)
| VOther (truthy : bool) (shown : text).

(** [v or default], printed. *)
Definition or_else (v : option value) (default : text) : text :=
  match v with
  | Some (VStr []) => default
  | Some (VStr s) => s
  | Some (VOther true shown) => shown
  | Some (VOther false _) => default
  | None => default
  end.

(** [s != v]: a string differs from every value that is not a string,
    and from a missing one ([None]). *)
Definition differs (s : text) (v : option value) : bool :=
  match v with
  | Some (VStr q) => negb (bool_decide (s = q))
  | _ => true
  end.

Definition update (self : Proxy) (data : gmap text value) : Proxy :=
  let country := or_else (data !! str "country") (str "?") in
  let region := or_else (data !! str "regionName") (str "?") in
  let city := or_else (data !! str "city") (str "?") in
  {| socket_address := socket_address self;
     ip := ip self;
     is_anonymous := Some (differs (ip self) (data !! str "query"));
     geolocation := str "|" ++ country ++ str "|" ++ region ++ str "|" ++ city;
     timeout := timeout self |}.

(** The argument of [__eq__] is any object. *)
Inductive object :=
| AProxy (p : Proxy)
| NotAProxy.

(** [Proxy.__eq__]; [None] is [NotImplemented]. *)
Definition Proxy_eq (self : Proxy) (other : object) : option bool :=
  match other with
  | NotAProxy => None
  | AProxy other => Some (bool_decide (socket_address self = socket_address other))
  end.

(** ** [class Folder] (lines 63-78) *)

(** A path: the configured save path and the components appended to it
    with [/].  The program appends only names without separator, so
    [Path.name] is the last component. *)
Record Path := {
  anchor : text;
  parts : list text;
}.

Definition Path_of (s : text) : Path := {| anchor := s; parts := [] |}.
Definition slash (p : Path) (name : text) : Path :=
  {| anchor := anchor p; parts := parts p ++ [name] |}.
Definition Path_name (p : Path) : text := default [] (last (parts p)).

Global Instance Path_eq_dec : EqDecision Path.
Proof. solve_decision. Defined.

Record Folder := {
  path : Path;
  for_anonymous : bool;
  for_geolocation : bool;
}.

Definition Folder_init (path : Path) (folder_name : text) : Folder :=
  {| path := slash path folder_name;
     for_anonymous := contains (str "anon") folder_name;
     for_geolocation := contains (str "geo") folder_name |}.

(** ** Sorting keys (lines 81-86) *)

Definition speed_sorting_key (proxy : Proxy) : float := timeout proxy.

(** [None] when [int] raises [ValueError]. *)
Definition alphabet_sorting_key (proxy : Proxy) : option (list Z) :=
  mapM int (split (ch ".") (replace (ch ":") (ch ".") (socket_address proxy))).

(** [a < b] on tuples of integers. *)
Fixpoint tuple_lt (a b : list Z) : bool :=
  match a, b with
  | _, [] => false
  | [], _ :: _ => true
  | x :: a', y :: b' =>
      if (x =? y)%Z then tuple_lt a' b' else (x <? y)%Z
  end.

(** [sorted(l, key=key)]: every key is computed first, then the list is
    sorted stably with [<] on the keys.  The stable arrangement is built
    by insertion from the right.  It is the arrangement of Python's sort
    whenever [<] orders the keys at hand, as it does tuples of integers
    and floats none of which is NaN.  With a NaN among the keys [<] is
    no order, the arrangement Python returns depends on how its sort
    merges, and this one does not follow it: what is proved of the
    order or the stability of a sort by speed is said of timeouts
    without NaN. *)
Section Sorted.
Context {A K : Type} (lt : K → K → bool).

Fixpoint insert_by (x : K * A) (l : list (K * A)) : list (K * A) :=
  match l with
  | [] => [x]
  | y :: l' => if lt y.1 x.1 then y :: insert_by x l' else x :: y :: l'
  end.

Definition sort_keyed (l : list (K * A)) : list (K * A) :=
  foldr insert_by [] l.

Definition sorted (key : A → option K) (l : list A) : option (list A) :=
  keyed ← mapM (λ a, k ← key a; Some (k, a)) l;
  Some (snd <$> sort_keyed keyed).
End Sorted.

(** ** The world around the program *)

Inductive proto := http | socks4 | socks5.

Global Instance proto_eq_dec : EqDecision proto.
Proof. solve_decision. Defined.

Definition proto_name (p : proto) : text :=
  match p with
  | http => str "http"
  | socks4 => str "socks4"
  | socks5 => str "socks5"
  end.

Inductive stage := Scraping | Checking.

(** What the program does to the outside, in the order it does it. *)
Inductive event :=
| AddTask (s : stage) (p : proto) (total : nat)   (* progress.add_task *)
| Advance (s : stage) (p : proto)                 (* progress.update(task, advance=1) *)
| Print (msg : text)                              (* console.print *)
| PrintTable (rows : list (proto * nat * nat))    (* protocol, working, total *)
| PrintSaved (p : Path)                           (* the closing message *)
| Get (source : text)                             (* session.get(source, timeout=15) *)
| Probe (p : proto) (socket_address : text)       (* the lookup through a proxy *)
| Retrieve                                        (* urllib.request.urlretrieve, lines 279-282 *)
| System                                          (* os.system, lines 293-294 *)
| Rmtree (p : Path)
| Mkdir (p : Path)
| WriteText (p : Path) (content : text).

(** The network events. *)
Definition on_network (e : event) : bool :=
  match e with
  | Get _ | Probe _ _ | Retrieve => true
  | _ => false
  end.

(** A source answered with a status and a body, or the request raised
    an exception that prints as [exc_str]. *)
Inductive fetched :=
| FetchRaised (exc_str : text)
| Fetched (status : Z) (body : text).

(** What [response.json()] returns: an object, or another JSON value,
    which has no [get]. *)
Inductive payload :=
| JObject (data : gmap text value)
| JOther (truthy : bool).

Record response := {
  status : Z;
  json : result payload;
}.

(** One check: the clock when the request starts, how the request ends,
    and the clock when [timeout] is set. *)
Record answer := {
  start : float;
  reply : result response;
  finish : float;
}.

Record World := {
  fetch : proto → text → fetched;
  probe : proto → text → answer;
  (** the exception a download, a command or a file-system call ends in *)
  fault : event → option exn;
  (** the order in which gathered coroutines finish (after [shuffle],
      for the checks) *)
  order : ∀ A : Type, list A → list A;
}.

(** ** [class ProxyScraperChecker] (lines 89-353)

    [regex] is the constant above.  [console] and the progress bars are
    the [Print] and task events; [secure] and [api_key] serve lines
    279-282 and 293-294 only, which are modelled as the events
    [Retrieve] and [System]. *)
Record ProxyScraperChecker := {
  all_folders : list Folder;
  enabled_folders : list Folder;
  save_path : Path;                       (* [self.path] *)
  proxies_count : list (proto * nat);
  proxies : list (proto * list Proxy);    (* a set per protocol *)
  sort_by_speed : bool;
  sources : list (proto * list text);     (* a frozenset per protocol *)
  request_timeout : float;                (* [self.timeout] *)
  sem : Z;                                (* the permits of the semaphore *)
}.

(** [d[k]] and [d[k] = v] on a dictionary kept in insertion order. *)
Definition item {K V} `{EqDecision K} (d : list (K * V)) (k : K) : option V :=
  snd <$> find (λ kv, bool_decide (kv.1 = k)) d.

Definition set_item {K V} `{EqDecision K} (d : list (K * V)) (k : K) (v : V)
  : list (K * V) :=
  match item d k with
  | Some _ => (λ kv, if bool_decide (kv.1 = k) then (k, v) else kv) <$> d
  | None => d ++ [(k, v)]
  end.

(** A running program: the object and the events so far. *)
Record machine := {
  self : ProxyScraperChecker;
  log : list event;
}.

(** Computations that read and change the machine and may raise.
    [Hangs] is not raised: it stands for an [await] that never returns. *)
Inductive failure :=
| Raised (e : exn)
| Hangs.

Definition M (A : Type) : Type := machine → (failure + A) * machine.

Global Instance M_ret : MRet M := λ A a st, (inr a, st).
Global Instance M_bind : MBind M := λ A B k m st,
  match m st with
  | (inl e, st') => (inl e, st')
  | (inr a, st') => k a st'
  end.

Definition raise {A} (e : exn) : M A := λ st, (inl (Raised e), st).
Definition hang {A} : M A := λ st, (inl Hangs, st).
Definition get : M ProxyScraperChecker := λ st, (inr (self st), st).
Definition put (s : ProxyScraperChecker) : M unit :=
  λ st, (inr tt, {| self := s; log := log st |}).
Definition emit (e : event) : M unit :=
  λ st, (inr tt, {| self := self st; log := log st ++ [e] |}).

(** [try: m  except exc: handler]. *)
Definition try {A} (m : M A) (handler : exn → M A) : M A := λ st,
  match m st with
  | (inl (Raised e), st') => handler e st'
  | other => other
  end.

(** [for x in l: body]. *)
Fixpoint for_each {A} (l : list A) (body : A → M unit) : M unit :=
  match l with
  | [] => mret tt
  | x :: l' => body x ≫= λ _, for_each l' body
  end.

(** A call to the operating system: recorded, then it may raise. *)
Definition perform (w : World) (e : event) : M unit :=
  emit e ≫= λ _,
  match fault w e with
  | Some x => raise x
  | None => mret tt
  end.

Definition set_proxies (l : list (proto * list Proxy)) : M unit :=
  get ≫= λ s,
  put {| all_folders := all_folders s;
         enabled_folders := enabled_folders s;
         save_path := save_path s;
         proxies_count := proxies_count s;
         proxies := l;
         sort_by_speed := sort_by_speed s;
         sources := sources s;
         request_timeout := request_timeout s;
         sem := sem s |}.

Definition set_proxies_count (l : list (proto * nat)) : M unit :=
  get ≫= λ s,
  put {| all_folders := all_folders s;
         enabled_folders := enabled_folders s;
         save_path := save_path s;
         proxies_count := l;
         proxies := proxies s;
         sort_by_speed := sort_by_speed s;
         sources := sources s;
         request_timeout := request_timeout s;
         sem := sem s |}.

(** [self.proxies[proto]]. *)
Definition proxies_of (proto : proto) : M (list Proxy) :=
  get ≫= λ s,
  match item (proxies s) proto with
  | Some l => mret l
  | None => raise KeyError
  end.

(** *** Sets of [Proxy]

    A set finds an element by its hash and then by [==].  The list is
    the set in its iteration order, which Python leaves unspecified. *)
Section PySet.
(** [hash] on a pair of strings. *)
Variable hash : text * text → Z.

(** [Proxy.__hash__]. *)
Definition Proxy_hash (self : Proxy) : Z :=
  hash (str "socket_address", socket_address self).

(** The test of a set lookup for [x] against a stored [y]. *)
Definition found (x y : Proxy) : bool :=
  (Proxy_hash y =? Proxy_hash x)%Z &&
  match Proxy_eq y (AProxy x) with Some b => b | None => false end.

(** [s.add(x)]. *)
Definition set_add (x : Proxy) (s : list Proxy) : list Proxy :=
  if existsb (found x) s then s else s ++ [x].

(** [s.remove(x)]. *)
Definition set_remove (x : Proxy) (s : list Proxy) : result (list Proxy) :=
  if existsb (found x) s then inr (filter (λ y, found x y = false) s)
  else inl KeyError.

(** [self.proxies[proto].add(proxy_obj)]. *)
Definition add_proxy (proto : proto) (proxy_obj : Proxy) : M unit :=
  proxies_of proto ≫= λ l,
  get ≫= λ s,
  set_proxies (set_item (proxies s) proto (set_add proxy_obj l)).

(** [self.proxies[proto].remove(proxy)]. *)
Definition remove_proxy (proto : proto) (proxy : Proxy) : M unit :=
  proxies_of proto ≫= λ l,
  match set_remove proxy l with
  | inl e => raise e
  | inr l' => get ≫= λ s, set_proxies (set_item (proxies s) proto l')
  end.

End PySet.

(** An assignment to fields of the object [proxy], which lives in the set
    of [proto]: the stored object, known by its address, changes. *)
Definition assign (proto : proto) (proxy : Proxy) (f : Proxy → Proxy) : M unit :=
  get ≫= λ s,
  match item (proxies s) proto with
  | Some l =>
      set_proxies
        (set_item (proxies s) proto
           ((λ y, if bool_decide (socket_address y = socket_address proxy)
                  then f y else y) <$> l))
  | None => mret tt
  end.

Definition set_timeout (t : float) (p : Proxy) : Proxy :=
  {| socket_address := socket_address p;
     ip := ip p;
     is_anonymous := is_anonymous p;
     geolocation := geolocation p;
     timeout := t |}.


(** The keyword arguments of [ProxyScraperChecker(...)]. *)
Module Config.
Record t := {
  timeout : float;
  max_connections : Z;
  sort_by_speed : bool;
  save_path : text;
  proxies : bool;
  proxies_anonymous : bool;
  proxies_geolocation : bool;
  proxies_geolocation_anonymous : bool;
  http_sources : option text;
  socks4_sources : option text;
  socks5_sources : option text;
}.
End Config.

(** [folders_mapping] of [__init__]. *)
Definition folders_mapping (cfg : Config.t) : list (text * bool) :=
  [ (str "proxies", Config.proxies cfg);
    (str "proxies_anonymous", Config.proxies_anonymous cfg);
    (str "proxies_geolocation", Config.proxies_geolocation cfg);
    (str "proxies_geolocation_anonymous", Config.proxies_geolocation_anonymous cfg) ].

(** [tuple(folder for folder in folders if mapping[folder.path.name])]. *)
Fixpoint select (mapping : list (text * bool)) (folders : list Folder)
  : result (list Folder) :=
  match folders with
  | [] => inr []
  | folder :: rest =>
      match item mapping (Path_name (path folder)) with
      | None => inl KeyError
      | Some enabled =>
          match select mapping rest with
          | inl e => inl e
          | inr l => inr (if enabled then folder :: l else l)
          end
      end
  end.

(** [frozenset(filter(None, sources.splitlines()))], for the protocols
    whose [sources] is neither [None] nor empty. *)
Definition read_sources (l : list (proto * option text)) : list (proto * list text) :=
  omap (λ ps, match ps.2 with
              | None | Some [] => None
              | Some s =>
                  Some (ps.1, remove_dups (filter (λ x, x ≠ []) (splitlines s)))
              end) l.

(** [ProxyScraperChecker.__init__] (lines 107-177). *)
Definition ProxyScraperChecker_init (cfg : Config.t) : result ProxyScraperChecker :=
  let path := Path_of (Config.save_path cfg) in
  let all := (λ kv, Folder_init path kv.1) <$> folders_mapping cfg in
  match select (folders_mapping cfg) all with
  | inl e => inl e
  | inr [] => inl (ValueError (str "all folders are disabled in the config"))
  | inr enabled =>
      let srcs := read_sources [ (http, Config.http_sources cfg);
                                 (socks4, Config.socks4_sources cfg);
                                 (socks5, Config.socks5_sources cfg) ] in
      if (Config.max_connections cfg <? 0)%Z
      then inl (ValueError (str "Semaphore initial value must be >= 0"))
      else inr {| all_folders := all;
                  enabled_folders := enabled;
                  save_path := path;
                  proxies_count := (λ ps, (ps.1, 0%nat)) <$> srcs;
                  proxies := (λ ps, (ps.1, [])) <$> srcs;
                  sort_by_speed := Config.sort_by_speed cfg;
                  sources := srcs;
                  request_timeout := Config.timeout cfg;
                  sem := Config.max_connections cfg |}
  end.

(** The [sorted_proxies] property (lines 334-342); [None] when a key
    raises [ValueError]. *)
Definition sorted_proxies (s : ProxyScraperChecker) : option (list (proto * list Proxy)) :=
  mapM (λ pp : proto * list Proxy,
          l ← (if sort_by_speed s
               then sorted PrimFloat.ltb (λ p, Some (speed_sorting_key p)) pp.2
               else sorted tuple_lt alphabet_sorting_key pp.2);
          Some (pp.1, l))
       (proxies s).

(** [proxy.is_anonymous if folder.for_anonymous else True], as a truth
    value: [None] counts as false. *)
Definition listed (folder : Folder) (proxy : Proxy) : bool :=
  if for_anonymous folder
  then match is_anonymous proxy with Some b => b | None => false end
  else true.

(** The text [save_proxies] writes for one folder and one protocol. *)
Definition file_text (folder : Folder) (proxies : list Proxy) : text :=
  join [10]
    ((λ proxy, if for_geolocation folder
               then socket_address proxy ++ geolocation proxy
               else socket_address proxy)
     <$> filter (λ proxy, listed folder proxy = true) proxies).

(** [e] is [OSError] with [errno] 24, too many open files. *)
Definition too_many_open_files (e : exn) : bool :=
  match e with
  | OSError (Some 24%Z) => true
  | _ => false
  end.

(** The checks [check_all_proxies] creates, one per proxy of every
    protocol (lines 283-287). *)
Definition coroutines (s : ProxyScraperChecker) : list (Proxy * proto) :=
  pp ← proxies s; proxy ← pp.2; [(proxy, pp.1)].

Section Methods.
Variable hash : text * text → Z.
Variable w : World.

(** [fetch_source] (lines 179-209). *)
Definition fetch_source (source : text) (proto : proto) : M unit :=
  let source := strip source in
  _ ← emit (Get source);
  _ ← match fetch w proto source with
      | FetchRaised exc_str =>
          let msg := source ++ str " | Error" in
          emit (Print (if bool_decide (exc_str ≠ []) && bool_decide (exc_str ≠ source)
                       then msg ++ str ": " ++ exc_str
                       else msg))
      | Fetched status body =>
          match finditer body with
          | [] =>
              let msg := source ++ str " | No proxies found" in
              emit (Print (if (status =? 200)%Z then msg
                           else msg ++ str " | Status code " ++ show status))
          | proxies =>
              for_each proxies (λ proxy,
                add_proxy hash proto (Proxy_init (group1 proxy) (group2 proxy)))
          end
      end;
  emit (Advance Scraping proto).

(** [check_proxy] (lines 211-241).  [data] of the source is the
    [option payload] of the [try] body. *)
Definition check_proxy (proxy : Proxy) (proto : proto) : M unit :=
  let a := probe w proto (socket_address proxy) in
  _ ← emit (Probe proto (socket_address proxy));
  _ ← match
        match reply a with
        | inl e => inl e
        | inr response =>
            if (status response =? 200)%Z
            then match json response with
                 | inl e => inl e
                 | inr data => inr (Some data)
                 end
            else inr None
        end
      with
      | inl e =>
          _ ← (if too_many_open_files e
               then emit (Print (str "[red]Please, set MAX_CONNECTIONS to lower value."))
               else mret tt);
          remove_proxy hash proto proxy
      | inr data =>
          _ ← assign proto proxy (set_timeout (finish a - start a)%float);
          match data with
          | Some (JObject data) =>
              if bool_decide (data = ∅) then mret tt
              else assign proto proxy (λ p, update p data)
          | Some (JOther true) => raise AttributeError
          | Some (JOther false) => mret tt
          | None => mret tt
          end
      end;
  emit (Advance Checking proto).

(** [fetch_all_sources] (lines 243-269). *)
Definition fetch_all_sources : M unit :=
  s ← get;
  _ ← for_each (sources s) (λ ps, emit (AddTask Scraping ps.1 (length ps.2)));
  _ ← for_each
        (order w _ (ps ← sources s; source ← ps.2; [(source, ps.1)]))
        (λ c, fetch_source c.1 c.2);
  s ← get;
  for_each (proxies s) (λ pp,
    s ← get;
    set_proxies_count (set_item (proxies_count s) pp.1 (length pp.2))).

(** [check_all_proxies] (lines 271-289).  With no permit in the
    semaphore no check ever starts, and gathering them never ends.
    The gathered checks are taken one after the other in the order they
    finish, which is the stage as the program runs it when every check
    finishes.  When a check raises, the stage raises with it, and the
    state and the log kept here are those of the checks that finished
    before: the lookups the other checks have under way by then are not
    recorded, so the log of a stage that raises says what had finished,
    not all that was started. *)
Definition check_all_proxies : M unit :=
  s ← get;
  _ ← for_each (proxies s) (λ pp, emit (AddTask Checking pp.1 (length pp.2)));
  _ ← perform w Retrieve;
  if bool_decide (sem s = 0%Z) && bool_decide (coroutines s ≠ []) then hang
  else for_each (order w _ (coroutines s)) (λ c, check_proxy c.1 c.2).

(** [Folder.remove] and [Folder.create] (lines 71-78). *)
Definition Folder_remove (folder : Folder) : M unit :=
  try (perform w (Rmtree (path folder)))
      (λ e, match e with FileNotFoundError => mret tt | _ => raise e end).

Definition Folder_create (folder : Folder) : M unit :=
  perform w (Mkdir (path folder)).

(** [save_proxies] (lines 291-308). *)
Definition save_proxies : M unit :=
  s ← get;
  match sorted_proxies s with
  | None => raise (ValueError (str "invalid literal for int() with base 10"))
  | Some sorted_proxies =>
      _ ← perform w System;
      _ ← for_each (all_folders s) Folder_remove;
      for_each (enabled_folders s) (λ folder,
        _ ← Folder_create folder;
        for_each sorted_proxies (λ pp,
          perform w (WriteText (slash (path folder) (proto_name pp.1 ++ str ".txt"))
                               (file_text folder pp.2))))
  end.

(** [ProxyScraperChecker.main] (lines 310-332). *)
Definition main : M unit :=
  _ ← fetch_all_sources;
  _ ← check_all_proxies;
  s ← get;
  _ ← emit (PrintTable ((λ pp, (pp.1, length pp.2, default 0%nat (item (proxies_count s) pp.1)))
                        <$> proxies s));
  _ ← save_proxies;
  s ← get;
  emit (PrintSaved (save_path s)).

(** The module's [main] (lines 363-391), from the configuration on:
    the object is built, then [main] runs. *)
Definition run (cfg : Config.t) : (failure + unit) * list event :=
  match ProxyScraperChecker_init cfg with
  | inl e => (inl (Raised e), [])
  | inr s =>
      let out := main {| self := s; log := [] |} in
      (out.1, log out.2)
  end.
End Methods.

(** * Properties *)

(** What [re] returns on some inputs, as a check of the matcher. *)
Example finditer_two_lines :
  extract (str "1.1.1.1:80" ++ [10] ++ str "2.2.2.2:81")
  = [(str "1.1.1.1:80", str "1.1.1.1"); (str "2.2.2.2:81", str "2.2.2.2")].
Proof. vm_compute. reflexivity. Qed.

Example finditer_spans :
  (λ m, (m_start m, m_end m, start1 m)) <$> finditer (str "x1.1.1.1:80.5")
  = [(0, 12, 1)%nat].
Proof. vm_compute. reflexivity. Qed.

Example finditer_arabic_digits :
  extract (str "1." ++ [1634] ++ str ".3.4:8" ++ [1632])
  = [(str "1." ++ [1634] ++ str ".3.4:8" ++ [1632], str "1." ++ [1634] ++ str ".3.4")].
Proof. vm_compute. reflexivity. Qed.

(** The text of the specification's scenario: of 999.1.1.1:80 the
    pattern takes 99.1.1.1:80. *)
Example finditer_scenario :
  extract (str "foo 10.0.0.1:8080 bar 999.1.1.1:80 baz")
  = [(str "10.0.0.1:8080", str "10.0.0.1"); (str "99.1.1.1:80", str "99.1.1.1")].
Proof. vm_compute. reflexivity. Qed.

Example finditer_rejects :
  extract (str "0.1.1.1:80") = [] ∧ extract (str "10.1.1.1:080") = [] ∧
  extract (str "1.01.1.1:80") = [] ∧ extract (str "1.1.1.1:65536") = [] ∧
  extract (str "1.2.3.4:70000") = [] ∧ extract (str "1.256.3.4:80") = [].
Proof. vm_compute. repeat split. Qed.

(** ** Reading the matcher backwards *)

Lemma elem_of_eps s x r : (x, r) ∈ eps s ↔ x = [] ∧ r = s.
Proof.
  unfold eps. rewrite list_elem_of_singleton.
  split; [intros [= -> ->]; done | intros [-> ->]; done].
Qed.

Lemma elem_of_chr p s x r :
  (x, r) ∈ chr p s ↔ ∃ c, s = c :: r ∧ x = [c] ∧ p c = true.
Proof.
  unfold chr. destruct s as [|c s'].
  - rewrite elem_of_nil. split; [done | intros (c & [=] & _)].
  - destruct (p c) eqn:E.
    + rewrite list_elem_of_singleton. split.
      * intros [= -> ->]. by exists c.
      * intros (c0 & [= -> ->] & -> & _). done.
    + rewrite elem_of_nil. split; [done|].
      intros (c0 & [= -> ->] & _ & Hp). congruence.
Qed.

Lemma elem_of_cat a b s x r :
  (x, r) ∈ cat a b s ↔
  ∃ x1 m x2, (x1, m) ∈ a s ∧ (x2, r) ∈ b m ∧ x = x1 ++ x2.
Proof.
  unfold cat. rewrite list_elem_of_bind. split.
  - intros [[x1 m] [H1 H2]]. apply list_elem_of_bind in H1 as [[x2 r'] [H1 H3]].
    apply list_elem_of_singleton in H1 as [= -> ->]. by exists x1, m, x2.
  - intros (x1 & m & x2 & H1 & H2 & ->). exists (x1, m). split; [|done].
    apply list_elem_of_bind. exists (x2, r). split; [|done].
    by apply list_elem_of_singleton.
Qed.

Lemma elem_of_alt a b s x r : (x, r) ∈ alt a b s ↔ (x, r) ∈ a s ∨ (x, r) ∈ b s.
Proof. unfold alt. apply elem_of_app. Qed.

Lemma elem_of_caret bol s x r : (x, r) ∈ caret bol s ↔ bol = true ∧ x = [] ∧ r = s.
Proof.
  unfold caret. destruct bol.
  - rewrite list_elem_of_singleton.
    split; [intros [= -> ->]; done | intros (_ & -> & ->); done].
  - rewrite elem_of_nil. split; [done | intros [[=] _]].
Qed.

Lemma elem_of_dollar s x r :
  (x, r) ∈ dollar s → x = [] ∧ r = s ∧ (s = [] ∨ s = [10]).
Proof.
  unfold dollar. destruct s as [|c [|c' s']].
  - rewrite list_elem_of_singleton. intros [= -> ->]. auto.
  - destruct (N.eqb_spec c 10) as [->|Hc].
    + rewrite list_elem_of_singleton. intros [= -> ->]. auto.
    + by rewrite elem_of_nil.
  - by rewrite elem_of_nil.
Qed.

(** ** Digits and digit groups *)

Lemma decimal_bound c v : decimal c = Some v → v < 10.
Proof.
  unfold decimal. destruct (find _ _) as [z|] eqn:E; [|done].
  apply find_some in E as [_ E].
  apply andb_true_iff in E as [?%N.leb_le ?%N.ltb_lt]. intros [= <-]. lia.
Qed.

Lemma decimal_ascii c : 48 ≤ c → c ≤ 57 → decimal c = Some (c - 48).
Proof.
  intros Hlo Hhi. unfold decimal, decimal_zeros, find.
  destruct (N.leb_spec 48 c); [|lia].
  destruct (N.ltb_spec c (48 + 10)); [done | lia].
Qed.

Lemma isdecimal_true c : isdecimal c = true → ∃ v, decimal c = Some v ∧ v < 10.
Proof.
  unfold isdecimal. destruct (decimal c) as [v|] eqn:E; [|done].
  intros _. exists v. eauto using decimal_bound.
Qed.

(** A digit group starts with a zero that is not its only digit. *)
Definition leading_zero (x : text) : bool :=
  match x with
  | c :: _ :: _ => match decimal c with Some v => v =? 0 | None => false end
  | _ => false
  end.

(** [x] is a string of digits without leading zero that [int] reads as a
    number between [lo] and [hi]. *)
Definition number (lo hi : Z) (x : text) : Prop :=
  ∃ v, int x = Some v ∧ (lo ≤ v ≤ hi)%Z ∧ leading_zero x = false.

(** Inversion of a membership in one of the pattern's pieces. *)
Ltac rx_step :=
  match goal with
  | H : _ ∈ opt _ _ |- _ => unfold opt in H
  | H : _ ∈ alt _ _ _ |- _ => apply elem_of_alt in H as [H|H]
  | H : _ ∈ cat _ _ _ |- _ =>
      let x1 := fresh "x" in let x2 := fresh "x" in let m := fresh "m" in
      apply elem_of_cat in H as (x1 & m & x2 & ? & ? & ->)
  | H : _ ∈ eps _ |- _ => apply elem_of_eps in H as [? ?]; subst
  | H : _ ∈ caret _ _ |- _ => apply elem_of_caret in H as (? & ? & ?); subst
  | H : _ ∈ dollar _ |- _ =>
      apply elem_of_dollar in H as (? & ? & [?|?]); subst
  | H : _ ∈ [] |- _ => by apply elem_of_nil in H
  | H : _ ∈ lit _ _ |- _ =>
      let c := fresh "c" in let Hc := fresh "Hc" in
      unfold lit in H; apply elem_of_chr in H as (c & -> & -> & Hc);
      apply N.eqb_eq in Hc; cbv in Hc; subst c
  | H : _ ∈ rng ?lo ?hi _ |- _ =>
      let c := fresh "c" in let Hc := fresh "Hc" in
      let l := eval vm_compute in (ch lo) in
      let h := eval vm_compute in (ch hi) in
      unfold rng in H; apply elem_of_chr in H as (c & -> & -> & Hc);
      change (ch lo) with l in Hc; change (ch hi) with h in Hc;
      apply andb_true_iff in Hc as [?%N.leb_le ?%N.leb_le]
  | H : _ ∈ d _ |- _ =>
      let c := fresh "c" in let v := fresh "v" in
      unfold d in H;
      apply elem_of_chr in H as (c & -> & -> & (v & ? & ?)%isdecimal_true)
  | H : _ ∈ D _ |- _ =>
      let c := fresh "c" in
      unfold D in H;
      apply elem_of_chr in H as (c & -> & -> & ?%negb_true_iff)
  end.

Ltac rx_inv := cbn [alts cats foldr times upto opt] in *; repeat rx_step.

(** Closes [number lo hi [c1; ...; cn]] from the facts on the [ci]. *)
Ltac number_solve :=
  unfold number, int, leading_zero, int_step; cbn [foldl app];
  repeat match goal with
  | H : decimal ?c = Some _ |- context [decimal ?c] => rewrite H
  | |- context [decimal (Npos ?p)] =>
      change (decimal (Npos p)) with (Some (Npos p - 48))
  | |- context [decimal ?c] => rewrite (decimal_ascii c) by lia
  end;
  eexists; split; [reflexivity|]; split; [lia|];
  first [reflexivity | apply N.eqb_neq; lia].

Lemma octet1_number s x r : (x, r) ∈ octet1 s → s = x ++ r ∧ number 1 255 x.
Proof. unfold octet1. intros H. rx_inv; (split; [done | number_solve]). Qed.

Lemma octet_number s x r : (x, r) ∈ octet s → s = x ++ r ∧ number 0 255 x.
Proof. unfold octet. intros H. rx_inv; (split; [done | number_solve]). Qed.

Lemma port_number s x r : (x, r) ∈ port s → s = x ++ r ∧ number 0 65535 x.
Proof. unfold port. intros H. rx_inv; (split; [done | number_solve]). Qed.

Lemma foldl_int_step_None x : foldl int_step None x = None.
Proof. induction x as [|c x IH]; [done | exact IH]. Qed.

Lemma foldl_int_step_digits acc x v :
  foldl int_step acc x = Some v → Forall (λ c, isdecimal c = true) x.
Proof.
  revert acc. induction x as [|c x IH]; intros acc; [by constructor|].
  cbn [foldl]. intros H. constructor; [|by eapply IH].
  unfold isdecimal. destruct (decimal c) eqn:E; [done|].
  replace (int_step acc c) with (@None Z) in H
    by (unfold int_step; rewrite E; by destruct acc).
  by rewrite foldl_int_step_None in H.
Qed.

Lemma number_digits lo hi x :
  number lo hi x → x ≠ [] ∧ Forall (λ c, isdecimal c = true) x.
Proof.
  intros (v & Hv & _). destruct x as [|c x]; [done|]. split; [done|].
  by eapply foldl_int_step_digits.
Qed.

(** ** Where a match comes from *)

Definition dot : text := str ".".
Definition colon : text := str ":".

(** The character before the first one of [tail], if any, is no digit. *)
Definition no_digit_ahead (tail : text) : Prop :=
  match tail with [] => True | c :: _ => isdecimal c = false end.

(** The anatomy of anything the pattern can match. *)
Record anatomy (lead g1 g2 tail : text) : Prop := {
  an_octets : ∃ o1 o2 o3 o4 p,
    g2 = o1 ++ dot ++ o2 ++ dot ++ o3 ++ dot ++ o4 ∧
    g1 = g2 ++ colon ++ p ∧
    number 1 255 o1 ∧ number 0 255 o2 ∧ number 0 255 o3 ∧
    number 0 255 o4 ∧ number 0 65535 p;
  an_lead : lead = [] ∨ ∃ c, lead = [c] ∧ isdecimal c = false;
  an_tail : no_digit_ahead tail;
}.

Lemma regex_anatomy bol s a :
  a ∈ regex bol s →
  ∃ tail, s = a_lead a ++ a_group1 a ++ tail ∧
          anatomy (a_lead a) (a_group1 a) (a_group2 a) tail.
Proof.
  unfold regex. intros H.
  apply list_elem_of_bind in H as ([lead s0] & H & Hlead).
  apply list_elem_of_bind in H as ([g2 s1] & H & Hip).
  apply list_elem_of_bind in H as ([c s2] & H & Hc).
  apply list_elem_of_bind in H as ([p s3] & H & Hp).
  apply list_elem_of_bind in H as ([e s4] & H & He).
  apply list_elem_of_singleton in H as ->. cbn [a_lead a_group1 a_group2].
  exists s3.
  assert (s = lead ++ s0 ∧ (lead = [] ∨ ∃ c, lead = [c] ∧ isdecimal c = false))
    as [-> Hl] by (clear -Hlead; rx_inv; eauto).
  assert (no_digit_ahead s3) as Ht by (clear -He; rx_inv; done).
  clear Hlead He.
  apply port_number in Hp as [-> Hp].
  unfold ipv4 in Hip. cbn [cats foldr] in Hip.
  repeat match goal with
  | H : _ ∈ cat octet1 _ _ |- _ =>
      apply elem_of_cat in H as (? & ? & ? & [-> ?]%octet1_number & H & ->)
  | H : _ ∈ cat octet _ _ |- _ =>
      apply elem_of_cat in H as (? & ? & ? & [-> ?]%octet_number & H & ->)
  | H : _ ∈ cat (lit _) _ _ |- _ =>
      apply elem_of_cat in H as (? & ? & ? & ? & H & ->)
  end.
  rx_inv. rewrite app_nil_r. split.
  - rewrite <- !app_assoc. cbn [app]. by rewrite <- ?app_assoc.
  - split; [|done|done]. do 5 eexists.
    split; [reflexivity|]. split; [reflexivity|].
    repeat (split; [assumption|]); assumption.
Qed.

Lemma match_at_Some pos s m :
  match_at pos s = Some m →
  ∃ a, a ∈ regex (Nat.eqb pos 0) s ∧
       start1 m = (pos + length (a_lead a))%nat ∧
       group1 m = a_group1 a ∧ group2 m = a_group2 a.
Proof.
  unfold match_at. destruct (regex _ s) as [|a l] eqn:E; [done|].
  intros [= <-]. exists a. split; [by left | done].
Qed.

Lemma scan_origin pos skip s m :
  m ∈ scan pos skip s →
  ∃ k, (k ≤ length s)%nat ∧ match_at (pos + k) (drop k s) = Some m.
Proof.
  revert pos skip. induction s as [|c s IH]; intros pos skip.
  - destruct skip; cbn [scan]; [|by rewrite elem_of_nil].
    destruct (match_at pos []) as [m'|] eqn:E; [|by rewrite elem_of_nil].
    rewrite list_elem_of_singleton. intros ->. exists 0%nat.
    by rewrite Nat.add_0_r.
  - assert (∀ skip', m ∈ scan (S pos) skip' s →
        ∃ k, (k ≤ length (c :: s))%nat ∧
             match_at (pos + k) (drop k (c :: s)) = Some m) as Hnext.
    { intros skip' (k & Hk & Hm)%IH. exists (S k). cbn [length drop].
      split; [lia|]. by rewrite Nat.add_succ_r. }
    destruct skip; cbn [scan]; [|by apply Hnext].
    destruct (match_at pos (c :: s)) as [m'|] eqn:E; [|by apply Hnext].
    rewrite elem_of_cons. intros [->|H]; [|by eapply Hnext].
    exists 0%nat. rewrite Nat.add_0_r. split; [lia | done].
Qed.

(** Every match of [finditer] sits in the text where [start1] says and
    has the anatomy of the pattern. *)
Lemma finditer_anatomy s m :
  m ∈ finditer s →
  ∃ before lead tail,
    s = before ++ group1 m ++ tail ∧ length before = start1 m ∧
    anatomy lead (group1 m) (group2 m) tail.
Proof.
  intros (k & Hk & Hm)%scan_origin.
  apply match_at_Some in Hm as (a & Ha & Hs & -> & ->).
  apply regex_anatomy in Ha as (tail & Hd & Han).
  exists (take k s ++ a_lead a), (a_lead a), tail. split; [|split; [|done]].
  - rewrite <- app_assoc, <- Hd. by rewrite take_drop.
  - rewrite length_app, length_take, Hs. cbn. lia.
Qed.

(** The characters around a match in the text. *)
Definition char_before (s : text) (m : Match) : option char :=
  last (take (start1 m) s).
Definition char_after (s : text) (m : Match) : option char :=
  s !! (start1 m + length (group1 m))%nat.

Lemma finditer_located s m :
  m ∈ finditer s →
  take (length (group1 m)) (drop (start1 m) s) = group1 m ∧
  match char_after s m with Some c => isdecimal c = false | None => True end.
Proof.
  intros (before & lead & tail & -> & Hlen & [_ _ Ht])%finditer_anatomy.
  unfold char_after. rewrite <- Hlen.
  rewrite drop_app_length, take_app_length. split; [done|].
  rewrite lookup_app_r by lia.
  replace (_ + _ - _)%nat with (length (group1 m)) by lia.
  rewrite lookup_app_r by lia. rewrite Nat.sub_diag.
  by destruct tail.
Qed.

(** ** The digit groups of an address, as [alphabet_sorting_key] cuts them *)

Lemma isdecimal_dot : isdecimal (ch ".") = false.
Proof. reflexivity. Qed.

Lemma isdecimal_colon : isdecimal (ch ":") = false.
Proof. reflexivity. Qed.

Lemma replace_digits x :
  Forall (λ c, isdecimal c = true) x → replace (ch ":") (ch ".") x = x.
Proof.
  induction 1 as [|c x Hc _ IH]; [done|]. unfold replace in *. cbn [fmap list_fmap].
  rewrite IH. destruct (N.eqb_spec c (ch ":")) as [->|]; [|done].
  by rewrite isdecimal_colon in Hc.
Qed.

Lemma replace_app old new x y :
  replace old new (x ++ y) = replace old new x ++ replace old new y.
Proof. unfold replace. apply fmap_app. Qed.

Lemma split_digits_app x y :
  Forall (λ c, isdecimal c = true) x →
  split (ch ".") (x ++ ch "." :: y) = x :: split (ch ".") y.
Proof.
  induction 1 as [|c x Hc _ IH]; [done|]. cbn [app split]. rewrite IH.
  destruct (N.eqb_spec c (ch ".")) as [->|]; [|done].
  by rewrite isdecimal_dot in Hc.
Qed.

Lemma split_digits x :
  Forall (λ c, isdecimal c = true) x → split (ch ".") x = [x].
Proof.
  induction 1 as [|c x Hc _ IH]; [done|]. cbn [split]. rewrite IH.
  destruct (N.eqb_spec c (ch ".")) as [->|]; [|done].
  by rewrite isdecimal_dot in Hc.
Qed.

Lemma anatomy_groups lead g1 g2 tail :
  anatomy lead g1 g2 tail →
  ∃ o1 o2 o3 o4 p,
    split (ch ".") (replace (ch ":") (ch ".") g1) = [o1; o2; o3; o4; p] ∧
    g2 = join dot [o1; o2; o3; o4] ∧ g1 = g2 ++ colon ++ p ∧
    number 1 255 o1 ∧ number 0 255 o2 ∧ number 0 255 o3 ∧
    number 0 255 o4 ∧ number 0 65535 p.
Proof.
  intros [(o1 & o2 & o3 & o4 & p & -> & -> & H1 & H2 & H3 & H4 & Hp) _ _].
  exists o1, o2, o3, o4, p.
  split; [|split; [reflexivity | split; [reflexivity | tauto]]].
  destruct (number_digits _ _ _ H1) as [_ D1], (number_digits _ _ _ H2) as [_ D2],
    (number_digits _ _ _ H3) as [_ D3], (number_digits _ _ _ H4) as [_ D4],
    (number_digits _ _ _ Hp) as [_ Dp].
  rewrite !replace_app.
  change (replace (ch ":") (ch ".") colon) with [ch "."].
  change (replace (ch ":") (ch ".") dot) with [ch "."].
  rewrite !replace_digits by done.
  rewrite <- !app_assoc. cbn [app].
  by rewrite !split_digits_app, split_digits.
Qed.

(** The key of an extracted address is defined: [int] raises on none of
    its groups. *)
Lemma anatomy_key lead g1 g2 tail proxy :
  anatomy lead g1 g2 tail → socket_address proxy = g1 →
  ∃ v1 v2 v3 v4 vp, alphabet_sorting_key proxy = Some [v1; v2; v3; v4; vp].
Proof.
  intros Han <-.
  apply anatomy_groups in Han
    as (o1 & o2 & o3 & o4 & p & Hs & _ & _ & H1 & H2 & H3 & H4 & Hp).
  destruct H1 as (v1 & E1 & _), H2 as (v2 & E2 & _), H3 as (v3 & E3 & _),
    H4 as (v4 & E4 & _), Hp as (vp & Ep & _).
  exists v1, v2, v3, v4, vp. unfold alphabet_sorting_key. rewrite Hs.
  cbn [mapM]. rewrite E1, E2, E3, E4, Ep. reflexivity.
Qed.

(** ** The Pattern Extractor (spec 4.1) *)

(** A context that bounds a match the way the specification asks: the
    edge of the text, or a character that is neither a digit nor a dot. *)
Definition separates (c : option char) : bool :=
  match c with
  | None => true
  | Some c => negb (isdecimal c) && negb (c =? ch ".")
  end.

Definition bounded_both_sides (s : text) : Prop :=
  ∀ m, m ∈ finditer s →
       separates (char_before s m) = true ∧ separates (char_after s m) = true.

(** The match takes a character of the text at an index from [lo] to
    [hi - 1]. *)
Definition reaches (m : Match) (lo hi : nat) : bool :=
  (start1 m <? hi)%nat && (lo <? start1 m + length (group1 m))%nat.

Definition untouched (s : text) (lo hi : nat) : Prop :=
  ∀ m, m ∈ finditer s → reaches m lo hi = false.

Definition in_range (lo hi : Z) (x : text) : Prop :=
  ∃ v, int x = Some v ∧ (lo ≤ v ≤ hi)%Z.

Lemma number_in_range lo hi lo' hi' x :
  number lo hi x → (lo' ≤ lo)%Z → (hi ≤ hi')%Z → in_range lo' hi' x.
Proof. intros (v & Hv & Hr & _) ??. exists v. split; [done | lia]. Qed.

(** A text and the match [finditer] finds in it, for the examples. *)
Definition sample_text : text := str "foo 10.0.0.1:8080 bar".
Definition sample_match : Match :=
  {| m_start := 3; m_end := 18; start1 := 4;
     group1 := str "10.0.0.1:8080"; group2 := str "10.0.0.1" |}.

(** C2, as stated, fails: in the text of eight octets the pattern
    matches the last four, after a dot, inside the numeric run. *)
Lemma C2_eight_octets :
  extract (str "1.2.3.4.5.6.7.8:80") = [(str "5.6.7.8:80", str "5.6.7.8")] ∧
  ¬ bounded_both_sides (str "1.2.3.4.5.6.7.8:80").
Proof.
  split; [vm_compute; reflexivity|]. intros H.
  destruct (H {| m_start := 7; m_end := 18; start1 := 8;
                 group1 := str "5.6.7.8:80"; group2 := str "5.6.7.8" |})
    as [Hb _]; [vm_compute; apply list_elem_of_here|].
  vm_compute in Hb. discriminate Hb.
Qed.

(** C2, amended: every match of the Pattern Extractor lies in the text
    at its start index and is followed by the end of the text or by a
    character that is not a digit (a dot will do); nothing is asked of
    the character before it. *)
Theorem C2_right_boundary (s : text) (m : Match) :
  m ∈ finditer s →
  take (length (group1 m)) (drop (start1 m) s) = group1 m ∧
  (char_after s m = None ∨ ∃ c, char_after s m = Some c ∧ isdecimal c = false).
Proof.
  intros [Hat Hafter]%finditer_located. split; [exact Hat|].
  destruct (char_after s m) as [c|]; [right; by exists c | by left].
Qed.

(** The theorem at the match of [sample_text]. *)
Lemma C2_right_boundary_witness :
  take (length (group1 sample_match)) (drop (start1 sample_match) sample_text)
  = group1 sample_match ∧
  (char_after sample_text sample_match = None ∨
   ∃ c, char_after sample_text sample_match = Some c ∧ isdecimal c = false).
Proof.
  apply (C2_right_boundary sample_text sample_match).
  vm_compute. apply list_elem_of_here.
Defined.

(** C3, as stated, fails: of a leading octet 256 the pattern matches the
    digits 56, so a match takes characters of the octet. *)
Lemma C3_leading_256 :
  extract (str "256.1.1.1:80") = [(str "56.1.1.1:80", str "56.1.1.1")] ∧
  ¬ untouched (str "256.1.1.1:80") 0 3.
Proof.
  split; [vm_compute; reflexivity|]. intros H.
  specialize (H {| m_start := 1; m_end := 12; start1 := 1;
                   group1 := str "56.1.1.1:80"; group2 := str "56.1.1.1" |}).
  assert (true = false) as Habs; [|discriminate Habs].
  apply H. vm_compute. apply list_elem_of_here.
Qed.

(** C3, amended: for all input text the Pattern Extractor returns only
    pairs (socket address, ip) in which ip is four octets in [0,255]
    joined by dots and the socket address is ip, a colon and a port in
    [0,65535]; the port is a whole digit run of the text, as no digit
    follows the match.  (The second to fourth octets lie between
    separators of the match; only the first octet can be the end of a
    longer run.) *)
Theorem C3_octets_and_port_in_range (s : text) (m : Match) :
  m ∈ finditer s →
  ∃ o1 o2 o3 o4 p,
    group2 m = join dot [o1; o2; o3; o4] ∧
    group1 m = group2 m ++ colon ++ p ∧
    in_range 0 255 o1 ∧ in_range 0 255 o2 ∧ in_range 0 255 o3 ∧
    in_range 0 255 o4 ∧ in_range 0 65535 p ∧
    match char_after s m with Some c => isdecimal c = false | None => True end.
Proof.
  intros Hm. destruct (finditer_located s m Hm) as [_ Hafter].
  apply finditer_anatomy in Hm as (before & lead & tail & _ & _ & Han).
  apply anatomy_groups in Han
    as (o1 & o2 & o3 & o4 & p & _ & Hg2 & Hg1 & H1 & H2 & H3 & H4 & Hp).
  exists o1, o2, o3, o4, p.
  repeat split; try done; eapply number_in_range; eauto; lia.
Qed.

(** The theorem at the match of [sample_text]. *)
Lemma C3_octets_and_port_in_range_witness :
  ∃ o1 o2 o3 o4 p,
    group2 sample_match = join dot [o1; o2; o3; o4] ∧
    group1 sample_match = group2 sample_match ++ colon ++ p ∧
    in_range 0 255 o1 ∧ in_range 0 255 o2 ∧ in_range 0 255 o3 ∧
    in_range 0 255 o4 ∧ in_range 0 65535 p ∧
    match char_after sample_text sample_match with
    | Some c => isdecimal c = false
    | None => True
    end.
Proof.
  apply (C3_octets_and_port_in_range sample_text sample_match).
  vm_compute. apply list_elem_of_here.
Defined.

(** C10: for every input text, every candidate the Pattern Extractor
    yields has a first octet of at least 1, and none of its five digit
    groups (the groups [alphabet_sorting_key] cuts the address into)
    starts with a zero followed by further digits. *)
Theorem C10_no_leading_zero (s : text) (m : Match) :
  m ∈ finditer s →
  ∃ o1 o2 o3 o4 p,
    split (ch ".") (replace (ch ":") (ch ".") (group1 m)) = [o1; o2; o3; o4; p] ∧
    (∃ v, int o1 = Some v ∧ (1 ≤ v)%Z) ∧
    Forall (λ g, g ≠ [] ∧ leading_zero g = false) [o1; o2; o3; o4; p].
Proof.
  intros (before & lead & tail & _ & _ & Han)%finditer_anatomy.
  apply anatomy_groups in Han
    as (o1 & o2 & o3 & o4 & p & Hs & _ & _ & H1 & H2 & H3 & H4 & Hp).
  exists o1, o2, o3, o4, p. split; [exact Hs|]. split.
  - destruct H1 as (v & Hv & Hr & _). exists v. split; [done | lia].
  - repeat constructor;
      match goal with
      | H : number _ _ ?x |- ?x ≠ [] => by destruct (number_digits _ _ _ H)
      | H : number _ _ ?x |- leading_zero ?x = false => by destruct H as (? & _ & _ & ?)
      end.
Qed.

(** The theorem at the match of [sample_text]. *)
Lemma C10_no_leading_zero_witness :
  ∃ o1 o2 o3 o4 p,
    split (ch ".") (replace (ch ":") (ch ".") (group1 sample_match))
    = [o1; o2; o3; o4; p] ∧
    (∃ v, int o1 = Some v ∧ (1 ≤ v)%Z) ∧
    Forall (λ g, g ≠ [] ∧ leading_zero g = false) [o1; o2; o3; o4; p].
Proof.
  apply (C10_no_leading_zero sample_text sample_match).
  vm_compute. apply list_elem_of_here.
Defined.

(** ** [sorted] *)

Section SortedFacts.
Context {A K : Type} (lt : K → K → bool).
Hypothesis lt_asym : ∀ a b, lt a b = true → lt b a = false.
Hypothesis lt_negtrans : ∀ a b c, lt b a = false → lt c b = false → lt c a = false.

(** [x] may stand before [y]: the key of [y] is not less. *)
Definition not_after (x y : K * A) : Prop := lt y.1 x.1 = false.

Lemma insert_by_perm (x : K * A) l : insert_by lt x l ≡ₚ x :: l.
Proof.
  induction l as [|y l IH]; [done|]. cbn [insert_by].
  destruct (lt y.1 x.1); [|done]. rewrite IH. apply perm_swap.
Qed.

Lemma insert_by_sorted (x : K * A) l :
  StronglySorted not_after l → StronglySorted not_after (insert_by lt x l).
Proof.
  induction l as [|y l IH]; intros Hl; cbn [insert_by].
  - repeat constructor.
  - apply StronglySorted_cons in Hl as [Hy Hl].
    destruct (lt y.1 x.1) eqn:E; apply StronglySorted_cons.
    + split; [|by apply IH]. rewrite insert_by_perm.
      constructor; [|done]. by apply lt_asym.
    + split; [|by apply StronglySorted_cons]. constructor; [done|].
      eapply Forall_impl; [exact Hy|]. intros z Hz. unfold not_after in *.
      by eapply lt_negtrans.
Qed.

Lemma sort_keyed_perm (l : list (K * A)) : sort_keyed lt l ≡ₚ l.
Proof.
  induction l as [|x l IH]; [done|]. cbn [sort_keyed foldr].
  rewrite insert_by_perm. by constructor.
Qed.

Lemma sort_keyed_sorted (l : list (K * A)) : StronglySorted not_after (sort_keyed lt l).
Proof.
  induction l as [|x l IH]; [constructor|]. by apply insert_by_sorted.
Qed.

Lemma StronglySorted_lookup (l : list (K * A)) i j x y :
  StronglySorted not_after l → (i < j)%nat →
  l !! i = Some x → l !! j = Some y → not_after x y.
Proof.
  intros Hl. revert i j. induction Hl as [|z l Hl IH Hz]; intros i j Hij Hi Hj.
  - by rewrite lookup_nil in Hi.
  - destruct j as [|j]; [lia|]. destruct i as [|i].
    + injection Hi as ->. cbn in Hj. rewrite Forall_forall in Hz.
      apply Hz. by eapply list_elem_of_lookup_2.
    + cbn in Hi, Hj. eapply IH; [|done..]. lia.
Qed.

(** [sorted] returns when every key is there, and then the result is
    the list rearranged so that no element stands before one of
    smaller key. *)
Lemma sorted_spec (key : A → option K) (l : list A) :
  Forall (λ a, is_Some (key a)) l →
  ∃ out, sorted lt key l = Some out ∧ out ≡ₚ l ∧
    ∀ i j a b ka kb, (i < j)%nat → out !! i = Some a → out !! j = Some b →
      key a = Some ka → key b = Some kb → lt kb ka = false.
Proof.
  intros Hkeys. unfold sorted.
  assert (∃ keyed, mapM (λ a, k ← key a; Some (k, a)) l = Some keyed ∧
            keyed.*2 = l ∧ Forall (λ ka, key ka.2 = Some ka.1) keyed)
    as (keyed & -> & <- & Hk).
  { induction Hkeys as [|a l [k Hk] _ (keyed & IH & Hl & Hf)].
    - by exists [].
    - exists ((k, a) :: keyed). cbn [mapM]. rewrite Hk, IH. cbn.
      split; [done|]. split; [by rewrite Hl | by constructor]. }
  cbn. eexists. split; [done|]. split; [by rewrite sort_keyed_perm|].
  intros i j a b ka kb Hij Hi Hj Ha Hb.
  apply list_lookup_fmap_Some in Hi as ([ka' a'] & -> & Hi).
  apply list_lookup_fmap_Some in Hj as ([kb' b'] & -> & Hj).
  assert (Forall (λ ka, key ka.2 = Some ka.1) (sort_keyed lt keyed)) as Hk'
    by by rewrite sort_keyed_perm.
  rewrite Forall_forall in Hk'.
  pose proof (Hk' _ (list_elem_of_lookup_2 _ _ _ Hi)) as Ea.
  pose proof (Hk' _ (list_elem_of_lookup_2 _ _ _ Hj)) as Eb.
  cbn in *. rewrite Ha in Ea. rewrite Hb in Eb.
  injection Ea as ->. injection Eb as ->.
  exact (StronglySorted_lookup _ _ _ _ _ (sort_keyed_sorted keyed) Hij Hi Hj).
Qed.
End SortedFacts.

(** [<] on tuples of integers is a strict weak order. *)
Lemma tuple_lt_asym a b : tuple_lt a b = true → tuple_lt b a = false.
Proof.
  revert b. induction a as [|x a IH]; intros [|y b]; cbn; try done.
  destruct (Z.eqb_spec x y) as [->|Hne].
  - rewrite Z.eqb_refl. apply IH.
  - destruct (Z.eqb_spec y x) as [->|_]; [done|].
    intros ?%Z.ltb_lt. apply Z.ltb_ge. lia.
Qed.

Lemma tuple_lt_negtrans a b c :
  tuple_lt b a = false → tuple_lt c b = false → tuple_lt c a = false.
Proof.
  revert b c. induction a as [|x a IH]; intros [|y b] [|z c]; cbn; try done.
  destruct (Z.eqb_spec y x), (Z.eqb_spec z y), (Z.eqb_spec z x);
    intros H1 H2; try apply Z.ltb_ge in H1; try apply Z.ltb_ge in H2;
    try (exfalso; lia); try (apply Z.ltb_ge; lia); eauto.
Qed.

(** Every candidate of the extractor has its key: sorting by address
    never raises on what [fetch_source] stored. *)
Lemma extracted_key s m :
  m ∈ finditer s →
  is_Some (alphabet_sorting_key (Proxy_init (group1 m) (group2 m))).
Proof.
  intros (before & lead & tail & _ & _ & Han)%finditer_anatomy.
  destruct (anatomy_key _ _ _ _ (Proxy_init (group1 m) (group2 m)) Han eq_refl)
    as (v1 & v2 & v3 & v4 & vp & E).
  by eexists.
Qed.

(** ** Proxy identity and sets of proxies (spec 3) *)

Lemma existsb_pointwise {A} (f g : A → bool) l :
  (∀ y, f y = g y) → existsb f l = existsb g l.
Proof. intros E. induction l as [|y l IH]; [done|]. cbn. by rewrite E, IH. Qed.

Lemma found_same_address hash (p q y : Proxy) :
  socket_address p = socket_address q → found hash p y = found hash q y.
Proof. intros E. unfold found, Proxy_hash, Proxy_eq. by rewrite E. Qed.

Lemma found_self hash (p q : Proxy) :
  socket_address p = socket_address q → found hash q p = true.
Proof.
  intros E. unfold found, Proxy_hash, Proxy_eq. rewrite E, Z.eqb_refl.
  by rewrite bool_decide_eq_true_2.
Qed.

Lemma found_address hash (p y : Proxy) :
  found hash p y = true → socket_address y = socket_address p.
Proof.
  unfold found, Proxy_eq. intros [_ H]%andb_true_iff.
  by apply bool_decide_eq_true_1 in H.
Qed.

(** A set never holds two proxies of one address. *)
Lemma set_add_NoDup hash (x : Proxy) (s : list Proxy) :
  NoDup (socket_address <$> s) → NoDup (socket_address <$> set_add hash x s).
Proof.
  intros Hs. unfold set_add. destruct (existsb (found hash x) s) eqn:E; [done|].
  rewrite fmap_app. apply NoDup_app. split; [done|]. split; [|apply NoDup_singleton].
  intros a (y & -> & Hy)%list_elem_of_fmap [= Ea]%list_elem_of_singleton.
  assert (existsb (found hash x) s = true) as E'; [|congruence].
  apply existsb_exists. exists y. split; [by apply list_elem_of_In|].
  by apply found_self.
Qed.

(** C6: two Proxy values are equal iff their socket addresses match,
    equal addresses give equal hashes, and after one of two proxies of
    the same address is in a set, adding the other changes nothing: put
    into an empty set, the two make a set of one element, whatever their
    other fields and the order of arrival. *)
Theorem C6_same_address_one_element (hash : text * text → Z) (p q : Proxy) :
  (Proxy_eq p (AProxy q) = Some true ↔ socket_address p = socket_address q) ∧
  (socket_address p = socket_address q →
     Proxy_hash hash p = Proxy_hash hash q ∧
     length (set_add hash q (set_add hash p [])) = 1%nat ∧
     length (set_add hash p (set_add hash q [])) = 1%nat ∧
     ∀ s, set_add hash q (set_add hash p s) = set_add hash p s).
Proof.
  split.
  - unfold Proxy_eq. split.
    + intros [= H]. by apply bool_decide_eq_true_1 in H.
    + intros E. by rewrite bool_decide_eq_true_2.
  - intros E.
    assert (∀ a b s, socket_address a = socket_address b →
              set_add hash b (set_add hash a s) = set_add hash a s) as Hadd.
    { intros a b s Eab. unfold set_add at 2 3.
      destruct (existsb (found hash a) s) eqn:Ex; unfold set_add.
      - replace (existsb (found hash b) s) with true; [done|].
        rewrite <- Ex. apply existsb_pointwise. intros y.
        symmetry. by apply found_same_address.
      - rewrite existsb_app. cbn [existsb].
        rewrite (found_self hash a b Eab). cbn [orb]. by rewrite orb_true_r. }
    split; [unfold Proxy_hash; by rewrite E|].
    split; [by rewrite Hadd|]. split; [by rewrite Hadd|]. intros s. by apply Hadd.
Qed.

(** Two proxies of one address found in different texts, the second
    already checked. *)
Definition first_seen : Proxy := Proxy_init (str "10.0.0.1:8080") (str "10.0.0.1").
Definition seen_again : Proxy :=
  update (set_timeout 0.25%float first_seen) {[ str "query" := VStr (str "1.2.3.4") ]}.

(** The theorem at [first_seen] and [seen_again], with a constant hash. *)
Lemma C6_same_address_one_element_witness :
  Proxy_hash (λ _, 7%Z) first_seen = Proxy_hash (λ _, 7%Z) seen_again ∧
  length (set_add (λ _, 7%Z) seen_again (set_add (λ _, 7%Z) first_seen [])) = 1%nat ∧
  length (set_add (λ _, 7%Z) first_seen (set_add (λ _, 7%Z) seen_again [])) = 1%nat ∧
  ∀ s, set_add (λ _, 7%Z) seen_again (set_add (λ _, 7%Z) first_seen s)
       = set_add (λ _, 7%Z) first_seen s.
Proof.
  apply (C6_same_address_one_element (λ _, 7%Z) first_seen seen_again).
  reflexivity.
Defined.

(** ** Sorting by address (spec 4.4) *)

(** The address of [p] is four octets and a port written in digits,
    which [int] reads as the five numbers [v], in that order. *)
Definition reads_as (p : Proxy) (v : list Z) : Prop :=
  ∃ o1 o2 o3 o4 o5 v1 v2 v3 v4 v5,
    socket_address p
    = o1 ++ dot ++ o2 ++ dot ++ o3 ++ dot ++ o4 ++ colon ++ o5 ∧
    int o1 = Some v1 ∧ int o2 = Some v2 ∧ int o3 = Some v3 ∧
    int o4 = Some v4 ∧ int o5 = Some v5 ∧ v = [v1; v2; v3; v4; v5].

(** [a] is not after [b] when the numbers are compared one by one from
    the left: the first octet decides, the next one when the first are
    equal, the port last. *)
Fixpoint numerically_le (a b : list Z) : Prop :=
  match a, b with
  | [], _ => True
  | _ :: _, [] => False
  | x :: a', y :: b' => (x < y)%Z ∨ x = y ∧ numerically_le a' b'
  end.

(** No element of [out] stands before one whose octets and port, read
    as numbers, are smaller. *)
Definition ascending_addresses (out : list Proxy) : Prop :=
  ∀ i j a b va vb, (i < j)%nat → out !! i = Some a → out !! j = Some b →
    reads_as a va → reads_as b vb → numerically_le va vb.

Definition two_before_ten (out : list Proxy) : Prop :=
  ∀ i j a b, out !! i = Some a → out !! j = Some b →
    socket_address a = str "2.0.0.1:80" → socket_address b = str "10.0.0.1:80" →
    (i < j)%nat.

Lemma int_digits x v : int x = Some v → Forall (λ c, isdecimal c = true) x.
Proof. destruct x as [|c x]; [done|]. apply foldl_int_step_digits. Qed.

(** The key the code computes is the five numbers of the address. *)
Lemma reads_as_key p v : reads_as p v → alphabet_sorting_key p = Some v.
Proof.
  intros (o1 & o2 & o3 & o4 & o5 & v1 & v2 & v3 & v4 & v5 & Ha &
          E1 & E2 & E3 & E4 & E5 & ->).
  pose proof (int_digits _ _ E1) as D1. pose proof (int_digits _ _ E2) as D2.
  pose proof (int_digits _ _ E3) as D3. pose proof (int_digits _ _ E4) as D4.
  pose proof (int_digits _ _ E5) as D5.
  unfold alphabet_sorting_key. rewrite Ha, !replace_app.
  change (replace (ch ":") (ch ".") colon) with [ch "."].
  change (replace (ch ":") (ch ".") dot) with [ch "."].
  rewrite !replace_digits by done. cbn [app].
  rewrite !split_digits_app, split_digits by done.
  cbn [mapM]. rewrite E1, E2, E3, E4, E5. reflexivity.
Qed.

Lemma tuple_lt_numerically a b :
  length a = length b → tuple_lt b a = false → numerically_le a b.
Proof.
  revert b. induction a as [|x a IH]; intros [|y b]; cbn; try done.
  intros [= Hlen]. destruct (Z.eqb_spec y x) as [->|Hne].
  - intros H. right. split; [done | by apply IH].
  - intros H%Z.ltb_ge. left. lia.
Qed.

Lemma ascending_two_before_ten out :
  ascending_addresses out → two_before_ten out.
Proof.
  intros Hout i j a b Hi Hj Ha Hb.
  assert (reads_as a [2; 0; 0; 1; 80]%Z) as Ra.
  { exists (str "2"), (str "0"), (str "0"), (str "1"), (str "80").
    exists 2%Z, 0%Z, 0%Z, 1%Z, 80%Z. by rewrite Ha. }
  assert (reads_as b [10; 0; 0; 1; 80]%Z) as Rb.
  { exists (str "10"), (str "0"), (str "0"), (str "1"), (str "80").
    exists 10%Z, 0%Z, 0%Z, 1%Z, 80%Z. by rewrite Hb. }
  destruct (Nat.lt_trichotomy i j) as [?|[->|Hji]]; [done| |].
  - rewrite Hi in Hj. injection Hj as ->. rewrite Ha in Hb. discriminate Hb.
  - specialize (Hout j i b a _ _ Hji Hj Hi Rb Ra). cbn in Hout. lia.
Qed.

Lemma sorted_proxies_by_address s :
  sort_by_speed s = false →
  sorted_proxies s
  = mapM (λ pp : proto * list Proxy,
            l ← sorted tuple_lt alphabet_sorting_key pp.2; Some (pp.1, l))
         (proxies s).
Proof. intros H. unfold sorted_proxies. by rewrite H. Qed.

(** C7: with [sort_by_speed] off and every address made of four octets
    and a port in digits, [sorted_proxies] returns each protocol's
    proxies rearranged so that none stands before one whose numbers are
    smaller, where the numbers of two addresses are compared as
    integers, the first octets first, then the second, the third and
    the fourth, then the ports.  So a proxy of address 2.0.0.1:80 stands
    before one of address 10.0.0.1:80, wherever the two were. *)
Theorem C7_numeric_address_order (s : ProxyScraperChecker) :
  sort_by_speed s = false →
  Forall (λ pp, Forall (λ p, ∃ v, reads_as p v) pp.2) (proxies s) →
  ∃ res, sorted_proxies s = Some res ∧
    Forall2 (λ pp po, po.1 = pp.1 ∧ po.2 ≡ₚ pp.2 ∧
                      ascending_addresses po.2 ∧ two_before_ten po.2)
            (proxies s) res.
Proof.
  intros Hmode Hkeys. rewrite (sorted_proxies_by_address s Hmode).
  induction Hkeys as [|[proto l] rest Hl _ (res & IH & Hres)].
  - exists []. split; [done | constructor].
  - cbn [snd] in Hl.
    assert (Forall (λ p, is_Some (alphabet_sorting_key p)) l) as Hl'.
    { eapply Forall_impl; [exact Hl|]. intros p [v Hv].
      exists v. by apply reads_as_key. }
    destruct (sorted_spec tuple_lt tuple_lt_asym tuple_lt_negtrans
                alphabet_sorting_key l Hl') as (out & Hout & Hperm & Hord).
    assert (ascending_addresses out) as Hasc.
    { intros i j a b va vb Hij Hi Hj Ra Rb.
      apply tuple_lt_numerically.
      - destruct Ra as (? & ? & ? & ? & ? & ? & ? & ? & ? & ? & Ra).
        destruct Rb as (? & ? & ? & ? & ? & ? & ? & ? & ? & ? & Rb).
        destruct Ra as (_ & _ & _ & _ & _ & _ & ->).
        by destruct Rb as (_ & _ & _ & _ & _ & _ & ->).
      - eapply (Hord i j a b); eauto using reads_as_key. }
    exists ((proto, out) :: res). cbn [mapM fst snd]. rewrite Hout, IH.
    split; [done|]. constructor; [|done]. cbn [fst snd].
    split; [done|]. split; [done|].
    split; [exact Hasc | by apply ascending_two_before_ten].
Qed.

(** A checker with the two addresses of the specification in its http
    set, the larger octet first. *)
Definition two_and_ten : ProxyScraperChecker :=
  {| all_folders := []; enabled_folders := []; save_path := Path_of [];
     proxies_count := [(http, 2%nat)];
     proxies := [(http, [Proxy_init (str "10.0.0.1:80") (str "10.0.0.1");
                         Proxy_init (str "2.0.0.1:80") (str "2.0.0.1")])];
     sort_by_speed := false; sources := []; request_timeout := 10%float;
     sem := 900 |}.

Example sorted_two_and_ten :
  (λ pp : proto * list Proxy, (pp.1, socket_address <$> pp.2))
    <$> default [] (sorted_proxies two_and_ten)
  = [(http, [str "2.0.0.1:80"; str "10.0.0.1:80"])].
Proof. vm_compute. reflexivity. Qed.

(** The proxy whose address is written with the given octets and port. *)
Definition at_address (o1 o2 o3 o4 o5 : text) : Proxy :=
  Proxy_init (o1 ++ dot ++ o2 ++ dot ++ o3 ++ dot ++ o4 ++ colon ++ o5)
             (o1 ++ dot ++ o2 ++ dot ++ o3 ++ dot ++ o4).

(** A checker whose http set holds addresses that differ in the first
    octet, in a later octet only, and in the port only, none in its
    place. *)
Definition mixed_addresses : ProxyScraperChecker :=
  {| all_folders := []; enabled_folders := []; save_path := Path_of [];
     proxies_count := [(http, 6%nat)];
     proxies :=
       [(http, [at_address (str "10") (str "0") (str "0") (str "1") (str "80");
                at_address (str "2") (str "0") (str "0") (str "1") (str "80");
                at_address (str "1") (str "9") (str "9") (str "9") (str "9");
                at_address (str "1") (str "0") (str "10") (str "0") (str "1");
                at_address (str "1") (str "0") (str "9") (str "0") (str "10");
                at_address (str "1") (str "0") (str "9") (str "0") (str "9")])];
     sort_by_speed := false; sources := []; request_timeout := 10%float;
     sem := 900 |}.

Example sorted_mixed_addresses :
  (λ pp : proto * list Proxy, (pp.1, socket_address <$> pp.2))
    <$> default [] (sorted_proxies mixed_addresses)
  = [(http, [str "1.0.9.0:9"; str "1.0.9.0:10"; str "1.0.10.0:1";
             str "1.9.9.9:9"; str "2.0.0.1:80"; str "10.0.0.1:80"])].
Proof. vm_compute. reflexivity. Qed.

(** The theorem at [mixed_addresses]. *)
Lemma C7_numeric_address_order_witness :
  ∃ res, sorted_proxies mixed_addresses = Some res ∧
    Forall2 (λ pp po, po.1 = pp.1 ∧ po.2 ≡ₚ pp.2 ∧
                      ascending_addresses po.2 ∧ two_before_ten po.2)
            (proxies mixed_addresses) res.
Proof.
  apply (C7_numeric_address_order mixed_addresses).
  - reflexivity.
  - repeat constructor; cbn [snd].
    + exists [10; 0; 0; 1; 80]%Z. by do 10 eexists.
    + exists [2; 0; 0; 1; 80]%Z. by do 10 eexists.
    + exists [1; 9; 9; 9; 9]%Z. by do 10 eexists.
    + exists [1; 0; 10; 0; 1]%Z. by do 10 eexists.
    + exists [1; 0; 9; 0; 10]%Z. by do 10 eexists.
    + exists [1; 0; 9; 0; 9]%Z. by do 10 eexists.
Defined.

(** ** Construction (spec 7, configuration error) *)

Lemma Path_name_slash base name : Path_name (slash base name) = name.
Proof. unfold Path_name, slash. cbn. by rewrite last_snoc. Qed.

Lemma select_elem mapping folders enabled folder :
  select mapping folders = inr enabled →
  folder ∈ enabled ↔
  folder ∈ folders ∧ item mapping (Path_name (path folder)) = Some true.
Proof.
  revert enabled. induction folders as [|f folders IH]; intros enabled; cbn [select].
  - intros [= <-]. rewrite !elem_of_nil. tauto.
  - destruct (item mapping (Path_name (path f))) as [b|] eqn:E; [|done].
    destruct (select mapping folders) as [|l]; [done|].
    specialize (IH l eq_refl). intros [= <-]. rewrite elem_of_cons.
    destruct b; [rewrite elem_of_cons|]; rewrite IH; split.
    + intros [->|[? ?]]; auto.
    + intros [[->|?] ?]; auto.
    + intros [? ?]; auto.
    + intros [[->|?] ?]; [congruence | auto].
Qed.

Lemma init_folders cfg s :
  ProxyScraperChecker_init cfg = inr s →
  all_folders s
  = (λ kv, Folder_init (Path_of (Config.save_path cfg)) kv.1) <$> folders_mapping cfg ∧
  select (folders_mapping cfg) (all_folders s) = inr (enabled_folders s) ∧
  enabled_folders s ≠ [].
Proof.
  unfold ProxyScraperChecker_init.
  destruct (select _ _) as [e|[|f enabled]] eqn:E; [done..|].
  destruct (_ <? _)%Z; [done|]. intros [= <-].
  cbn [all_folders enabled_folders]. split; [done|]. split; [exact E | done].
Qed.

(** C8: when the four output categories are disabled, building the
    object raises [ValueError], so the program ends without a single
    event: no source is fetched, nothing is downloaded, no proxy is
    probed. *)
Theorem C8_all_disabled_fails (hash : text * text → Z) (w : World) (cfg : Config.t) :
  Config.proxies cfg = false →
  Config.proxies_anonymous cfg = false →
  Config.proxies_geolocation cfg = false →
  Config.proxies_geolocation_anonymous cfg = false →
  ProxyScraperChecker_init cfg
    = inl (ValueError (str "all folders are disabled in the config")) ∧
  run hash w cfg
    = (inl (Raised (ValueError (str "all folders are disabled in the config"))), []) ∧
  filter (λ e, on_network e = true) (run hash w cfg).2 = [].
Proof.
  intros H1 H2 H3 H4.
  assert (ProxyScraperChecker_init cfg
          = inl (ValueError (str "all folders are disabled in the config"))) as E.
  { unfold ProxyScraperChecker_init, folders_mapping.
    rewrite H1, H2, H3, H4. reflexivity. }
  unfold run. rewrite E. done.
Qed.

(** ** Reasoning about runs *)

Lemma run_bind {A B} (m : M A) (k : A → M B) st :
  (m ≫= k) st
  = match m st with
    | (inl e, st') => (inl e, st')
    | (inr a, st') => k a st'
    end.
Proof. reflexivity. Qed.

Lemma perform_quiet w e st :
  fault w e = None →
  perform w e st = (inr tt, {| self := self st; log := log st ++ [e] |}).
Proof. intros E. unfold perform. rewrite run_bind. cbn [emit]. by rewrite E. Qed.

(** A relation between the machine before and after that every step of
    a computation keeps. *)
Section Keeps.
Variable R : machine → machine → Prop.
Hypothesis R_refl : ∀ st, R st st.
Hypothesis R_trans : ∀ a b c, R a b → R b c → R a c.

Definition keeps {A} (m : M A) : Prop := ∀ st, R st (m st).2.

Lemma keeps_ret {A} (a : A) : keeps (mret a).
Proof. intros st. apply R_refl. Qed.

Lemma keeps_raise {A} e : keeps (@raise A e).
Proof. intros st. apply R_refl. Qed.

Lemma keeps_hang {A} : keeps (@hang A).
Proof. intros st. apply R_refl. Qed.

Lemma keeps_bind {A B} (m : M A) (k : A → M B) :
  keeps m → (∀ a, keeps (k a)) → keeps (m ≫= k).
Proof.
  intros Hm Hk st. rewrite run_bind. specialize (Hm st).
  destruct (m st) as [[e|a] st']; [done|]. eapply R_trans; [exact Hm | apply Hk].
Qed.

Lemma keeps_get {B} (k : ProxyScraperChecker → M B) :
  (∀ st, R st (k (self st) st).2) → keeps (get ≫= k).
Proof. intros Hk st. exact (Hk st). Qed.

Lemma keeps_for_each {A} (l : list A) (body : A → M unit) :
  (∀ x, keeps (body x)) → keeps (for_each l body).
Proof.
  intros Hb. induction l as [|x l IH]; cbn [for_each].
  - apply keeps_ret.
  - apply keeps_bind; [apply Hb | intros _; exact IH].
Qed.

Lemma keeps_try {A} (m : M A) handler :
  keeps m → (∀ e, keeps (handler e)) → keeps (try m handler).
Proof.
  intros Hm Hh st. unfold try. specialize (Hm st).
  destruct (m st) as [[[e|]|a] st']; [|done..].
  eapply R_trans; [exact Hm | apply Hh].
Qed.
End Keeps.

(** *** Dictionaries *)

Lemma item_replace {K V} `{EqDecision K} (d : list (K * V)) k v k' :
  item ((λ kv, if bool_decide (kv.1 = k) then (k, v) else kv) <$> d) k'
  = if decide (k = k') then (λ _, v) <$> item d k else item d k'.
Proof.
  unfold item. induction d as [|[k0 v1] d IH]; cbn [fmap list_fmap find].
  - by destruct (decide (k = k')).
  - cbn [fst] in *.
    repeat (case_bool_decide; cbn [fst] in *); repeat case_decide;
      try congruence; cbn [fst option_fmap option_map fmap snd]; done.
Qed.

Lemma item_set_item {K V} `{EqDecision K} (d : list (K * V)) k v0 v k' :
  item d k = Some v0 →
  item (set_item d k v) k' = if decide (k = k') then Some v else item d k'.
Proof.
  intros Hk. unfold set_item. rewrite Hk, item_replace, Hk.
  by destruct (decide (k = k')).
Qed.

(** ** The check stage (spec 4.3) *)

(** Every proxy of [post] is a proxy of [pre], of the same protocol,
    address and ip, whatever became of its other fields. *)
Definition carried (pre post : list (proto * list Proxy)) : Prop :=
  ∀ proto l' q, item post proto = Some l' → q ∈ l' →
    ∃ l q0, item pre proto = Some l ∧ q0 ∈ l ∧
            socket_address q0 = socket_address q ∧ ip q0 = ip q.

Definition checked_down (st st' : machine) : Prop :=
  carried (proxies (self st)) (proxies (self st')).

Lemma carried_refl d : carried d d.
Proof. intros proto l q Hl Hq. by exists l, q. Qed.

Lemma carried_trans a b c : carried a b → carried b c → carried a c.
Proof.
  intros Hab Hbc proto l q Hl Hq.
  destruct (Hbc proto l q Hl Hq) as (l1 & q1 & Hl1 & Hq1 & Ea & Ei).
  destruct (Hab proto l1 q1 Hl1 Hq1) as (l0 & q0 & Hl0 & Hq0 & Ea0 & Ei0).
  exists l0, q0. repeat split; [done..|congruence|congruence].
Qed.

Lemma carried_set_item d proto l l' :
  item d proto = Some l →
  (∀ q, q ∈ l' → ∃ q0, q0 ∈ l ∧ socket_address q0 = socket_address q ∧ ip q0 = ip q) →
  carried d (set_item d proto l').
Proof.
  intros Hl Hsub proto' l1 q. rewrite (item_set_item _ _ _ _ _ Hl).
  destruct (decide (proto = proto')) as [<-|_].
  - intros [= <-] Hq. destruct (Hsub q Hq) as (q0 & ? & ? & ?). by exists l, q0.
  - intros Hl1 Hq. by exists l1, q.
Qed.

Lemma checked_down_emit e : keeps checked_down (emit e).
Proof. intros st. apply carried_refl. Qed.

Lemma checked_down_remove hash proto proxy :
  keeps checked_down (remove_proxy hash proto proxy).
Proof.
  intros st. unfold remove_proxy, proxies_of, set_proxies.
  rewrite !run_bind. cbn [get].
  destruct (item (proxies (self st)) proto) as [l|] eqn:E; [|apply carried_refl].
  cbn. unfold set_remove. destruct (existsb _ l); [|apply carried_refl].
  cbn. apply carried_set_item with l; [done|].
  intros q [_ Hq]%list_elem_of_filter. by exists q.
Qed.

Lemma checked_down_assign proto proxy f :
  (∀ y, socket_address (f y) = socket_address y ∧ ip (f y) = ip y) →
  keeps checked_down (assign proto proxy f).
Proof.
  intros Hf st. unfold assign, set_proxies. rewrite !run_bind. cbn [get].
  destruct (item (proxies (self st)) proto) as [l|] eqn:E; [|apply carried_refl].
  cbn. apply carried_set_item with l; [done|].
  intros q (y & -> & Hy)%list_elem_of_fmap. exists y. split; [done|].
  destruct (bool_decide _); [|done]. destruct (Hf y) as [-> ->]. done.
Qed.

Lemma checked_down_check_proxy hash w proxy proto :
  keeps checked_down (check_proxy hash w proxy proto).
Proof.
  pose proof carried_refl as Hr. pose proof carried_trans as Ht.
  assert (∀ st, checked_down st st) as Hr' by (intros ?; apply Hr).
  assert (∀ a b c, checked_down a b → checked_down b c → checked_down a c) as Ht'
    by (intros ???; apply Ht).
  unfold check_proxy.
  apply keeps_bind; [done | apply checked_down_emit | intros _].
  apply keeps_bind; [done | | intros _; apply checked_down_emit].
  destruct (reply _) as [e|r].
  - apply keeps_bind; [done | | intros _; apply checked_down_remove].
    destruct (too_many_open_files e);
      [apply checked_down_emit | by apply keeps_ret].
  - destruct (status r =? 200)%Z; [destruct (json r) as [e|data]|].
    + apply keeps_bind; [done | | intros _; apply checked_down_remove].
      destruct (too_many_open_files e);
        [apply checked_down_emit | by apply keeps_ret].
    + apply keeps_bind; [done | by apply checked_down_assign | intros _].
      destruct data as [data|[|]].
      * destruct (bool_decide _); [by apply keeps_ret|].
        by apply checked_down_assign.
      * by apply keeps_raise.
      * by apply keeps_ret.
    + apply keeps_bind; [done | by apply checked_down_assign | intros _].
      by apply keeps_ret.
Qed.

Lemma checked_down_check_all hash w :
  keeps checked_down (check_all_proxies hash w).
Proof.
  assert (∀ st, checked_down st st) as Hr by (intros ?; apply carried_refl).
  assert (∀ a b c, checked_down a b → checked_down b c → checked_down a c) as Ht
    by (intros ???; apply carried_trans).
  unfold check_all_proxies. apply keeps_get; [done..|]. intros st.
  apply keeps_bind; [done | | intros _].
  { apply keeps_for_each; [done..|]. intros x. apply checked_down_emit. }
  apply keeps_bind; [done | | intros _].
  { unfold perform. apply keeps_bind; [done | apply checked_down_emit | intros _].
    destruct (fault w Retrieve); [by apply keeps_raise | by apply keeps_ret]. }
  destruct (_ && _); [by apply keeps_hang|].
  apply keeps_for_each; [done..|]. intros c. apply checked_down_check_proxy.
Qed.

(** The request raised: no connection, a timeout, or an answer of status
    200 that [response.json()] cannot decode. *)
Definition raises (a : answer) : bool :=
  match reply a with
  | inl _ => true
  | inr r => (status r =? 200)%Z && (if json r is inl _ then true else false)
  end.

(** The check did not succeed in the sense of the specification: it
    raised, or the status is not 200. *)
Definition unsuccessful (a : answer) : bool :=
  raises a || (if reply a is inr r then negb (status r =? 200)%Z else false).

Definition absent (proto : proto) (address : text) (st : machine) : Prop :=
  ∀ l q, item (proxies (self st)) proto = Some l → q ∈ l →
         socket_address q ≠ address.

Lemma absent_checked_down proto address st st' :
  checked_down st st' → absent proto address st → absent proto address st'.
Proof.
  intros Hc Ha l q Hl Hq. destruct (Hc proto l q Hl Hq) as (l0 & q0 & Hl0 & Hq0 & E & _).
  rewrite <- E. by eapply Ha.
Qed.

(** Unfolds the plumbing of [M] in the goal. *)
Ltac run_M :=
  cbv beta iota zeta delta
    [mbind mret M_bind M_ret get put emit raise hang set_proxies proxies_of];
  cbn [self log fst snd].

Lemma remove_proxy_done hash proto proxy st :
  (remove_proxy hash proto proxy st).1 = inr tt →
  ∃ l, item (proxies (self st)) proto = Some l ∧
       item (proxies (self (remove_proxy hash proto proxy st).2)) proto
       = Some (filter (λ y, found hash proxy y = false) l).
Proof.
  unfold remove_proxy. run_M.
  destruct (item (proxies (self st)) proto) as [l|] eqn:Hl; [|done].
  unfold set_remove. destruct (existsb (found hash proxy) l); [|done].
  run_M. cbn [proxies]. intros _. exists l. split; [done|].
  rewrite (item_set_item _ _ _ _ _ Hl). by rewrite decide_True.
Qed.

Lemma remove_proxy_run hash proto proxy st l :
  item (proxies (self st)) proto = Some l → proxy ∈ l →
  (remove_proxy hash proto proxy st).1 = inr tt.
Proof.
  intros Hl Hp. unfold remove_proxy. run_M. rewrite Hl. unfold set_remove.
  assert (existsb (found hash proxy) l = true) as ->; [|done].
  apply existsb_exists. exists proxy. split; [by apply list_elem_of_In|].
  by apply found_self.
Qed.

Lemma bind_ok {A B} (m : M A) (k : A → M B) st a st' :
  m st = (inr a, st') → (m ≫= k) st = k a st'.
Proof. intros E. rewrite run_bind. by rewrite E. Qed.

(** The advisory of [check_proxy] changes the log only. *)
Lemma advisory_run (b : bool) msg st :
  ∃ st', (if b then emit (Print msg) else mret ()) st = (inr tt, st') ∧
         self st' = self st.
Proof. destruct b; eexists; split; reflexivity. Qed.

(** A check that raises is the removal, then the progress event. *)
Lemma check_proxy_raises_run hash w proxy proto st :
  raises (probe w proto (socket_address proxy)) = true →
  ∃ st2, self st2 = self st ∧
    check_proxy hash w proxy proto st
    = (remove_proxy hash proto proxy ≫= λ _, emit (Advance Checking proto)) st2.
Proof.
  intros Hr. unfold check_proxy, raises in *.
  set (a := probe w proto (socket_address proxy)) in *.
  assert (∃ e,
    match reply a with
    | inl e => inl e
    | inr response =>
        if (status response =? 200)%Z
        then match json response with
             | inl e => inl e
             | inr data => inr (Some data)
             end
        else inr None
    end = @inl exn (option payload) e) as [e ->].
  { destruct (reply a) as [e|r]; [by exists e|].
    destruct (status r =? 200)%Z; [|done]. destruct (json r) as [e|]; [by exists e|done]. }
  erewrite bind_ok; [|reflexivity].
  set (st1 := {| self := self st; log := _ |}).
  destruct (advisory_run (too_many_open_files e)
              (str "[red]Please, set MAX_CONNECTIONS to lower value.") st1)
    as (st2 & Hadv & E2).
  exists st2. split; [done|]. rewrite !run_bind, Hadv. reflexivity.
Qed.

Lemma removed_absent hash proto proxy l st :
  item (proxies (self st)) proto = Some (filter (λ y, found hash proxy y = false) l) →
  absent proto (socket_address proxy) st.
Proof.
  intros Hitem l' q. rewrite Hitem. intros [= <-].
  intros [Hf _]%list_elem_of_filter E. by rewrite (found_self hash q proxy E) in Hf.
Qed.

Lemma check_proxy_raises_done hash w proxy proto st :
  raises (probe w proto (socket_address proxy)) = true →
  (check_proxy hash w proxy proto st).1 = inr tt →
  absent proto (socket_address proxy) (check_proxy hash w proxy proto st).2.
Proof.
  intros (st2 & E2 & ->)%(check_proxy_raises_run hash w proxy proto st).
  rewrite run_bind.
  destruct (remove_proxy hash proto proxy st2) as [[e|[]] st3] eqn:Hrem; [done|].
  intros _. destruct (remove_proxy_done hash proto proxy st2) as (l & _ & Hitem);
    [by rewrite Hrem|].
  rewrite Hrem in Hitem. by eapply removed_absent.
Qed.

Lemma check_proxy_raises hash w proxy proto st l :
  item (proxies (self st)) proto = Some l → proxy ∈ l →
  raises (probe w proto (socket_address proxy)) = true →
  (check_proxy hash w proxy proto st).1 = inr tt.
Proof.
  intros Hl Hp (st2 & E2 & ->)%(check_proxy_raises_run hash w proxy proto st).
  rewrite run_bind.
  pose proof (remove_proxy_run hash proto proxy st2 l) as Hrun.
  rewrite E2 in Hrun. specialize (Hrun Hl Hp).
  by destruct (remove_proxy hash proto proxy st2) as [[e|[]] st3].
Qed.

Lemma for_each_emit {A} (l : list A) (f : A → event) st :
  ∃ st', for_each l (λ x, emit (f x)) st = (inr tt, st') ∧ self st' = self st.
Proof.
  revert st. induction l as [|x l IH]; intros st; cbn [for_each].
  - by exists st.
  - rewrite run_bind. cbn [emit].
    destruct (IH {| self := self st; log := log st ++ [f x] |}) as (st' & -> & E).
    by exists st'.
Qed.

Lemma item_elem {K V} `{EqDecision K} (d : list (K * V)) k v :
  item d k = Some v → (k, v) ∈ d.
Proof.
  unfold item. destruct (find _ d) as [[k0 v0]|] eqn:E; [|done].
  intros [= <-]. apply find_some in E as [Hin Hk].
  apply bool_decide_eq_true_1 in Hk. cbn in Hk. subst k0.
  by apply list_elem_of_In.
Qed.

Lemma coroutines_elem s proto l proxy :
  item (proxies s) proto = Some l → proxy ∈ l → (proxy, proto) ∈ coroutines s.
Proof.
  intros Hl%item_elem Hp. unfold coroutines.
  apply list_elem_of_bind. exists (proto, l). split; [|done].
  apply list_elem_of_bind. exists proxy. split; [|done].
  by apply list_elem_of_singleton.
Qed.

(** A check stage that returns has run every check. *)
Lemma check_all_done hash w st :
  (check_all_proxies hash w st).1 = inr tt →
  ∃ st1, self st1 = self st ∧
    check_all_proxies hash w st
    = for_each (order w _ (coroutines (self st)))
               (λ c, check_proxy hash w c.1 c.2) st1.
Proof.
  unfold check_all_proxies. rewrite (run_bind get). cbn [get].
  destruct (for_each_emit (proxies (self st))
              (λ pp, AddTask Checking pp.1 (length pp.2)) st) as (st0 & E0 & Es0).
  rewrite (bind_ok _ _ _ _ _ E0).
  unfold perform. rewrite !run_bind. cbn [emit].
  destruct (fault w Retrieve); [done|]. cbn [mret M_ret].
  destruct (_ && _); [done|]. intros _. eexists. split; [|reflexivity]. done.
Qed.

Lemma checks_done_absent hash w tasks st c :
  (for_each tasks (λ c, check_proxy hash w c.1 c.2) st).1 = inr tt →
  c ∈ tasks → raises (probe w c.2 (socket_address c.1)) = true →
  absent c.2 (socket_address c.1)
         (for_each tasks (λ c, check_proxy hash w c.1 c.2) st).2.
Proof.
  revert st. induction tasks as [|x tasks IH]; intros st Hdone Hc Hr.
  - by apply elem_of_nil in Hc.
  - cbn [for_each] in *. rewrite run_bind in *.
    destruct (check_proxy hash w x.1 x.2 st) as [[e|[]] st1] eqn:Hx; [done|].
    apply elem_of_cons in Hc as [->|Hc]; [|by apply IH].
    eapply absent_checked_down.
    + apply (keeps_for_each checked_down);
        [intros ?; apply carried_refl | intros ???; apply carried_trans |].
      intros c. apply checked_down_check_proxy.
    + pose proof (check_proxy_raises_done hash w x.1 x.2 st Hr) as Ha.
      rewrite Hx in Ha. by apply Ha.
Qed.

(** C9: for every protocol, each proxy in the set after
    [check_all_proxies] is a proxy of the set before it, with the same
    address and ip: the check stage removes elements or changes their
    other fields, and adds none.  This holds however the stage ends. *)
Theorem C9_check_only_removes (hash : text * text → Z) (w : World)
    (st : machine) (proto : proto) (l' : list Proxy) (q : Proxy) :
  item (proxies (self (check_all_proxies hash w st).2)) proto = Some l' →
  q ∈ l' →
  ∃ l q0, item (proxies (self st)) proto = Some l ∧ q0 ∈ l ∧
          socket_address q0 = socket_address q ∧ ip q0 = ip q.
Proof. apply (checked_down_check_all hash w st). Qed.

(** C1, amended: if the check of a candidate raises (no connection, a
    timeout, a response of status 200 that cannot be decoded), the
    candidate is removed from its protocol's set by that check and stays
    out through every later check, so it is absent from the set of a
    check stage that has returned.  (A status other than 200 raises
    nothing.) *)
Theorem C1_failed_check_removed (hash : text * text → Z) (w : World)
    (st : machine) (protocol : proto) (l : list Proxy) (proxy : Proxy) :
  item (proxies (self st)) protocol = Some l → proxy ∈ l →
  raises (probe w protocol (socket_address proxy)) = true →
  (check_proxy hash w proxy protocol st).1 = inr tt ∧
  (∀ later,
     absent protocol (socket_address proxy)
       (for_each later (λ c, check_proxy hash w c.1 c.2)
                 (check_proxy hash w proxy protocol st).2).2) ∧
  ((∀ tasks : list (Proxy * proto), order w _ tasks ≡ₚ tasks) →
   (check_all_proxies hash w st).1 = inr tt →
   absent protocol (socket_address proxy) (check_all_proxies hash w st).2).
Proof.
  intros Hl Hp Hr. split; [by eapply check_proxy_raises|]. split.
  - intros later. eapply absent_checked_down.
    + apply (keeps_for_each checked_down);
        [intros ?; apply carried_refl | intros ???; apply carried_trans |].
      intros c. apply checked_down_check_proxy.
    + apply check_proxy_raises_done; [done|]. by eapply check_proxy_raises.
  - intros Hperm Hdone.
    destruct (check_all_done hash w st Hdone) as (st1 & E1 & Hrun).
    rewrite Hrun in *.
    apply (checks_done_absent hash w _ st1 (proxy, protocol)); [done| |done].
    rewrite Hperm. by eapply coroutines_elem.
Qed.

(** ** A run of the program, for the examples

    One source lists three addresses.  Behind the first the lookup
    answers with a payload, behind the second with status 404, and the
    third never connects. *)

Definition demo_hash : text * text → Z := λ k, Z.of_N (foldr N.add 0 k.2).

Definition alive : Proxy := Proxy_init (str "10.0.0.1:8080") (str "10.0.0.1").
Definition refused : Proxy := Proxy_init (str "99.1.1.1:80") (str "99.1.1.1").
Definition unreachable : Proxy := Proxy_init (str "10.0.0.2:3128") (str "10.0.0.2").

Definition lookup_payload : gmap text value :=
  {[ str "query" := VStr (str "1.2.3.4"); str "country" := VStr (str "US") ]}.

Definition demo_probe (data : gmap text value) (address : text) : answer :=
  {| start := 1%float;
     reply :=
       if bool_decide (address = socket_address alive)
       then inr {| status := 200; json := inr (JObject data) |}
       else if bool_decide (address = socket_address refused)
       then inr {| status := 404; json := inl (OtherException (str "not JSON")) |}
       else inl (OtherException (str "timed out"));
     finish := 1.5%float |}.

Definition demo_world (data : gmap text value) : World :=
  {| fetch := λ _ _, Fetched 200
       (str "foo 10.0.0.1:8080 bar 999.1.1.1:80 baz 10.0.0.2:3128");
     probe := λ _, demo_probe data;
     fault := λ _, None;
     order := λ _ l, rev l |}.

Definition demo_cfg (others : bool) : Config.t :=
  {| Config.timeout := 10%float;
     Config.max_connections := 900;
     Config.sort_by_speed := false;
     Config.save_path := str "out";
     Config.proxies := others;
     Config.proxies_anonymous := others;
     Config.proxies_geolocation := others;
     Config.proxies_geolocation_anonymous := true;
     Config.http_sources := Some (str "http://lists.example/http.txt");
     Config.socks4_sources := None;
     Config.socks5_sources := None |}.

(** The machine once the sources are fetched. *)
Definition fetched_machine : machine :=
  {| self :=
       {| all_folders :=
            (λ kv, Folder_init (Path_of (str "out")) kv.1)
              <$> folders_mapping (demo_cfg false);
          enabled_folders :=
            [Folder_init (Path_of (str "out")) (str "proxies_geolocation_anonymous")];
          save_path := Path_of (str "out");
          proxies_count := [(http, 3%nat)];
          proxies := [(http, [alive; refused; unreachable])];
          sort_by_speed := false;
          sources := [(http, [str "http://lists.example/http.txt"])];
          request_timeout := 10%float;
          sem := 900 |};
     log := [] |}.

Example fetched_machine_reached :
  ∃ s st, ProxyScraperChecker_init (demo_cfg false) = inr s ∧
    fetch_all_sources demo_hash (demo_world lookup_payload) {| self := s; log := [] |}
    = (inr tt, st) ∧
    self st = self fetched_machine.
Proof. do 2 eexists. split; [|split]; vm_compute; reflexivity. Qed.

(** What the check stage leaves of the three candidates. *)
Example checked_machine :
  (check_all_proxies demo_hash (demo_world lookup_payload) fetched_machine).1 = inr tt ∧
  item (proxies (self (check_all_proxies demo_hash (demo_world lookup_payload)
                         fetched_machine).2)) http
  = Some [ {| socket_address := str "10.0.0.1:8080"; ip := str "10.0.0.1";
              is_anonymous := Some true; geolocation := str "|US|?|?";
              timeout := 0.5%float |};
           {| socket_address := str "99.1.1.1:80"; ip := str "99.1.1.1";
              is_anonymous := None; geolocation := str "|?|?|?";
              timeout := 0.5%float |} ].
Proof. split; vm_compute; reflexivity. Qed.

(** C1, as stated, fails: the candidate whose lookup came back with
    status 404 is still in its set when the check stage has returned. *)
Lemma C1_status_404_kept :
  unsuccessful (probe (demo_world lookup_payload) http (socket_address refused)) = true ∧
  (check_all_proxies demo_hash (demo_world lookup_payload) fetched_machine).1 = inr tt ∧
  ¬ absent http (socket_address refused)
      (check_all_proxies demo_hash (demo_world lookup_payload) fetched_machine).2.
Proof.
  split; [reflexivity|]. destruct checked_machine as [Hdone Hset].
  split; [exact Hdone|]. intros Habsent.
  eapply (Habsent _ _ Hset);
    [apply list_elem_of_further, list_elem_of_here | reflexivity].
Qed.

(** The theorem at the candidate that never connects. *)
Lemma C1_failed_check_removed_witness :
  (check_proxy demo_hash (demo_world lookup_payload) unreachable http fetched_machine).1
  = inr tt ∧
  (∀ later,
     absent http (socket_address unreachable)
       (for_each later (λ c, check_proxy demo_hash (demo_world lookup_payload) c.1 c.2)
          (check_proxy demo_hash (demo_world lookup_payload) unreachable http
             fetched_machine).2).2) ∧
  ((∀ tasks : list (Proxy * proto),
      order (demo_world lookup_payload) _ tasks ≡ₚ tasks) →
   (check_all_proxies demo_hash (demo_world lookup_payload) fetched_machine).1 = inr tt →
   absent http (socket_address unreachable)
     (check_all_proxies demo_hash (demo_world lookup_payload) fetched_machine).2).
Proof.
  apply (C1_failed_check_removed demo_hash (demo_world lookup_payload)
           fetched_machine http [alive; refused; unreachable] unreachable).
  - reflexivity.
  - apply list_elem_of_further, list_elem_of_further, list_elem_of_here.
  - vm_compute. reflexivity.
Defined.

(** The theorem at the candidate that stays after the check stage. *)
Lemma C9_check_only_removes_witness :
  ∃ l q0, item (proxies (self fetched_machine)) http = Some l ∧ q0 ∈ l ∧
    socket_address q0 = str "99.1.1.1:80" ∧ ip q0 = str "99.1.1.1".
Proof.
  apply (C9_check_only_removes demo_hash (demo_world lookup_payload) fetched_machine http
           [ {| socket_address := str "10.0.0.1:8080"; ip := str "10.0.0.1";
                is_anonymous := Some true; geolocation := str "|US|?|?";
                timeout := 0.5%float |};
             {| socket_address := str "99.1.1.1:80"; ip := str "99.1.1.1";
                is_anonymous := None; geolocation := str "|?|?|?";
                timeout := 0.5%float |} ]
           {| socket_address := str "99.1.1.1:80"; ip := str "99.1.1.1";
              is_anonymous := None; geolocation := str "|?|?|?";
              timeout := 0.5%float |}).
  - vm_compute. reflexivity.
  - apply list_elem_of_further, list_elem_of_here.
Defined.

Definition disabled_cfg : Config.t :=
  {| Config.timeout := 10%float;
     Config.max_connections := 900;
     Config.sort_by_speed := true;
     Config.save_path := str "out";
     Config.proxies := false;
     Config.proxies_anonymous := false;
     Config.proxies_geolocation := false;
     Config.proxies_geolocation_anonymous := false;
     Config.http_sources := Some (str "http://lists.example/http.txt");
     Config.socks4_sources := None;
     Config.socks5_sources := None |}.

(** The theorem at [disabled_cfg]. *)
Lemma C8_all_disabled_fails_witness :
  ProxyScraperChecker_init disabled_cfg
    = inl (ValueError (str "all folders are disabled in the config")) ∧
  run demo_hash (demo_world lookup_payload) disabled_cfg
    = (inl (Raised (ValueError (str "all folders are disabled in the config"))), []) ∧
  filter (λ e, on_network e = true)
         (run demo_hash (demo_world lookup_payload) disabled_cfg).2 = [].
Proof.
  apply (C8_all_disabled_fails demo_hash (demo_world lookup_payload) disabled_cfg);
    reflexivity.
Defined.


(** ** A check that succeeds (spec 4.3, step 4) *)

(** What the specification says of the proxy [after] a successful check
    that answered [data], [before] being the candidate: the timeout is
    the elapsed time, the geolocation comes from the country, region and
    city of the payload, and the proxy is anonymous exactly when the
    observed IP of the payload is not its own. *)
Definition annotated (a : answer) (data : gmap text value) (before after : Proxy) : Prop :=
  socket_address after = socket_address before ∧
  ip after = ip before ∧
  timeout after = (finish a - start a)%float ∧
  geolocation after
  = str "|" ++ or_else (data !! str "country") (str "?")
    ++ str "|" ++ or_else (data !! str "regionName") (str "?")
    ++ str "|" ++ or_else (data !! str "city") (str "?") ∧
  ∃ b, is_anonymous after = Some b ∧
       (b = true ↔ data !! str "query" ≠ Some (VStr (ip before))).

Lemma differs_spec s v : differs s v = true ↔ v ≠ Some (VStr s).
Proof.
  destruct v as [[q|t shown]|]; cbn; [|by split..].
  rewrite negb_true_iff, bool_decide_eq_false. split.
  - intros Hne [= ->]. by apply Hne.
  - intros Hne ->. by apply Hne.
Qed.

Lemma update_annotated a data proxy :
  annotated a data proxy (update (set_timeout (finish a - start a)%float proxy) data).
Proof.
  repeat split; try reflexivity.
  exists (differs (ip proxy) (data !! str "query")). split; [reflexivity|].
  apply differs_spec.
Qed.

Lemma assign_run proto proxy f st l :
  item (proxies (self st)) proto = Some l →
  ∃ st', assign proto proxy f st = (inr tt, st') ∧ log st' = log st ∧
    item (proxies (self st')) proto
    = Some ((λ y, if bool_decide (socket_address y = socket_address proxy)
                  then f y else y) <$> l).
Proof.
  intros Hl. unfold assign. run_M. rewrite Hl. run_M. cbn [proxies].
  eexists. split; [reflexivity|]. split; [reflexivity|]. cbn [self proxies].
  rewrite (item_set_item _ _ _ _ _ Hl). by rewrite decide_True.
Qed.

(** A check answered with status 200 and a non-empty object is the two
    assignments between the two events. *)
Lemma check_proxy_answered hash w proxy proto st l data :
  item (proxies (self st)) proto = Some l →
  reply (probe w proto (socket_address proxy))
  = inr {| status := 200; json := inr (JObject data) |} →
  data ≠ ∅ →
  (check_proxy hash w proxy proto st).1 = inr tt ∧
  item (proxies (self (check_proxy hash w proxy proto st).2)) proto
  = Some ((λ y, if bool_decide (socket_address y = socket_address proxy)
                then update y data else y)
          <$> ((λ y, if bool_decide (socket_address y = socket_address proxy)
                     then set_timeout (finish (probe w proto (socket_address proxy))
                                       - start (probe w proto (socket_address proxy)))%float y
                     else y) <$> l)).
Proof.
  intros Hl Hreply Hdata. unfold check_proxy. rewrite Hreply.
  cbn [status json Z.eqb Pos.eqb]. rewrite bool_decide_eq_false_2 by done.
  erewrite bind_ok; [|reflexivity].
  set (st1 := {| self := self st; log := _ |}).
  destruct (assign_run proto proxy
              (set_timeout (finish (probe w proto (socket_address proxy))
                            - start (probe w proto (socket_address proxy)))%float)
              st1 l Hl) as (st2 & E2 & _ & Hl2).
  destruct (assign_run proto proxy (λ p, update p data) st2 _ Hl2)
    as (st3 & E3 & _ & Hl3).
  erewrite (bind_ok (_ ≫= _)); [|erewrite (bind_ok _ _ st1); [exact E3 | exact E2]].
  cbn [emit fst snd self]. split; [done | exact Hl3].
Qed.

(** C4, amended: for every Proxy whose check is answered with status 200
    and a payload that decodes to a non-empty object, the check returns
    and leaves in the protocol's set the proxy with its timeout set to
    the elapsed time, its geolocation built from the payload's country,
    region and city ("?" for a missing or empty one), and is_anonymous
    true exactly when the payload's observed IP is not the proxy's own
    ip (false when they are equal). *)
Theorem C4_payload_annotates (hash : text * text → Z) (w : World)
    (st : machine) (protocol : proto) (l : list Proxy) (proxy : Proxy)
    (data : gmap text value) :
  item (proxies (self st)) protocol = Some l → proxy ∈ l →
  reply (probe w protocol (socket_address proxy))
  = inr {| status := 200; json := inr (JObject data) |} →
  data ≠ ∅ →
  (check_proxy hash w proxy protocol st).1 = inr tt ∧
  ∃ l' after,
    item (proxies (self (check_proxy hash w proxy protocol st).2)) protocol = Some l' ∧
    after ∈ l' ∧
    annotated (probe w protocol (socket_address proxy)) data proxy after.
Proof.
  intros Hl Hp Hreply Hdata.
  destruct (check_proxy_answered hash w proxy protocol st l data Hl Hreply Hdata)
    as [Hdone Hitem].
  split; [exact Hdone|]. eexists _, _. split; [exact Hitem|].
  split; [|apply update_annotated].
  apply list_elem_of_fmap. eexists. split; [|apply list_elem_of_fmap_2, Hp].
  rewrite !(bool_decide_eq_true_2 (socket_address proxy = socket_address proxy))
    by done.
  reflexivity.
Qed.

(** The theorem at the candidate that answers with [lookup_payload]. *)
Lemma C4_payload_annotates_witness :
  (check_proxy demo_hash (demo_world lookup_payload) alive http fetched_machine).1
  = inr tt ∧
  ∃ l' after,
    item (proxies (self (check_proxy demo_hash (demo_world lookup_payload) alive http
                           fetched_machine).2)) http = Some l' ∧
    after ∈ l' ∧
    annotated (probe (demo_world lookup_payload) http (socket_address alive))
              lookup_payload alive after.
Proof.
  apply (C4_payload_annotates demo_hash (demo_world lookup_payload) fetched_machine
           http [alive; refused; unreachable] alive lookup_payload).
  - reflexivity.
  - apply list_elem_of_here.
  - vm_compute. reflexivity.
  - intros Hempty.
    assert (lookup_payload !! str "query" = (∅ : gmap text value) !! str "query") as E
      by (by rewrite Hempty).
    vm_compute in E. discriminate E.
Defined.

(** The candidate of the specification: 10.0.0.1:8080 answered with
    query 1.2.3.4 and country US. *)
Example checked_alive :
  item (proxies (self (check_proxy demo_hash (demo_world lookup_payload) alive http
                         fetched_machine).2)) http
  = Some [ {| socket_address := str "10.0.0.1:8080"; ip := str "10.0.0.1";
              is_anonymous := Some true; geolocation := str "|US|?|?";
              timeout := 0.5%float |};
           refused; unreachable ].
Proof. vm_compute. reflexivity. Qed.

(** C4, as stated, fails: a payload that decodes to the empty object is
    skipped by [if data], so the check sets the timeout and leaves
    is_anonymous unknown. *)
Lemma C4_empty_payload :
  reply (probe (demo_world ∅) http (socket_address alive))
  = inr {| status := 200; json := inr (JObject ∅) |} ∧
  (check_proxy demo_hash (demo_world ∅) alive http fetched_machine).1 = inr tt ∧
  ¬ ∃ l' after,
      item (proxies (self (check_proxy demo_hash (demo_world ∅) alive http
                             fetched_machine).2)) http = Some l' ∧
      after ∈ l' ∧
      annotated (probe (demo_world ∅) http (socket_address alive)) ∅ alive after.
Proof.
  split; [vm_compute; reflexivity|]. split; [vm_compute; reflexivity|].
  intros (l' & after & Hl' & Hin & Ha & _ & _ & _ & b & Hb & _).
  assert (item (proxies (self (check_proxy demo_hash (demo_world ∅) alive http
                                 fetched_machine).2)) http
          = Some [set_timeout 0.5%float alive; refused; unreachable]) as E
    by (vm_compute; reflexivity).
  rewrite E in Hl'. injection Hl' as <-.
  repeat (apply elem_of_cons in Hin as [->|Hin]); try discriminate Hb; try discriminate Ha.
  by apply elem_of_nil in Hin.
Qed.

(** *** The check stage returns

    The theorems above speak of a stage that returns.  It does: when the
    download does not fault, the semaphore has a permit, the sets hold
    one proxy per address, and no lookup answers with a truthy JSON
    value that is not an object. *)

Definition present (proto : proto) (address : text) (st : machine) : Prop :=
  ∃ l y, item (proxies (self st)) proto = Some l ∧ y ∈ l ∧
         socket_address y = address.

(** The answer on which [proxy.update(data)] raises [AttributeError]. *)
Definition crashes (a : answer) : bool :=
  match reply a with
  | inr r =>
      (status r =? 200)%Z &&
      match json r with inr (JOther true) => true | _ => false end
  | inl _ => false
  end.

(** The other proxies stay. *)
Definition spares (proto : proto) (address : text) (st st' : machine) : Prop :=
  ∀ proto' a', (proto', a') ≠ (proto, address) →
    present proto' a' st → present proto' a' st'.

Lemma spares_refl proto a st : spares proto a st st.
Proof. by intros ???. Qed.

Lemma spares_trans proto a st1 st2 st3 :
  spares proto a st1 st2 → spares proto a st2 st3 → spares proto a st1 st3.
Proof. intros H12 H23 proto' a' Hne Hp. by apply H23, H12. Qed.

Lemma spares_remove hash proto proxy :
  keeps (spares proto (socket_address proxy)) (remove_proxy hash proto proxy).
Proof.
  intros st proto' a' Hne (l' & y & Hl' & Hy & Ey).
  unfold remove_proxy. run_M.
  destruct (item (proxies (self st)) proto) as [l|] eqn:Hl; [|by exists l', y].
  unfold set_remove. destruct (existsb (found hash proxy) l); [|by exists l', y].
  run_M. unfold present. cbn [self proxies].
  rewrite (item_set_item _ _ _ _ _ Hl).
  destruct (decide (proto = proto')) as [<-|Hp]; [|by exists l', y].
  rewrite Hl in Hl'. injection Hl' as <-.
  eexists _, y. split; [reflexivity|]. split; [|done].
  apply list_elem_of_filter. split; [|done].
  destruct (found hash proxy y) eqn:Ef; [|done].
  apply found_address in Ef. congruence.
Qed.

Lemma assign_proxies proto proxy f st l :
  item (proxies (self st)) proto = Some l →
  (assign proto proxy f st).1 = inr tt ∧
  proxies (self (assign proto proxy f st).2)
  = set_item (proxies (self st)) proto
      ((λ y, if bool_decide (socket_address y = socket_address proxy)
             then f y else y) <$> l).
Proof. intros Hl. unfold assign. run_M. rewrite Hl. run_M. by cbn [proxies]. Qed.

(** A computation that returns from every state. *)
Definition always (m : M unit) : Prop := ∀ st, (m st).1 = inr tt.

Lemma always_ret : always (mret tt).
Proof. by intros st. Qed.

Lemma always_emit e : always (emit e).
Proof. by intros st. Qed.

Lemma always_bind (m : M unit) (k : unit → M unit) :
  always m → (∀ a, always (k a)) → always (m ≫= k).
Proof.
  intros Hm Hk st. rewrite run_bind. specialize (Hm st).
  destruct (m st) as [[e|[]] st']; [done | apply Hk].
Qed.

Lemma assign_returns proto proxy f : always (assign proto proxy f).
Proof.
  intros st.
  destruct (item (proxies (self st)) proto) as [l|] eqn:Hl.
  - by destruct (assign_proxies proto proxy f st l Hl).
  - unfold assign. run_M. by rewrite Hl.
Qed.

Lemma spares_assign proto0 a0 proto proxy f :
  (∀ y, socket_address (f y) = socket_address y) →
  keeps (spares proto0 a0) (assign proto proxy f).
Proof.
  intros Hf st proto' a' _ (l' & y & Hl' & Hy & Ey).
  destruct (item (proxies (self st)) proto) as [l|] eqn:Hl.
  - destruct (assign_proxies proto proxy f st l Hl) as [_ E].
    unfold present. rewrite E, (item_set_item _ _ _ _ _ Hl).
    destruct (decide (proto = proto')) as [<-|Hp]; [|by exists l', y].
    rewrite Hl in Hl'. injection Hl' as <-. eexists _, _.
    split; [reflexivity|]. split; [by apply list_elem_of_fmap_2|].
    destruct (bool_decide _); [by rewrite Hf | done].
  - unfold assign. run_M. rewrite Hl. by exists l', y.
Qed.

Lemma spares_emit proto a e : keeps (spares proto a) (emit e).
Proof. by intros st ???. Qed.

Lemma spares_check_proxy hash w proxy proto :
  keeps (spares proto (socket_address proxy)) (check_proxy hash w proxy proto).
Proof.
  set (R := spares proto (socket_address proxy)).
  assert (∀ st, R st st) as Hr by apply spares_refl.
  assert (∀ a b c, R a b → R b c → R a c) as Ht by apply spares_trans.
  unfold check_proxy.
  apply keeps_bind; [done | apply spares_emit | intros _].
  apply keeps_bind; [done | | intros _; apply spares_emit].
  destruct (reply _) as [e|r].
  - apply keeps_bind; [done | | intros _; apply spares_remove].
    destruct (too_many_open_files e); [apply spares_emit | by apply keeps_ret].
  - destruct (status r =? 200)%Z; [destruct (json r) as [e|data]|].
    + apply keeps_bind; [done | | intros _; apply spares_remove].
      destruct (too_many_open_files e); [apply spares_emit | by apply keeps_ret].
    + apply keeps_bind; [done | by apply spares_assign | intros _].
      destruct data as [data|[|]].
      * destruct (bool_decide _); [by apply keeps_ret | by apply spares_assign].
      * by apply keeps_raise.
      * by apply keeps_ret.
    + apply keeps_bind; [done | by apply spares_assign | intros _].
      by apply keeps_ret.
Qed.

Lemma check_proxy_returns hash w proxy proto st :
  present proto (socket_address proxy) st →
  crashes (probe w proto (socket_address proxy)) = false →
  (check_proxy hash w proxy proto st).1 = inr tt.
Proof.
  intros (l & y & Hl & Hy & Ey) Hc.
  destruct (raises (probe w proto (socket_address proxy))) eqn:Hr.
  - destruct (check_proxy_raises_run hash w proxy proto st Hr) as (st2 & E2 & ->).
    rewrite run_bind.
    assert ((remove_proxy hash proto proxy st2).1 = inr tt) as Hrem.
    { unfold remove_proxy. run_M. rewrite E2, Hl. unfold set_remove.
      assert (existsb (found hash proxy) l = true) as ->; [|done].
      apply existsb_exists. exists y. split; [by apply list_elem_of_In|].
      by apply found_self. }
    by destruct (remove_proxy hash proto proxy st2) as [[e|[]] st3].
  - unfold check_proxy, raises, crashes in *.
    destruct (reply (probe w proto (socket_address proxy))) as [e|r]; [done|].
    destruct (status r =? 200)%Z; [destruct (json r) as [e|[data|[|]]]|];
      try done;
      repeat first [ apply always_bind; [|intros _]
                   | apply always_emit | apply assign_returns | apply always_ret
                   | destruct (bool_decide (data = ∅)) ].
Qed.

Lemma checks_return hash w tasks st :
  NoDup ((λ c : Proxy * proto, (c.2, socket_address c.1)) <$> tasks) →
  (∀ c, c ∈ tasks → present c.2 (socket_address c.1) st) →
  (∀ c, c ∈ tasks → crashes (probe w c.2 (socket_address c.1)) = false) →
  (for_each tasks (λ c, check_proxy hash w c.1 c.2) st).1 = inr tt.
Proof.
  revert st. induction tasks as [|x tasks IH]; intros st Hnd Hp Hc; [done|].
  cbn [for_each]. rewrite run_bind.
  pose proof (check_proxy_returns hash w x.1 x.2 st
                (Hp x (list_elem_of_here _ _)) (Hc x (list_elem_of_here _ _))) as Hx.
  pose proof (spares_check_proxy hash w x.1 x.2 st) as Hs.
  destruct (check_proxy hash w x.1 x.2 st) as [[e|[]] st1]; [done|].
  cbn [fmap list_fmap] in Hnd. apply NoDup_cons in Hnd as [Hx' Hnd].
  apply IH; [done | | intros c Hin; by apply Hc, list_elem_of_further].
  intros c Hin. apply Hs; [|by apply Hp, list_elem_of_further].
  intros E. apply Hx'. rewrite <- E.
  apply list_elem_of_fmap. by exists c.
Qed.

Lemma item_NoDup {K V} `{EqDecision K} (d : list (K * V)) k v :
  NoDup d.*1 → (k, v) ∈ d → item d k = Some v.
Proof.
  unfold item. induction d as [|[k0 v0] d IH]; intros Hnd Hin.
  - by apply elem_of_nil in Hin.
  - cbn [fmap list_fmap fst] in Hnd. apply NoDup_cons in Hnd as [Hk0 Hnd].
    cbn [find fst]. apply elem_of_cons in Hin as [[= <- <-]|Hin].
    + by rewrite bool_decide_eq_true_2.
    + rewrite bool_decide_eq_false_2; [by apply IH|].
      intros ->. apply Hk0. by apply (list_elem_of_fmap_2 fst _ (k, v)).
Qed.

(** The check stage returns normally. *)
Lemma check_all_returns hash w st :
  fault w Retrieve = None →
  sem (self st) ≠ 0%Z →
  (∀ tasks : list (Proxy * proto), order w _ tasks ≡ₚ tasks) →
  NoDup (proxies (self st)).*1 →
  NoDup ((λ c : Proxy * proto, (c.2, socket_address c.1)) <$> coroutines (self st)) →
  (∀ c, c ∈ coroutines (self st) →
        crashes (probe w c.2 (socket_address c.1)) = false) →
  (check_all_proxies hash w st).1 = inr tt.
Proof.
  intros Hfault Hsem Hperm Hkeys Hnd Hcrash.
  unfold check_all_proxies. rewrite (run_bind get). cbn [get].
  destruct (for_each_emit (proxies (self st))
              (λ pp, AddTask Checking pp.1 (length pp.2)) st) as (st0 & E0 & Es0).
  rewrite (bind_ok _ _ _ _ _ E0).
  rewrite run_bind, perform_quiet by done.
  rewrite bool_decide_eq_false_2 by done. cbn [andb].
  apply checks_return.
  - by rewrite Hperm.
  - intros [proxy proto] Hin. rewrite Hperm in Hin. unfold present. cbn [self fst snd].
    rewrite Es0. unfold coroutines in Hin.
    apply list_elem_of_bind in Hin as ([proto' l] & Hin & Hpl).
    apply list_elem_of_bind in Hin as (y & Hin & Hy).
    apply list_elem_of_singleton in Hin as [= <- <-].
    exists l, proxy. split; [by apply item_NoDup | done].
  - intros c Hin. apply Hcrash. by rewrite <- (Hperm (coroutines (self st))).
Qed.

Example demo_check_returns :
  (check_all_proxies demo_hash (demo_world lookup_payload) fetched_machine).1 = inr tt.
Proof.
  apply check_all_returns.
  - reflexivity.
  - done.
  - intros tasks. apply Permutation_sym, Permutation_rev.
  - apply (bool_decide_unpack _). vm_compute. exact I.
  - apply (bool_decide_unpack _). vm_compute. exact I.
  - intros c Hc. vm_compute in Hc.
    repeat (apply elem_of_cons in Hc as [->|Hc]; [reflexivity|]).
    by apply elem_of_nil in Hc.
Qed.

(** ** Output folders (spec 4.4) *)

(** The machine only adds events, and every added event satisfies [P]. *)
Definition logs (P : event → Prop) (st st' : machine) : Prop :=
  ∃ new, log st' = log st ++ new ∧ Forall P new.

Lemma logs_refl P st : logs P st st.
Proof. exists []. by rewrite app_nil_r. Qed.

Lemma logs_trans P a b c : logs P a b → logs P b c → logs P a c.
Proof.
  intros (n1 & E1 & H1) (n2 & E2 & H2). exists (n1 ++ n2).
  split; [by rewrite E2, E1, app_assoc | by apply Forall_app].
Qed.

Lemma keeps_for_each_elem (R : machine → machine → Prop) {A} (l : list A)
    (body : A → M unit) :
  (∀ st, R st st) → (∀ a b c, R a b → R b c → R a c) →
  (∀ x, x ∈ l → keeps R (body x)) → keeps R (for_each l body).
Proof.
  intros Hr Ht. induction l as [|x l IH]; intros Hb; cbn [for_each].
  - by apply keeps_ret.
  - apply keeps_bind; [done | apply Hb, list_elem_of_here | intros _].
    apply IH. intros y Hy. by apply Hb, list_elem_of_further.
Qed.

Lemma logs_emit (P : event → Prop) e : P e → keeps (logs P) (emit e).
Proof. intros He st. exists [e]. split; [done | by constructor]. Qed.

Lemma logs_perform (P : event → Prop) w e : P e → keeps (logs P) (perform w e).
Proof.
  intros He. unfold perform.
  apply keeps_bind; [apply logs_trans | by apply logs_emit | intros _].
  destruct (fault w e); [apply keeps_raise | apply keeps_ret]; apply logs_refl.
Qed.

(** The events [save_proxies] may add for the object [s]. *)
Definition saving (s : ProxyScraperChecker) (e : event) : Prop :=
  match e with
  | System | WriteText _ _ => True
  | Rmtree p => ∃ folder, folder ∈ all_folders s ∧ p = path folder
  | Mkdir p => ∃ folder, folder ∈ enabled_folders s ∧ p = path folder
  | _ => False
  end.

Lemma save_proxies_logs w st : logs (saving (self st)) st (save_proxies w st).2.
Proof.
  set (P := saving (self st)).
  assert (∀ a, logs P a a) as Hr by apply logs_refl.
  assert (∀ a b c, logs P a b → logs P b c → logs P a c) as Ht by apply logs_trans.
  unfold save_proxies. rewrite run_bind. cbn [get].
  destruct (sorted_proxies (self st)) as [sorted_proxies|]; [|apply Hr].
  apply (keeps_bind (logs P)); [done | by apply logs_perform | intros _].
  apply keeps_bind; [done | | intros _].
  - apply keeps_for_each_elem; [done..|]. intros folder Hf.
    apply keeps_try; [done.. | |].
    + apply logs_perform. by exists folder.
    + intros e. destruct e; first [by apply keeps_ret | by apply keeps_raise].
  - apply keeps_for_each_elem; [done..|]. intros folder Hf.
    apply keeps_bind; [done | | intros _].
    + apply logs_perform. by exists folder.
    + apply keeps_for_each; [done..|]. intros pp. by apply logs_perform.
Qed.

(** Without faults, [Folder.remove] is called on every folder of the
    list, in order. *)
Lemma remove_all_quiet w folders st :
  (∀ e, fault w e = None) →
  for_each folders (Folder_remove w) st
  = (inr tt, {| self := self st;
                log := log st ++ (Rmtree ∘ path <$> folders) |}).
Proof.
  intros Hw. revert st. induction folders as [|f folders IH]; intros st.
  - cbn. rewrite app_nil_r. by destruct st.
  - cbn [for_each]. rewrite run_bind. unfold Folder_remove at 1, try.
    rewrite perform_quiet by done. rewrite IH. cbn [self log fmap list_fmap compose].
    by rewrite <- app_assoc.
Qed.

(** C5, amended: while the output is written, a directory is created
    only for an enabled category folder, so the directory of a disabled
    category is never created; [rmtree], however, is called on the
    folders of all four categories, and when the run reaches that loop
    (the keys sort and nothing faults) the directory of a disabled
    category is among them. *)
Theorem C5_disabled_not_created (w : World) (cfg : Config.t)
    (s : ProxyScraperChecker) (st : machine) (name : text) :
  ProxyScraperChecker_init cfg = inr s →
  all_folders (self st) = all_folders s →
  enabled_folders (self st) = enabled_folders s →
  item (folders_mapping cfg) name = Some false →
  ∃ new, log (save_proxies w st).2 = log st ++ new ∧
    (Mkdir (slash (Path_of (Config.save_path cfg)) name) ∉ new) ∧
    (∀ p, Mkdir p ∈ new → ∃ folder, folder ∈ enabled_folders s ∧ p = path folder) ∧
    (∀ p, Rmtree p ∈ new → ∃ folder, folder ∈ all_folders s ∧ p = path folder) ∧
    ((∀ e, fault w e = None) → is_Some (sorted_proxies (self st)) →
     Rmtree (slash (Path_of (Config.save_path cfg)) name) ∈ new).
Proof.
  intros Hinit Hall Hen Hname.
  destruct (init_folders cfg s Hinit) as (Eall & Esel & _).
  destruct (save_proxies_logs w st) as (new & Hlog & Hnew).
  rewrite Forall_forall in Hnew. unfold saving in Hnew. rewrite Hall, Hen in Hnew.
  exists new. split; [exact Hlog|].
  assert (∀ p, Mkdir p ∈ new → ∃ folder, folder ∈ enabled_folders s ∧ p = path folder)
    as Hmk by (intros p Hp; exact (Hnew _ Hp)).
  split; [|split; [exact Hmk | split; [intros p Hp; exact (Hnew _ Hp)|]]].
  - intros (folder & Hf & Ep)%Hmk.
    apply (select_elem _ _ _ folder Esel) in Hf as [_ Hon].
    rewrite <- Ep, Path_name_slash in Hon. congruence.
  - intros Hw [sorted_proxies Hsort].
    assert (Rmtree (slash (Path_of (Config.save_path cfg)) name)
            ∈ (Rmtree ∘ path <$> all_folders (self st))) as Hrm.
    { rewrite Hall, Eall. apply item_elem in Hname.
      apply list_elem_of_fmap. eexists. split; [|apply list_elem_of_fmap_2, Hname].
      reflexivity. }
    revert Hlog. unfold save_proxies. rewrite run_bind. cbn [get]. rewrite Hsort.
    rewrite run_bind, perform_quiet by done.
    rewrite run_bind, remove_all_quiet by done. cbn [self log].
    match goal with
    | |- context [for_each (enabled_folders ?s0) ?body ?st2] =>
        destruct (keeps_for_each_elem (logs (λ _, True)) (enabled_folders s0) body
                    (logs_refl _) (logs_trans _)) with (st := st2)
          as (more & Hmore & _)
    end.
    { intros folder _. apply keeps_bind; [apply logs_trans | |intros _].
      - by apply logs_perform.
      - apply keeps_for_each; [apply logs_refl | apply logs_trans |].
        intros pp. by apply logs_perform. }
    rewrite Hmore. cbn [log]. rewrite <- !app_assoc. intros <-%app_inv_head.
    apply elem_of_cons. right. apply elem_of_app. by left.
Qed.

(** The object built from the configuration of the example, in which
    only the last category is enabled. *)
Definition built : ProxyScraperChecker :=
  match ProxyScraperChecker_init (demo_cfg false) with
  | inr s => s
  | inl _ => self fetched_machine
  end.

(** The theorem at the disabled category proxies_anonymous. *)
Lemma C5_disabled_not_created_witness :
  ∃ new,
    log (save_proxies (demo_world lookup_payload) fetched_machine).2
    = log fetched_machine ++ new ∧
    (Mkdir (slash (Path_of (Config.save_path (demo_cfg false))) (str "proxies_anonymous"))
     ∉ new) ∧
    (∀ p, Mkdir p ∈ new → ∃ folder, folder ∈ enabled_folders built ∧ p = path folder) ∧
    (∀ p, Rmtree p ∈ new → ∃ folder, folder ∈ all_folders built ∧ p = path folder) ∧
    ((∀ e, fault (demo_world lookup_payload) e = None) →
     is_Some (sorted_proxies (self fetched_machine)) →
     Rmtree (slash (Path_of (Config.save_path (demo_cfg false))) (str "proxies_anonymous"))
     ∈ new).
Proof.
  apply (C5_disabled_not_created (demo_world lookup_payload) (demo_cfg false) built
           fetched_machine (str "proxies_anonymous")).
  - vm_compute. reflexivity.
  - vm_compute. reflexivity.
  - vm_compute. reflexivity.
  - vm_compute. reflexivity.
Defined.

(** The run leaves the directory alone: it calls neither [rmtree] nor
    [mkdir] on it. *)
Definition left_alone (events : list event) (dir : Path) : Prop :=
  (Rmtree dir ∉ events) ∧ (Mkdir dir ∉ events).

(** C5, as stated, fails: with the category proxies_anonymous disabled,
    the run still calls [rmtree] on its directory. *)
Lemma C5_disabled_folder_removed :
  item (folders_mapping (demo_cfg false)) (str "proxies_anonymous") = Some false ∧
  ¬ left_alone (run demo_hash (demo_world lookup_payload) (demo_cfg false)).2
               (slash (Path_of (str "out")) (str "proxies_anonymous")).
Proof.
  split; [reflexivity|]. intros [Hrm _]. apply Hrm. vm_compute.
  repeat first [apply list_elem_of_here | apply list_elem_of_further].
Qed.

(** * Further properties of the code *)

(** ** [set.remove] on proxies (lines 54-60, 236) *)

Lemma found_iff hash (x y : Proxy) :
  found hash x y = true ↔ socket_address y = socket_address x.
Proof. split; [apply found_address | intros E; by apply found_self]. Qed.

Lemma existsb_found hash (x : Proxy) (s : list Proxy) :
  existsb (found hash x) s = true ↔ socket_address x ∈ socket_address <$> s.
Proof.
  rewrite existsb_exists, list_elem_of_fmap. split.
  - intros (y & Hy%list_elem_of_In & E%found_iff). by exists y.
  - intros (y & E & Hy). exists y. split; [by apply list_elem_of_In|].
    by apply found_iff.
Qed.

Lemma set_remove_filter hash (x : Proxy) (s : list Proxy) :
  filter (λ y, found hash x y = false) s
  = filter (λ y, socket_address y ≠ socket_address x) s.
Proof.
  apply list_filter_iff. intros y. rewrite <- found_iff.
  by rewrite not_true_iff_false.
Qed.

(** X1: [s.remove(x)] looks [x] up by its address alone, whatever the
    hash function and the other fields: it raises [KeyError] exactly
    when no proxy of the set has the address of [x], and otherwise
    returns the set without the proxies of that address, the others in
    their order. *)
Theorem X1_set_remove_by_address (hash : text * text → Z) (x : Proxy) (s : list Proxy) :
  set_remove hash x s
  = if decide (socket_address x ∈ socket_address <$> s)
    then inr (filter (λ y, socket_address y ≠ socket_address x) s)
    else inl KeyError.
Proof.
  unfold set_remove. rewrite set_remove_filter.
  destruct (existsb (found hash x) s) eqn:E.
  - apply existsb_found in E. by rewrite decide_True.
  - rewrite decide_False; [done|]. intros H%(existsb_found hash). congruence.
Qed.

Lemma filter_other_addresses (a : text) (s : list Proxy) :
  a ∉ socket_address <$> s →
  filter (λ y, socket_address y ≠ a) s = s.
Proof.
  induction s as [|y s IH]; [done|]. cbn [fmap list_fmap].
  intros [Hy Hs]%not_elem_of_cons. rewrite filter_cons_True by done.
  by rewrite IH.
Qed.

(** X2: adding a proxy whose address the set does not hold and removing
    it again gives the set back; removing a proxy twice raises
    [KeyError] the second time. *)
Theorem X2_add_then_remove (hash : text * text → Z) (x : Proxy) (s : list Proxy) :
  socket_address x ∉ socket_address <$> s →
  set_remove hash x (set_add hash x s) = inr s ∧
  set_remove hash x s = inl KeyError.
Proof.
  intros Hx.
  assert (existsb (found hash x) s = false) as E.
  { destruct (existsb (found hash x) s) eqn:E; [|done].
    by apply existsb_found in E. }
  split.
  - unfold set_add. rewrite E. unfold set_remove.
    rewrite existsb_app, E. cbn [existsb orb].
    rewrite (found_self hash x x eq_refl). cbn [orb].
    rewrite set_remove_filter, filter_app, filter_other_addresses by done.
    rewrite filter_cons_False by (intros H; by apply H).
    by rewrite filter_nil, app_nil_r.
  - unfold set_remove. by rewrite E.
Qed.

Lemma X2_add_then_remove_witness :
  set_remove demo_hash refused (set_add demo_hash refused [alive; unreachable])
  = inr [alive; unreachable] ∧
  set_remove demo_hash refused [alive; unreachable] = inl KeyError.
Proof.
  apply (X2_add_then_remove demo_hash refused [alive; unreachable]).
  apply (bool_decide_unpack _). vm_compute. exact I.
Defined.

(** ** Construction (lines 107-177) *)

(** The [sources] argument of a protocol. *)
Definition configured_sources (cfg : Config.t) (p : proto) : option text :=
  match p with
  | http => Config.http_sources cfg
  | socks4 => Config.socks4_sources cfg
  | socks5 => Config.socks5_sources cfg
  end.

Lemma item_cons {K V} `{EqDecision K} (k0 : K) (v0 : V) d k :
  item ((k0, v0) :: d) k = if decide (k0 = k) then Some v0 else item d k.
Proof.
  unfold item. cbn [find fst]. case_bool_decide; case_decide; done.
Qed.

Lemma item_None {K V} `{EqDecision K} (d : list (K * V)) k :
  item d k = None ↔ k ∉ d.*1.
Proof.
  induction d as [|[k0 v0] d IH]; [cbn; split; [intros _ H; by apply elem_of_nil in H|done]|].
  rewrite item_cons. cbn [fmap list_fmap fst]. rewrite not_elem_of_cons.
  case_decide as E.
  - split; [done|]. intros [? _]. congruence.
  - rewrite IH. split; [intros ?; split; [congruence|done] | by intros [_ ?]].
Qed.

Lemma item_fmap {K V V'} `{EqDecision K} (f : V → V') (d : list (K * V)) k :
  item ((λ kv, (kv.1, f kv.2)) <$> d) k = f <$> item d k.
Proof.
  induction d as [|[k0 v0] d IH]; [done|]. cbn [fmap list_fmap fst snd].
  rewrite !item_cons. by case_decide.
Qed.

Lemma read_sources_keys l k : k ∈ (read_sources l).*1 → k ∈ l.*1.
Proof.
  unfold read_sources.
  intros ([k' v] & -> & ([k0 [s|]] & Hin & E)%list_elem_of_omap)%list_elem_of_fmap;
    cbn in E; [|done].
  destruct s; [done|]. injection E as <- <-. cbn.
  by apply (list_elem_of_fmap_2 fst _ _ Hin).
Qed.

Lemma read_sources_NoDup l : NoDup l.*1 → NoDup (read_sources l).*1.
Proof.
  induction l as [|[k v] l IH]; [done|]. cbn [fmap list_fmap fst].
  intros [Hk Hl]%NoDup_cons. unfold read_sources. cbn [omap list_omap snd fst].
  destruct v as [[|c s]|]; [by apply IH | | by apply IH].
  cbn [fmap list_fmap fst]. apply NoDup_cons. split; [|by apply IH].
  intros H. by apply Hk, read_sources_keys.
Qed.

Lemma item_read_sources l k :
  NoDup l.*1 →
  item (read_sources l) k
  = match item l k with
    | Some (Some (c :: s)) =>
        Some (remove_dups (filter (λ x, x ≠ []) (splitlines (c :: s))))
    | _ => None
    end.
Proof.
  induction l as [|[k0 v] l IH]; [done|]. cbn [fmap list_fmap fst].
  intros [Hk Hl]%NoDup_cons. rewrite item_cons.
  assert (k0 = k → item (read_sources l) k = None) as Hnone.
  { intros <-. apply item_None. intros H. by apply Hk, read_sources_keys. }
  unfold read_sources. cbn [omap list_omap snd fst]. fold (read_sources l).
  destruct v as [[|c s]|].
  - case_decide; [by apply Hnone | by apply IH].
  - rewrite item_cons. case_decide; [done | by apply IH].
  - case_decide; [by apply Hnone | by apply IH].
Qed.

Lemma init_state cfg s :
  ProxyScraperChecker_init cfg = inr s →
  sources s = read_sources [ (http, Config.http_sources cfg);
                             (socks4, Config.socks4_sources cfg);
                             (socks5, Config.socks5_sources cfg) ] ∧
  proxies s = (λ ps, (ps.1, [])) <$> sources s ∧
  proxies_count s = (λ ps, (ps.1, 0%nat)) <$> sources s ∧
  sem s = Config.max_connections cfg ∧
  (0 ≤ sem s)%Z.
Proof.
  unfold ProxyScraperChecker_init.
  destruct (select _ _) as [e|[|f enabled]]; [done..|].
  destruct (Z.ltb_spec (Config.max_connections cfg) 0); [done|].
  intros [= <-]. by cbn.
Qed.

Lemma init_keys cfg s :
  ProxyScraperChecker_init cfg = inr s →
  NoDup (proxies s).*1 ∧ (proxies s).*1 = (sources s).*1.
Proof.
  intros (Es & Ep & _)%init_state.
  assert ((proxies s).*1 = (sources s).*1) as E.
  { rewrite Ep, <- list_fmap_compose. done. }
  split; [|done]. rewrite E, Es. apply read_sources_NoDup.
  apply (bool_decide_unpack _). vm_compute. exact I.
Qed.

(** X3: the constructor returns an object exactly when at least one
    output category is enabled and [max_connections] is not negative.
    With a category enabled and a negative [max_connections] it raises
    the [ValueError] of the semaphore. *)
Theorem X3_init_outcome (cfg : Config.t) :
  ((∃ s, ProxyScraperChecker_init cfg = inr s) ↔
   (∃ name, item (folders_mapping cfg) name = Some true) ∧
   (0 ≤ Config.max_connections cfg)%Z) ∧
  ((∃ name, item (folders_mapping cfg) name = Some true) →
   (Config.max_connections cfg < 0)%Z →
   ProxyScraperChecker_init cfg
   = inl (ValueError (str "Semaphore initial value must be >= 0"))).
Proof.
  assert ((∃ name, item (folders_mapping cfg) name = Some true) ↔
          ∃ f enabled,
            select (folders_mapping cfg)
              ((λ kv, Folder_init (Path_of (Config.save_path cfg)) kv.1)
                 <$> folders_mapping cfg) = inr (f :: enabled)) as Hsel.
  { unfold folders_mapping.
    destruct (Config.proxies cfg) eqn:E1, (Config.proxies_anonymous cfg) eqn:E2,
      (Config.proxies_geolocation cfg) eqn:E3,
      (Config.proxies_geolocation_anonymous cfg) eqn:E4;
      (split;
       [ intros [name Hname]; try (do 2 eexists; vm_compute; reflexivity);
         exfalso; revert Hname; rewrite !item_cons;
         repeat case_decide; done
       | intros (f & enabled & Hsel); try (by vm_compute in Hsel);
         first [ by exists (str "proxies")
               | by exists (str "proxies_anonymous")
               | by exists (str "proxies_geolocation")
               | by exists (str "proxies_geolocation_anonymous") ] ]). }
  split; [split|].
  - intros [s Hs]. unfold ProxyScraperChecker_init in Hs.
    destruct (select _ _) as [e|[|f enabled]] eqn:E; [done..|].
    destruct (Z.ltb_spec (Config.max_connections cfg) 0); [done|].
    split; [|done]. apply Hsel. by exists f, enabled.
  - intros [(f & enabled & E)%Hsel Hmax]. unfold ProxyScraperChecker_init.
    rewrite E. destruct (Z.ltb_spec (Config.max_connections cfg) 0); [lia|].
    by eexists.
  - intros (f & enabled & E)%Hsel Hmax. unfold ProxyScraperChecker_init.
    rewrite E. by destruct (Z.ltb_spec (Config.max_connections cfg) 0); [|lia].
Qed.

(** X4: the object the constructor returns holds, for exactly the
    protocols whose [sources] argument is a non-empty string, the
    non-empty lines of that string without repetition, an empty set of
    proxies and a count of zero; the other protocols have no entry. *)
Theorem X4_init_sources (cfg : Config.t) (s : ProxyScraperChecker) (p : proto) :
  ProxyScraperChecker_init cfg = inr s →
  match configured_sources cfg p with
  | Some (c :: t) =>
      ∃ l, item (sources s) p = Some l ∧ NoDup l ∧
           (∀ x, x ∈ l ↔ x ∈ splitlines (c :: t) ∧ x ≠ []) ∧
           item (proxies s) p = Some [] ∧
           item (proxies_count s) p = Some 0%nat
  | _ =>
      item (sources s) p = None ∧ item (proxies s) p = None ∧
      item (proxies_count s) p = None
  end.
Proof.
  intros (Es & Ep & Ec & _)%init_state.
  assert (item (proxies s) p = (λ _, []) <$> item (sources s) p) as ->
    by (rewrite Ep; apply (item_fmap (λ _, []))).
  assert (item (proxies_count s) p = (λ _, 0%nat) <$> item (sources s) p) as ->
    by (rewrite Ec; apply (item_fmap (λ _, 0%nat))).
  rewrite Es.
  rewrite item_read_sources by (apply (bool_decide_unpack _); vm_compute; exact I).
  assert (item [ (http, Config.http_sources cfg);
                 (socks4, Config.socks4_sources cfg);
                 (socks5, Config.socks5_sources cfg) ] p
          = Some (configured_sources cfg p)) as -> by by destruct p.
  destruct (configured_sources cfg p) as [[|c t]|]; [done| |done].
  eexists. split; [done|]. split; [apply NoDup_remove_dups|].
  split; [|done]. intros x. by rewrite elem_of_remove_dups, list_elem_of_filter, (comm and).
Qed.

Lemma X4_init_sources_witness :
  ∃ l, item (sources built) http = Some l ∧ NoDup l ∧
       (∀ x, x ∈ l ↔ x ∈ splitlines (str "http://lists.example/http.txt") ∧ x ≠ []) ∧
       item (proxies built) http = Some [] ∧
       item (proxies_count built) http = Some 0%nat.
Proof.
  apply (X4_init_sources (demo_cfg false) built http). vm_compute. reflexivity.
Defined.

(** ** What a stage does to the sets *)

Lemma item_app {K V} `{EqDecision K} (d1 d2 : list (K * V)) k :
  item (d1 ++ d2) k = match item d1 k with Some v => Some v | None => item d2 k end.
Proof.
  induction d1 as [|[k0 v0] d1 IH]; [done|]. cbn [app]. rewrite !item_cons.
  by case_decide.
Qed.

Lemma item_set_item_any {K V} `{EqDecision K} (d : list (K * V)) k v k' :
  item (set_item d k v) k' = if decide (k = k') then Some v else item d k'.
Proof.
  destruct (item d k) as [v0|] eqn:E; [by eapply item_set_item|].
  unfold set_item. rewrite E, item_app, item_cons. case_decide as Ek.
  - subst k'. by rewrite E.
  - by destruct (item d k').
Qed.

Lemma set_item_keys {K V} `{EqDecision K} (d : list (K * V)) k v0 v :
  item d k = Some v0 → (set_item d k v).*1 = d.*1.
Proof.
  intros E. unfold set_item. rewrite E, <- list_fmap_compose.
  apply list_fmap_ext. intros i [k1 v1] _. cbn. by case_bool_decide.
Qed.

(** The step from [st] to [st'] changes nothing, or replaces the set
    [l] of [proto] by [g l] and nothing else. *)
Definition rewrites (proto : proto) (g : list Proxy → list Proxy)
    (st st' : machine) : Prop :=
  st' = st ∨
  ∃ l, item (proxies (self st)) proto = Some l ∧
       log st' = log st ∧
       proxies_count (self st') = proxies_count (self st) ∧
       proxies (self st') = set_item (proxies (self st)) proto (g l).

Lemma add_proxy_rewrites hash proto x st :
  rewrites proto (set_add hash x) st (add_proxy hash proto x st).2.
Proof.
  unfold add_proxy. run_M.
  destruct (item (proxies (self st)) proto) as [l|] eqn:Hl; [|by left].
  right. exists l. by run_M.
Qed.

Lemma remove_proxy_rewrites hash proto x st :
  rewrites proto (filter (λ y, socket_address y ≠ socket_address x)) st
           (remove_proxy hash proto x st).2.
Proof.
  unfold remove_proxy. run_M.
  destruct (item (proxies (self st)) proto) as [l|] eqn:Hl; [|by left].
  unfold set_remove. destruct (existsb (found hash x) l); [|by left].
  right. exists l. run_M. by rewrite set_remove_filter.
Qed.

Lemma assign_rewrites proto x f st :
  rewrites proto
    (fmap (λ y, if bool_decide (socket_address y = socket_address x) then f y else y))
    st (assign proto x f st).2.
Proof.
  unfold assign. run_M.
  destruct (item (proxies (self st)) proto) as [l|] eqn:Hl; [|by left].
  right. exists l. by run_M.
Qed.

(** The events of the three stages. *)
Definition scraping (e : event) : Prop :=
  match e with
  | AddTask Scraping _ _ | Advance Scraping _ | Print _ | Get _ => True
  | _ => False
  end.

Definition checking (e : event) : Prop :=
  match e with
  | AddTask Checking _ _ | Advance Checking _ | Print _ | Probe _ _ | Retrieve => True
  | _ => False
  end.

Definition writing (e : event) : Prop :=
  match e with
  | PrintTable _ | PrintSaved _ | System | Rmtree _ | Mkdir _ | WriteText _ _ => True
  | _ => False
  end.

(** [p] is a candidate the extractor finds in what a source of [proto]
    answered. *)
Definition scraped (w : World) (proto : proto) (p : Proxy) : Prop :=
  ∃ source status body m,
    fetch w proto source = Fetched status body ∧ m ∈ finditer body ∧
    p = Proxy_init (group1 m) (group2 m).

(** A relation every step of a stage keeps is kept by the stage. *)
Section Stages.
Variable hash : text * text → Z.
Variable w : World.
Variable R : machine → machine → Prop.
Hypothesis R_refl : ∀ st, R st st.
Hypothesis R_trans : ∀ a b c, R a b → R b c → R a c.

Lemma keeps_fetch_source source proto :
  (∀ e, scraping e → keeps R (emit e)) →
  (∀ x, scraped w proto x → keeps R (add_proxy hash proto x)) →
  keeps R (fetch_source hash w source proto).
Proof.
  intros He Ha. unfold fetch_source.
  apply keeps_bind; [done | by apply He | intros _].
  apply keeps_bind; [done | | intros _; by apply He].
  destruct (fetch w proto (strip source)) as [exc|status body] eqn:Ef;
    [by apply He|].
  destruct (finditer body) as [|m ms] eqn:Em; [by apply He|].
  apply keeps_for_each_elem; [done..|]. intros m' Hm'. apply Ha.
  exists (strip source), status, body, m'. by rewrite Em.
Qed.

Lemma keeps_fetch_all :
  (∀ e, scraping e → keeps R (emit e)) →
  (∀ proto x, scraped w proto x → keeps R (add_proxy hash proto x)) →
  (∀ l, keeps R (set_proxies_count l)) →
  keeps R (fetch_all_sources hash w).
Proof.
  intros He Ha Hc. unfold fetch_all_sources.
  apply keeps_get; [done..|]. intros st.
  apply keeps_bind; [done | | intros _].
  { apply keeps_for_each; [done..|]. intros ps. by apply He. }
  apply keeps_bind; [done | | intros _].
  { apply keeps_for_each; [done..|]. intros c.
    apply keeps_fetch_source; [done|]. intros x. apply Ha. }
  apply keeps_get; [done..|]. intros st1.
  apply keeps_for_each; [done..|]. intros pp.
  apply keeps_get; [done..|]. intros st2. apply Hc.
Qed.

Lemma keeps_check_proxy proxy proto :
  (∀ e, checking e → keeps R (emit e)) →
  keeps R (remove_proxy hash proto proxy) →
  (∀ f, (∀ y, socket_address (f y) = socket_address y ∧ ip (f y) = ip y) →
        keeps R (assign proto proxy f)) →
  keeps R (check_proxy hash w proxy proto).
Proof.
  intros He Hr Ha. unfold check_proxy.
  apply keeps_bind; [done | by apply He | intros _].
  apply keeps_bind; [done | | intros _; by apply He].
  assert (∀ e : exn,
    keeps R (_ ← (if too_many_open_files e
                  then emit (Print (str "[red]Please, set MAX_CONNECTIONS to lower value."))
                  else mret tt);
             remove_proxy hash proto proxy)) as Hexc.
  { intros e. apply keeps_bind; [done | | intros _; apply Hr].
    destruct (too_many_open_files e); [by apply He | by apply keeps_ret]. }
  destruct (reply _) as [e|r]; [apply Hexc|].
  destruct (status r =? 200)%Z; [destruct (json r) as [e|data]; [apply Hexc|]|].
  - apply keeps_bind; [done | by apply Ha | intros _].
    destruct data as [data|[|]].
    + destruct (bool_decide _); [by apply keeps_ret | by apply Ha].
    + by apply keeps_raise.
    + by apply keeps_ret.
  - apply keeps_bind; [done | by apply Ha | intros _]. by apply keeps_ret.
Qed.

Lemma keeps_check_all :
  (∀ e, checking e → keeps R (emit e)) →
  (∀ proto x, keeps R (remove_proxy hash proto x)) →
  (∀ proto x f, (∀ y, socket_address (f y) = socket_address y ∧ ip (f y) = ip y) →
                keeps R (assign proto x f)) →
  keeps R (check_all_proxies hash w).
Proof.
  intros He Hr Ha. unfold check_all_proxies.
  apply keeps_get; [done..|]. intros st.
  apply keeps_bind; [done | | intros _].
  { apply keeps_for_each; [done..|]. intros ps. by apply He. }
  apply keeps_bind; [done | | intros _].
  { unfold perform. apply keeps_bind; [done | by apply He | intros _].
    destruct (fault w Retrieve); [by apply keeps_raise | by apply keeps_ret]. }
  destruct (_ && _); [by apply keeps_hang|].
  apply keeps_for_each; [done..|]. intros c.
  apply keeps_check_proxy; [done | apply Hr | apply Ha].
Qed.
End Stages.

(** ** The fetch stage (lines 179-209, 243-269) *)

(** Every proxy of a set before is in the set after, as it was. *)
Definition kept (st st' : machine) : Prop :=
  ∀ proto l p, item (proxies (self st)) proto = Some l → p ∈ l →
    ∃ l', item (proxies (self st')) proto = Some l' ∧ p ∈ l'.

(** Every proxy of a set after was in the set before, or is a candidate
    scraped from a source of the protocol. *)
Definition grown (w : World) (st st' : machine) : Prop :=
  ∀ proto l' p, item (proxies (self st')) proto = Some l' → p ∈ l' →
    (∃ l, item (proxies (self st)) proto = Some l ∧ p ∈ l) ∨ scraped w proto p.

Lemma kept_refl st : kept st st.
Proof. intros proto l p Hl Hp. by exists l. Qed.

Lemma kept_trans a b c : kept a b → kept b c → kept a c.
Proof.
  intros Hab Hbc proto l p Hl Hp.
  destruct (Hab proto l p Hl Hp) as (l1 & Hl1 & Hp1). by eapply Hbc.
Qed.

Lemma grown_refl w st : grown w st st.
Proof. intros proto l p Hl Hp. left. by exists l. Qed.

Lemma grown_trans w a b c : grown w a b → grown w b c → grown w a c.
Proof.
  intros Hab Hbc proto l p Hl Hp.
  destruct (Hbc proto l p Hl Hp) as [(l1 & Hl1 & Hp1)|Hs]; [|by right].
  by eapply Hab.
Qed.

Lemma elem_of_set_add hash x l p :
  p ∈ set_add hash x l ↔ p ∈ l ∨ (p = x ∧ socket_address x ∉ socket_address <$> l).
Proof.
  unfold set_add. destruct (existsb (found hash x) l) eqn:E.
  - apply existsb_found in E. split; [by left | by intros [?|[_ ?]]].
  - rewrite elem_of_app, list_elem_of_singleton. split.
    + intros [? | ->]; [by left|]. right. split; [done|].
      intros H%(existsb_found hash). congruence.
    + intros [?|[-> _]]; [by left | by right].
Qed.

Lemma kept_rewrites proto g st st' :
  rewrites proto g st st' → (∀ l p, p ∈ l → p ∈ g l) → kept st st'.
Proof.
  intros [-> | (l & Hl & _ & _ & E)] Hg; [apply kept_refl|].
  intros proto' l0 p Hl0 Hp. rewrite E, (item_set_item _ _ _ _ _ Hl).
  case_decide as Ep; [|by exists l0]. subst proto'.
  rewrite Hl in Hl0. injection Hl0 as <-. eexists. split; [done|]. by apply Hg.
Qed.

Lemma grown_rewrites w proto g st st' :
  rewrites proto g st st' →
  (∀ l p, p ∈ g l → p ∈ l ∨ scraped w proto p) → grown w st st'.
Proof.
  intros [-> | (l & Hl & _ & _ & E)] Hg; [apply grown_refl|].
  intros proto' l0 p. rewrite E, (item_set_item _ _ _ _ _ Hl).
  case_decide as Ep; [|intros Hl0 Hp; left; by exists l0]. subst proto'.
  intros [= <-] [Hp|Hp]%Hg; [|by right]. left. by exists l.
Qed.

(** Steps that leave the sets alone keep a relation that speaks of the
    sets only. *)
Definition of_sets (R : machine → machine → Prop) : Prop :=
  ∀ st st', proxies (self st') = proxies (self st) → R st st'.

Lemma of_sets_emit R e : of_sets R → keeps R (emit e).
Proof. intros HR st. by apply HR. Qed.

Lemma of_sets_count R l : of_sets R → keeps R (set_proxies_count l).
Proof. intros HR st. by apply HR. Qed.

Lemma kept_of_sets : of_sets kept.
Proof. intros st st' E proto l p Hl Hp. rewrite E. by exists l. Qed.

Lemma grown_of_sets w : of_sets (grown w).
Proof. intros st st' E proto l p Hl Hp. rewrite E in Hl. left. by exists l. Qed.

(** X5: the fetch stage only adds to the sets, and only candidates of
    the extractor: every proxy stored before the stage is still in its
    set afterwards, and every proxy in a set afterwards was there before
    or is [Proxy(group(1), group(2))] for a match of the pattern in the
    body a source of that protocol answered, however the stage ends. *)
Theorem X5_fetch_only_adds_scraped (hash : text * text → Z) (w : World) (st : machine) :
  kept st (fetch_all_sources hash w st).2 ∧
  grown w st (fetch_all_sources hash w st).2.
Proof.
  split.
  - apply (keeps_fetch_all hash w kept kept_refl kept_trans).
    + intros e _. apply of_sets_emit, kept_of_sets.
    + intros proto x _ st0. eapply kept_rewrites; [apply add_proxy_rewrites|].
      intros l p Hp. apply elem_of_set_add. by left.
    + intros l. apply of_sets_count, kept_of_sets.
  - apply (keeps_fetch_all hash w (grown w) (grown_refl w) (grown_trans w)).
    + intros e _. apply of_sets_emit, grown_of_sets.
    + intros proto x Hx st0. eapply grown_rewrites; [apply add_proxy_rewrites|].
      intros l p [Hp|[-> _]]%elem_of_set_add; [by left | by right].
    + intros l. apply of_sets_count, grown_of_sets.
Qed.

(** ** One proxy per address *)

(** No set holds two proxies of one address. *)
Definition distinct (st : machine) : Prop :=
  ∀ proto l, item (proxies (self st)) proto = Some l → NoDup (socket_address <$> l).

(** [st'] has the property [I] if [st] has. *)
Definition stays (I : machine → Prop) (st st' : machine) : Prop := I st → I st'.

Lemma stays_refl I st : stays I st st.
Proof. by intros ?. Qed.

Lemma stays_trans I a b c : stays I a b → stays I b c → stays I a c.
Proof. intros Hab Hbc Ha. by apply Hbc, Hab. Qed.

Lemma distinct_of_sets : of_sets (stays distinct).
Proof. intros st st' E Hd proto l. rewrite E. apply Hd. Qed.

Lemma distinct_rewrites proto g st st' :
  rewrites proto g st st' →
  (∀ l, NoDup (socket_address <$> l) → NoDup (socket_address <$> g l)) →
  stays distinct st st'.
Proof.
  intros [-> | (l & Hl & _ & _ & E)] Hg Hd; [done|].
  intros proto' l0. rewrite E, (item_set_item _ _ _ _ _ Hl).
  case_decide as Ep; [|apply Hd]. intros [= <-]. by eapply Hg, Hd.
Qed.

Lemma distinct_add hash proto x : keeps (stays distinct) (add_proxy hash proto x).
Proof.
  intros st. eapply distinct_rewrites; [apply add_proxy_rewrites|].
  intros l. apply set_add_NoDup.
Qed.

Lemma distinct_remove hash proto x : keeps (stays distinct) (remove_proxy hash proto x).
Proof.
  intros st. eapply distinct_rewrites; [apply remove_proxy_rewrites|].
  intros l Hl. eapply sublist_NoDup; [exact Hl|].
  apply fmap_sublist, sublist_filter.
Qed.

Lemma addresses_assign (x : Proxy) (f : Proxy → Proxy) (l : list Proxy) :
  (∀ y, socket_address (f y) = socket_address y) →
  socket_address <$> ((λ y, if bool_decide (socket_address y = socket_address x)
                            then f y else y) <$> l)
  = socket_address <$> l.
Proof.
  intros Hf. rewrite <- list_fmap_compose. apply list_fmap_ext.
  intros i y _. cbn. by case_bool_decide.
Qed.

Lemma distinct_assign proto x f :
  (∀ y, socket_address (f y) = socket_address y ∧ ip (f y) = ip y) →
  keeps (stays distinct) (assign proto x f).
Proof.
  intros Hf st. eapply distinct_rewrites; [apply assign_rewrites|].
  intros l. rewrite addresses_assign; [done|]. intros y. apply Hf.
Qed.

Lemma fetch_stage_distinct hash w : keeps (stays distinct) (fetch_all_sources hash w).
Proof.
  apply (keeps_fetch_all hash w (stays distinct) (stays_refl _) (stays_trans _)).
  - intros e _. apply of_sets_emit, distinct_of_sets.
  - intros proto x _. apply distinct_add.
  - intros l. apply of_sets_count, distinct_of_sets.
Qed.

Lemma check_stage_distinct hash w : keeps (stays distinct) (check_all_proxies hash w).
Proof.
  apply (keeps_check_all hash w (stays distinct) (stays_refl _) (stays_trans _)).
  - intros e _. apply of_sets_emit, distinct_of_sets.
  - apply distinct_remove.
  - apply distinct_assign.
Qed.

(** X6: both stages keep the sets free of repeated addresses: if no set
    holds two proxies of one address before [fetch_all_sources] or
    before [check_all_proxies], none does afterwards, however the stage
    ends. *)
Theorem X6_one_proxy_per_address (hash : text * text → Z) (w : World) (st : machine) :
  distinct st →
  distinct (fetch_all_sources hash w st).2 ∧
  distinct (check_all_proxies hash w st).2.
Proof.
  intros Hd. split; [by apply fetch_stage_distinct | by apply check_stage_distinct].
Qed.

Lemma X6_one_proxy_per_address_witness :
  distinct (fetch_all_sources demo_hash (demo_world lookup_payload) fetched_machine).2 ∧
  distinct (check_all_proxies demo_hash (demo_world lookup_payload) fetched_machine).2.
Proof.
  apply (X6_one_proxy_per_address demo_hash (demo_world lookup_payload) fetched_machine).
  intros proto l. destruct proto; vm_compute; intros [= <-];
    apply (bool_decide_unpack _); vm_compute; exact I.
Defined.

(** ** The fetch stage returns and counts *)

(** The protocols of the sets stay the same. *)
Definition same_keys (st st' : machine) : Prop :=
  (proxies (self st')).*1 = (proxies (self st)).*1.

Lemma same_keys_refl st : same_keys st st.
Proof. done. Qed.

Lemma same_keys_trans a b c : same_keys a b → same_keys b c → same_keys a c.
Proof. unfold same_keys. congruence. Qed.

Lemma same_keys_of_sets : of_sets same_keys.
Proof. intros st st' E. unfold same_keys. by rewrite E. Qed.

Lemma same_keys_rewrites proto g st st' : rewrites proto g st st' → same_keys st st'.
Proof.
  intros [-> | (l & Hl & _ & _ & E)]; [done|]. unfold same_keys.
  rewrite E. by eapply set_item_keys.
Qed.




Lemma same_keys_fetch_source hash w source proto :
  keeps same_keys (fetch_source hash w source proto).
Proof.
  apply (keeps_fetch_source hash w same_keys same_keys_refl same_keys_trans).
  - intros e _. apply of_sets_emit, same_keys_of_sets.
  - intros x _ st. eapply same_keys_rewrites, add_proxy_rewrites.
Qed.


(** The loop that records the counts (lines 268-269). *)
Lemma count_loop (d : list (proto * list Proxy)) st :
  NoDup d.*1 →
  ∃ st', for_each d (λ pp, s ← get;
                      set_proxies_count (set_item (proxies_count s) pp.1 (length pp.2))) st
         = (inr tt, st') ∧
    proxies (self st') = proxies (self st) ∧
    ∀ k, item (proxies_count (self st')) k
         = match item d k with
           | Some l => Some (length l)
           | None => item (proxies_count (self st)) k
           end.
Proof.
  revert st. induction d as [|[k0 l0] d IH]; intros st; [by exists st|].
  cbn [fmap list_fmap fst]. intros [Hk0 Hd]%NoDup_cons. cbn [for_each].
  erewrite bind_ok; [|reflexivity].
  set (st1 := {| self := _; log := _ |}).
  destruct (IH st1 Hd) as (st' & -> & Ep & Ec). exists st'.
  split; [done|]. split; [done|]. intros k. rewrite Ec, item_cons.
  subst st1. cbn [self proxies_count fst snd]. rewrite item_set_item_any.
  case_decide as Ek; [|done]. subst k0.
  apply item_None in Hk0. by rewrite Hk0.
Qed.

Lemma count_loop_log (d : list (proto * list Proxy)) st :
  ∃ st', for_each d (λ pp, s ← get;
                      set_proxies_count (set_item (proxies_count s) pp.1 (length pp.2))) st
         = (inr tt, st') ∧ log st' = log st.
Proof.
  revert st. induction d as [|pp d IH]; intros st; [by exists st|].
  cbn [for_each]. erewrite bind_ok; [|reflexivity].
  set (st1 := {| self := _; log := _ |}).
  destruct (IH st1) as (st' & -> & E). by exists st'.
Qed.




Lemma fetch_counts hash w st p l :
  NoDup (proxies (self st)).*1 →
  (fetch_all_sources hash w st).1 = inr tt →
  item (proxies (self (fetch_all_sources hash w st).2)) p = Some l →
  item (proxies_count (self (fetch_all_sources hash w st).2)) p = Some (length l).
Proof.
  intros Hnd. unfold fetch_all_sources. rewrite (run_bind get). cbn [get].
  destruct (for_each_emit (sources (self st))
              (λ ps, AddTask Scraping ps.1 (length ps.2)) st) as (st0 & E0 & Es0).
  rewrite (bind_ok _ _ _ _ _ E0). rewrite run_bind.
  set (tasks := order w _ _).
  pose proof (keeps_for_each same_keys same_keys_refl same_keys_trans tasks
                (λ c, fetch_source hash w c.1 c.2)
                (λ c, same_keys_fetch_source hash w c.1 c.2) st0) as Hk.
  destruct (for_each tasks _ st0) as [[e|[]] st2]; [done|].
  rewrite (run_bind get). cbn [get fst snd] in *.
  destruct (count_loop (proxies (self st2)) st2) as (st' & -> & Ep & Ec).
  { unfold same_keys in Hk. by rewrite Hk, Es0. }
  cbn [fst snd]. intros _. rewrite Ep, Ec. by intros ->.
Qed.

(** X8: when the fetch stage returns, the count recorded for every
    protocol is the size of its set at that moment. *)
Theorem X8_counts_are_set_sizes (hash : text * text → Z) (w : World) (st : machine)
    (p : proto) (l : list Proxy) :
  NoDup (proxies (self st)).*1 →
  (fetch_all_sources hash w st).1 = inr tt →
  item (proxies (self (fetch_all_sources hash w st).2)) p = Some l →
  item (proxies_count (self (fetch_all_sources hash w st).2)) p = Some (length l).
Proof. apply fetch_counts. Qed.

Lemma X8_counts_are_set_sizes_witness :
  item (proxies_count (self (fetch_all_sources demo_hash (demo_world lookup_payload)
                               {| self := built; log := [] |}).2)) http
  = Some (length [alive; refused; unreachable]).
Proof.
  apply (X8_counts_are_set_sizes demo_hash (demo_world lookup_payload)
           {| self := built; log := [] |} http [alive; refused; unreachable]).
  - apply (bool_decide_unpack _). vm_compute. exact I.
  - vm_compute. reflexivity.
  - vm_compute. reflexivity.
Defined.

(** ** The check stage (lines 211-241, 271-289) *)

(** The lookup was answered, and with nothing to annotate the proxy
    with: a status other than 200, or a status 200 with a payload that
    is falsy (the empty object, [null], [false], zero, an empty string
    or list). *)
Definition answers_nothing (a : answer) : bool :=
  match reply a with
  | inl _ => false
  | inr r =>
      if (status r =? 200)%Z
      then match json r with
           | inr (JObject data) => bool_decide (data = ∅)
           | inr (JOther truthy) => negb truthy
           | inl _ => false
           end
      else true
  end.

Lemma check_proxy_unannotated hash w st protocol l proxy :
  item (proxies (self st)) protocol = Some l →
  answers_nothing (probe w protocol (socket_address proxy)) = true →
  (check_proxy hash w proxy protocol st).1 = inr tt ∧
  log (check_proxy hash w proxy protocol st).2
  = log st ++ [Probe protocol (socket_address proxy); Advance Checking protocol] ∧
  item (proxies (self (check_proxy hash w proxy protocol st).2)) protocol
  = Some ((λ y, if bool_decide (socket_address y = socket_address proxy)
                then set_timeout (finish (probe w protocol (socket_address proxy))
                                  - start (probe w protocol (socket_address proxy)))%float y
                else y) <$> l).
Proof.
  intros Hl Ha. unfold check_proxy, answers_nothing in *.
  set (a := probe w protocol (socket_address proxy)) in *.
  erewrite bind_ok; [|reflexivity].
  set (st1 := {| self := self st; log := _ |}).
  destruct (assign_run protocol proxy (set_timeout (finish a - start a)%float)
              st1 l Hl) as (st2 & E2 & Elog & Hl2).
  assert (∀ k : M unit, k st2 = (inr tt, st2) →
    ((_ ← (_ ← assign protocol proxy (set_timeout (finish a - start a)%float); k);
      emit (Advance Checking protocol)) st1)
    = (inr tt, {| self := self st2; log := log st2 ++ [Advance Checking protocol] |}))
    as Hrun.
  { intros k Hk. rewrite run_bind, (bind_ok _ _ _ _ _ E2), Hk. reflexivity. }
  destruct (reply a) as [e|r]; [done|].
  destruct (status r =? 200)%Z; [destruct (json r) as [e|[data|[|]]]; try done|];
    try case_bool_decide; try done;
    (rewrite Hrun by reflexivity; cbn [fst snd self log];
     split; [done|]; split; [|exact Hl2];
     rewrite Elog; subst st1; cbn [log]; by rewrite <- app_assoc).
Qed.

(** X9: a check whose lookup is answered with a status other than 200,
    or with a falsy payload, returns, logs the probe and the progress
    step and nothing else, and leaves the proxy in its set with the
    elapsed time as its timeout and its other fields as they were. *)
Theorem X9_unannotated_check (hash : text * text → Z) (w : World) (st : machine)
    (protocol : proto) (l : list Proxy) (proxy : Proxy) :
  item (proxies (self st)) protocol = Some l →
  answers_nothing (probe w protocol (socket_address proxy)) = true →
  (check_proxy hash w proxy protocol st).1 = inr tt ∧
  log (check_proxy hash w proxy protocol st).2
  = log st ++ [Probe protocol (socket_address proxy); Advance Checking protocol] ∧
  item (proxies (self (check_proxy hash w proxy protocol st).2)) protocol
  = Some ((λ y, if bool_decide (socket_address y = socket_address proxy)
                then set_timeout (finish (probe w protocol (socket_address proxy))
                                  - start (probe w protocol (socket_address proxy)))%float y
                else y) <$> l).
Proof. apply check_proxy_unannotated. Qed.

Lemma X9_unannotated_check_witness :
  (check_proxy demo_hash (demo_world lookup_payload) refused http fetched_machine).1
  = inr tt ∧
  log (check_proxy demo_hash (demo_world lookup_payload) refused http fetched_machine).2
  = log fetched_machine
    ++ [Probe http (socket_address refused); Advance Checking http] ∧
  item (proxies (self (check_proxy demo_hash (demo_world lookup_payload) refused http
                         fetched_machine).2)) http
  = Some ((λ y, if bool_decide (socket_address y = socket_address refused)
                then set_timeout
                       (finish (probe (demo_world lookup_payload) http
                                  (socket_address refused))
                        - start (probe (demo_world lookup_payload) http
                                   (socket_address refused)))%float y
                else y) <$> [alive; refused; unreachable]).
Proof.
  apply (X9_unannotated_check demo_hash (demo_world lookup_payload) fetched_machine
           http [alive; refused; unreachable] refused).
  - reflexivity.
  - vm_compute. reflexivity.
Defined.

Lemma check_all_returns_distinct hash w st :
  fault w Retrieve = None →
  sem (self st) ≠ 0%Z →
  (∀ tasks : list (Proxy * proto), order w _ tasks ≡ₚ tasks) →
  NoDup (proxies (self st)).*1 →
  distinct st →
  (∀ c, c ∈ coroutines (self st) →
        crashes (probe w c.2 (socket_address c.1)) = false) →
  (check_all_proxies hash w st).1 = inr tt.
Proof.
  intros Hfault Hsem Hperm Hkeys Hd Hcrash.
  apply check_all_returns; try done.
  unfold coroutines.
  assert (∀ dict : list (proto * list Proxy),
            NoDup dict.*1 →
            (∀ p l, (p, l) ∈ dict → NoDup (socket_address <$> l)) →
            NoDup ((λ c : Proxy * proto, (c.2, socket_address c.1))
                     <$> (pp ← dict; proxy ← pp.2; [(proxy, pp.1)]))) as Hnd.
  { clear. intros dict. induction dict as [|[p l] dict IH]; [constructor|].
    cbn [fmap list_fmap fst]. intros [Hp Hk]%NoDup_cons Hl.
    cbn [mbind list_bind snd fst]. rewrite fmap_app. apply NoDup_app.
    split; [|split].
    - assert ((λ c : Proxy * proto, (c.2, socket_address c.1))
                <$> (proxy ← l; [(proxy, p)])
              = (λ a, (p, a)) <$> (socket_address <$> l)) as ->.
      { clear. induction l as [|y l IH]; [done|]. cbn. by f_equal. }
      apply NoDup_fmap_2; [by intros ?? [= ->]|].
      apply (Hl p l), list_elem_of_here.
    - intros [p' a] (c & [= -> ->] & Hc)%list_elem_of_fmap
             (c' & [= E1 E2] & Hc')%list_elem_of_fmap.
      apply list_elem_of_bind in Hc as (y & Hy & _).
      apply list_elem_of_singleton in Hy as ->. cbn in *.
      apply list_elem_of_bind in Hc' as ([p'' l''] & Hc' & Hin).
      apply list_elem_of_bind in Hc' as (y' & Hy' & _).
      apply list_elem_of_singleton in Hy' as ->. cbn in *. subst p''.
      apply Hp. by apply (list_elem_of_fmap_2 fst _ _ Hin).
    - apply IH; [done|]. intros p' l' Hin. apply (Hl p' l').
      by apply list_elem_of_further. }
  apply Hnd; [done|]. intros p l Hin. apply (Hd p). by apply item_NoDup.
Qed.

(** X10: the check stage returns normally, however the lookups end, when
    the download does not fault, the semaphore has a permit, gathering
    runs every check once, no set holds two proxies of one address, and
    no lookup answers status 200 with a truthy JSON value that is not an
    object. *)
Theorem X10_check_stage_returns (hash : text * text → Z) (w : World) (st : machine) :
  fault w Retrieve = None →
  sem (self st) ≠ 0%Z →
  (∀ tasks : list (Proxy * proto), order w _ tasks ≡ₚ tasks) →
  NoDup (proxies (self st)).*1 →
  distinct st →
  (∀ c, c ∈ coroutines (self st) →
        crashes (probe w c.2 (socket_address c.1)) = false) →
  (check_all_proxies hash w st).1 = inr tt.
Proof. apply check_all_returns_distinct. Qed.

Lemma X10_check_stage_returns_witness :
  (check_all_proxies demo_hash (demo_world lookup_payload) fetched_machine).1 = inr tt.
Proof.
  apply (X10_check_stage_returns demo_hash (demo_world lookup_payload) fetched_machine).
  - reflexivity.
  - done.
  - intros tasks. apply Permutation_sym, Permutation_rev.
  - apply (bool_decide_unpack _). vm_compute. exact I.
  - intros p l. destruct p; vm_compute; intros [= <-];
      apply (bool_decide_unpack _); vm_compute; exact I.
  - intros c Hc. vm_compute in Hc.
    repeat (apply elem_of_cons in Hc as [->|Hc]; [reflexivity|]).
    by apply elem_of_nil in Hc.
Defined.

(** *** One probe per check *)





Lemma logs_rewrites P proto g st st' : rewrites proto g st st' → logs P st st'.
Proof.
  intros [-> | (l & _ & E & _)]; [apply logs_refl|].
  exists []. by rewrite app_nil_r.
Qed.





(** ** The run (lines 310-332) *)

(** No set is larger than it was. *)
Definition shrunk (st st' : machine) : Prop :=
  ∀ p l', item (proxies (self st')) p = Some l' →
    ∃ l, item (proxies (self st)) p = Some l ∧ (length l' ≤ length l)%nat.

Definition same_counts (st st' : machine) : Prop :=
  proxies_count (self st') = proxies_count (self st).

Lemma shrunk_refl st : shrunk st st.
Proof. intros p l Hl. by exists l. Qed.

Lemma shrunk_trans a b c : shrunk a b → shrunk b c → shrunk a c.
Proof.
  intros Hab Hbc p l Hl. destruct (Hbc p l Hl) as (l1 & Hl1 & H1).
  destruct (Hab p l1 Hl1) as (l0 & Hl0 & H0). exists l0. split; [done | lia].
Qed.

Lemma shrunk_of_sets : of_sets shrunk.
Proof. intros st st' E p l. rewrite E. intros Hl. by exists l. Qed.

Lemma shrunk_rewrites proto g st st' :
  rewrites proto g st st' → (∀ l, (length (g l) ≤ length l)%nat) → shrunk st st'.
Proof.
  intros [-> | (l & Hl & _ & _ & E)] Hg; [apply shrunk_refl|].
  intros p l0. rewrite E, (item_set_item _ _ _ _ _ Hl).
  case_decide as Ep; [|intros Hl0; by exists l0]. subst p.
  intros [= <-]. by exists l.
Qed.

Lemma same_counts_rewrites proto g st st' : rewrites proto g st st' → same_counts st st'.
Proof. by intros [-> | (l & _ & _ & E & _)]. Qed.

Lemma check_stage_shrinks hash w : keeps shrunk (check_all_proxies hash w).
Proof.
  apply (keeps_check_all hash w shrunk shrunk_refl shrunk_trans).
  - intros e _. apply of_sets_emit, shrunk_of_sets.
  - intros proto x st. eapply shrunk_rewrites; [apply remove_proxy_rewrites|].
    intros l. apply length_filter.
  - intros proto x f _ st. eapply shrunk_rewrites; [apply assign_rewrites|].
    intros l. by rewrite length_fmap.
Qed.

Lemma check_stage_counts hash w : keeps same_counts (check_all_proxies hash w).
Proof.
  apply (keeps_check_all hash w same_counts); [done | | | |].
  - unfold same_counts. congruence.
  - by intros e _ st.
  - intros proto x st. eapply same_counts_rewrites, remove_proxy_rewrites.
  - intros proto x f _ st. eapply same_counts_rewrites, assign_rewrites.
Qed.

Lemma check_stage_keys hash w : keeps same_keys (check_all_proxies hash w).
Proof.
  apply (keeps_check_all hash w same_keys same_keys_refl same_keys_trans).
  - intros e _. apply of_sets_emit, same_keys_of_sets.
  - intros proto x st. eapply same_keys_rewrites, remove_proxy_rewrites.
  - intros proto x f _ st. eapply same_keys_rewrites, assign_rewrites.
Qed.

Lemma fetch_stage_keys hash w : keeps same_keys (fetch_all_sources hash w).
Proof.
  apply (keeps_fetch_all hash w same_keys same_keys_refl same_keys_trans).
  - intros e _. apply of_sets_emit, same_keys_of_sets.
  - intros proto x _ st. eapply same_keys_rewrites, add_proxy_rewrites.
  - intros l. apply of_sets_count, same_keys_of_sets.
Qed.

Lemma silent_logs P st st' : log st' = log st → logs P st st'.
Proof. intros E. exists []. by rewrite app_nil_r. Qed.

Lemma fetch_stage_logs hash w : keeps (logs scraping) (fetch_all_sources hash w).
Proof.
  apply (keeps_fetch_all hash w (logs scraping) (logs_refl _) (logs_trans _)).
  - intros e He. by apply logs_emit.
  - intros proto x _ st. eapply logs_rewrites, add_proxy_rewrites.
  - intros l st. by apply silent_logs.
Qed.

Lemma check_stage_logs hash w : keeps (logs checking) (check_all_proxies hash w).
Proof.
  apply (keeps_check_all hash w (logs checking) (logs_refl _) (logs_trans _)).
  - intros e He. by apply logs_emit.
  - intros proto x st. eapply logs_rewrites, remove_proxy_rewrites.
  - intros proto x f _ st. eapply logs_rewrites, assign_rewrites.
Qed.

Lemma save_logs w st : logs writing st (save_proxies w st).2.
Proof.
  destruct (save_proxies_logs w st) as (new & E & Hnew). exists new.
  split; [done|]. eapply Forall_impl; [exact Hnew|]. by intros [].
Qed.

(** The rows of the table [main] prints: protocol, working, total. *)
Definition table (s : ProxyScraperChecker) : list (proto * nat * nat) :=
  (λ pp, (pp.1, length pp.2, default 0%nat (item (proxies_count s) pp.1))) <$> proxies s.

(** [main] stage by stage. *)
Lemma main_unfold hash w st :
  main hash w st
  = match fetch_all_sources hash w st with
    | (inl e, st1) => (inl e, st1)
    | (inr _, st1) =>
        match check_all_proxies hash w st1 with
        | (inl e, st2) => (inl e, st2)
        | (inr _, st2) =>
            match save_proxies w {| self := self st2;
                                    log := log st2 ++ [PrintTable (table (self st2))] |} with
            | (inl e, st3) => (inl e, st3)
            | (inr _, st3) =>
                (inr tt, {| self := self st3;
                            log := log st3 ++ [PrintSaved (save_path (self st3))] |})
            end
        end
    end.
Proof.
  unfold main. rewrite run_bind.
  destruct (fetch_all_sources hash w st) as [[e|[]] st1]; [done|].
  rewrite run_bind.
  destruct (check_all_proxies hash w st1) as [[e|[]] st2]; [done|].
  rewrite (run_bind get). cbn [get]. erewrite bind_ok; [|reflexivity].
  rewrite run_bind. unfold table.
  by destruct (save_proxies w _) as [[e|[]] st3].
Qed.

(** X12: the stages of a run follow each other without overlap: what
    [main] adds to the log is the events of the fetch stage (tasks,
    requests to sources, messages, progress), then those of the check
    stage (tasks, the download, lookups, messages, progress), then the
    table and the events of writing the output; no source is requested
    once a proxy has been looked up, and no output folder is removed or
    created and no output file written before the last lookup. *)
Theorem X12_stages_in_order (hash : text * text → Z) (w : World) (st : machine) :
  ∃ l1 l2 l3, log (main hash w st).2 = log st ++ l1 ++ l2 ++ l3 ∧
    Forall scraping l1 ∧ Forall checking l2 ∧ Forall writing l3.
Proof.
  rewrite main_unfold.
  destruct (fetch_stage_logs hash w st) as (l1 & E1 & H1).
  destruct (fetch_all_sources hash w st) as [[e|[]] st1].
  { exists l1, [], []. by rewrite !app_nil_r. }
  cbn [snd] in E1.
  destruct (check_stage_logs hash w st1) as (l2 & E2 & H2).
  destruct (check_all_proxies hash w st1) as [[e|[]] st2].
  { exists l1, l2, []. rewrite !app_nil_r. cbn [snd] in *. by rewrite E2, E1, app_assoc. }
  cbn [snd] in E2.
  set (st2' := {| self := self st2; log := _ |}).
  destruct (save_logs w st2') as (l3 & E3 & H3).
  assert (log st2' = log st ++ l1 ++ l2 ++ [PrintTable (table (self st2))]) as E2'.
  { subst st2'. cbn [log]. by rewrite E2, E1, !app_assoc. }
  destruct (save_proxies w st2') as [[e|[]] st3]; cbn [snd log] in *.
  - exists l1, l2, (PrintTable (table (self st2)) :: l3).
    split; [|by repeat (split || constructor)].
    rewrite E3, E2'. by rewrite <- !app_assoc.
  - exists l1, l2, (PrintTable (table (self st2)) :: l3
                    ++ [PrintSaved (save_path (self st3))]).
    split.
    + rewrite E3, E2'. by rewrite <- !app_assoc.
    + split; [done|]. split; [done|]. constructor; [done|].
      apply Forall_app. split; [done | by repeat constructor].
Qed.

Lemma checked_counts hash w st p l :
  NoDup (proxies (self st)).*1 →
  (fetch_all_sources hash w st).1 = inr tt →
  item (proxies (self (check_all_proxies hash w (fetch_all_sources hash w st).2).2)) p
  = Some l →
  ∃ n, item (proxies_count
               (self (check_all_proxies hash w (fetch_all_sources hash w st).2).2)) p
       = Some n ∧ (length l ≤ n)%nat.
Proof.
  intros Hnd Hdone Hl.
  destruct (check_stage_shrinks hash w _ p l Hl) as (l1 & Hl1 & Hle).
  exists (length l1). split; [|done].
  rewrite (check_stage_counts hash w _). by apply fetch_counts.
Qed.

(** X13: in the table a run prints, the number of working proxies of a
    protocol is never above the total found for it. *)
Theorem X13_working_at_most_total (hash : text * text → Z) (w : World) (cfg : Config.t)
    (rows : list (proto * nat * nat)) (p : proto) (working total : nat) :
  PrintTable rows ∈ (run hash w cfg).2 →
  (p, working, total) ∈ rows →
  (working ≤ total)%nat.
Proof.
  unfold run. destruct (ProxyScraperChecker_init cfg) as [e|s] eqn:Hs;
    [by intros ?%elem_of_nil|].
  cbn [snd]. set (st := {| self := s; log := [] |}).
  destruct (init_keys cfg s Hs) as [Hnd _].
  pose proof (checked_counts hash w st) as Hcount.
  pose proof (fetch_stage_keys hash w st) as Hk1.
  rewrite main_unfold.
  destruct (fetch_stage_logs hash w st) as (l1 & E1 & H1).
  change (log st) with (@nil event) in E1. cbn [app] in E1.
  destruct (fetch_all_sources hash w st) as [[e|[]] st1]; cbn [fst snd] in *.
  { rewrite E1. intros Hin%(proj1 (Forall_forall _ _) H1). done. }
  pose proof (check_stage_keys hash w st1) as Hk2.
  destruct (check_stage_logs hash w st1) as (l2 & E2 & H2).
  destruct (check_all_proxies hash w st1) as [[e|[]] st2]; cbn [fst snd] in *.
  { rewrite E2, E1. intros [Hin|Hin]%elem_of_app.
    - by apply (proj1 (Forall_forall _ _) H1) in Hin.
    - by apply (proj1 (Forall_forall _ _) H2) in Hin. }
  set (st2' := {| self := self st2; log := _ |}).
  destruct (save_proxies_logs w st2') as (l3 & E3 & H3).
  assert (PrintTable rows ∈ log (save_proxies w st2').2 ++
                            [PrintSaved (save_path (self (save_proxies w st2').2))] →
          rows = table (self st2)) as Hrows.
  { rewrite E3. subst st2'. cbn [log]. rewrite E2, E1. cbn [app].
    rewrite !elem_of_app, !list_elem_of_singleton.
    intros [[[[Hin|Hin]|Hin]|Hin]|Hin]; try done.
    - by apply (proj1 (Forall_forall _ _) H1) in Hin.
    - by apply (proj1 (Forall_forall _ _) H2) in Hin.
    - congruence.
    - by apply (proj1 (Forall_forall _ _) H3) in Hin. }
  intros Hin Hrow.
  assert (rows = table (self st2)) as ->.
  { apply Hrows. destruct (save_proxies w st2') as [[e|[]] st3]; cbn [snd log] in *;
      [apply elem_of_app; by left | done]. }
  apply list_elem_of_fmap in Hrow as ([p' l] & [= -> -> ->] & Hpl). cbn [fst snd].
  assert (item (proxies (self st2)) p' = Some l) as Hl.
  { apply item_NoDup; [|done]. unfold same_keys in *. by rewrite Hk2, Hk1. }
  destruct (Hcount p' l Hnd eq_refl Hl) as (n & -> & Hle). done.
Qed.

Lemma X13_working_at_most_total_witness :
  PrintTable [(http, 2%nat, 3%nat)]
  ∈ (run demo_hash (demo_world lookup_payload) (demo_cfg false)).2 ∧
  (2 ≤ 3)%nat.
Proof.
  assert (PrintTable [(http, 2%nat, 3%nat)]
          ∈ (run demo_hash (demo_world lookup_payload) (demo_cfg false)).2) as Hin.
  { vm_compute. repeat first [apply list_elem_of_here | apply list_elem_of_further]. }
  split; [exact Hin|].
  apply (X13_working_at_most_total demo_hash (demo_world lookup_payload) (demo_cfg false)
           [(http, 2%nat, 3%nat)] http 2%nat 3%nat Hin).
  apply list_elem_of_here.
Defined.

(** ** Sorting (lines 81-86, 334-342) *)

Section SortedMore.
Context {A K : Type} (lt : K → K → bool).

Lemma keyed_spec (key : A → option K) (l : list A) keyed :
  mapM (λ a, k ← key a; Some (k, a)) l = Some keyed →
  keyed.*2 = l ∧ Forall (λ ka, key ka.2 = Some ka.1) keyed.
Proof.
  intros H%mapM_Some. induction H as [|a [k a'] l keyed Ha _ [IH1 IH2]]; [done|].
  destruct (key a) as [k'|] eqn:E; [|done]. cbn in Ha. injection Ha as <- <-.
  cbn [fmap list_fmap snd]. split; [by rewrite IH1 | by constructor].
Qed.

(** [sorted] loses and repeats nothing. *)
Lemma sorted_perm (key : A → option K) (l out : list A) :
  sorted lt key l = Some out → out ≡ₚ l.
Proof.
  unfold sorted. destruct (mapM _ l) as [keyed|] eqn:E; [|done].
  intros [= <-]. apply keyed_spec in E as [<- _].
  by rewrite (sort_keyed_perm lt).
Qed.

(** Elements of a class of keys within which none is less than another
    keep their order. *)
Section Stable.
Variable P : K → Prop.
Context `{∀ k, Decision (P k)}.
Hypothesis P_ties : ∀ a b, P a → P b → lt a b = false.

Lemma insert_by_stable (x : K * A) l :
  filter (λ y, P y.1) (insert_by lt x l) = filter (λ y, P y.1) (x :: l).
Proof.
  induction l as [|y l IH]; [done|]. cbn [insert_by].
  destruct (lt y.1 x.1) eqn:E; [|done].
  rewrite filter_cons, IH, !(filter_cons _ x), (filter_cons _ y).
  destruct (decide (P y.1)) as [Hy|Hy], (decide (P x.1)) as [Hx|Hx]; try done.
  by rewrite (P_ties _ _ Hy Hx) in E.
Qed.

Lemma sort_keyed_stable (l : list (K * A)) :
  filter (λ y, P y.1) (sort_keyed lt l) = filter (λ y, P y.1) l.
Proof.
  induction l as [|x l IH]; [done|]. cbn [sort_keyed foldr].
  rewrite insert_by_stable, !filter_cons. fold (sort_keyed lt l). by rewrite IH.
Qed.

(** The key of [a] is in the class. *)
Definition keyed_in (key : A → option K) (a : A) : Prop :=
  match key a with Some k => P k | None => False end.

Global Instance keyed_in_dec key a : Decision (keyed_in key a).
Proof. unfold keyed_in. destruct (key a); apply _. Defined.

Lemma sorted_stable (key : A → option K) (l out : list A) :
  sorted lt key l = Some out →
  filter (keyed_in key) out = filter (keyed_in key) l.
Proof.
  unfold sorted. destruct (mapM _ l) as [keyed|] eqn:E; [|done].
  intros [= <-]. apply keyed_spec in E as [<- Hk].
  assert (∀ L : list (K * A), Forall (λ ka, key ka.2 = Some ka.1) L →
            filter (keyed_in key) L.*2 = (filter (λ y, P y.1) L).*2) as Hf.
  { induction 1 as [|[k a] L Hka _ IH]; [done|]. cbn [fmap list_fmap snd].
    rewrite !filter_cons, IH. cbn [fst snd] in *.
    destruct (decide (P k)) as [Hp|Hp].
    - rewrite decide_True; [done|]. unfold keyed_in. by rewrite Hka.
    - rewrite decide_False; [done|]. unfold keyed_in. by rewrite Hka. }
  rewrite !Hf; [by rewrite sort_keyed_stable | done |].
  by rewrite (sort_keyed_perm lt).
Qed.
End Stable.

(** With a key that never fails, so does [sorted]. *)
Lemma sorted_total (key : A → K) (l : list A) :
  is_Some (sorted lt (λ a, Some (key a)) l).
Proof.
  unfold sorted.
  assert (is_Some (mapM (λ a, k ← Some (key a); Some (k, a)) l)) as [keyed ->];
    [|by eexists].
  induction l as [|a l [keyed IH]]; [by eexists|]. cbn [mapM]. rewrite IH. by eexists.
Qed.

(** The order of the result, when the keys at hand are of a domain on
    which [lt] is a strict weak order. *)
Section Ordered.
Variable D : K → Prop.
Hypothesis lt_asym : ∀ a b, lt a b = true → lt b a = false.
Hypothesis lt_negtrans :
  ∀ a b c, D b → lt b a = false → lt c b = false → lt c a = false.

Lemma insert_by_sorted_on (x : K * A) l :
  Forall (λ y, D y.1) l →
  StronglySorted (not_after lt) l → StronglySorted (not_after lt) (insert_by lt x l).
Proof.
  induction l as [|y l IH]; intros HD Hl; cbn [insert_by].
  - repeat constructor.
  - apply Forall_cons in HD as [Dy HD].
    apply StronglySorted_cons in Hl as [Hy Hl].
    destruct (lt y.1 x.1) eqn:E; apply StronglySorted_cons.
    + split; [|by apply IH]. rewrite insert_by_perm.
      constructor; [|done]. by apply lt_asym.
    + split; [|by apply StronglySorted_cons]. constructor; [done|].
      eapply Forall_impl; [exact Hy|]. intros z Hz. unfold not_after in *.
      by eapply lt_negtrans.
Qed.

Lemma sort_keyed_sorted_on (l : list (K * A)) :
  Forall (λ y, D y.1) l → StronglySorted (not_after lt) (sort_keyed lt l).
Proof.
  induction 1 as [|x l Hx Hl IH]; [constructor|]. cbn [sort_keyed foldr].
  apply insert_by_sorted_on; [|done]. fold (sort_keyed lt l).
  by rewrite sort_keyed_perm.
Qed.

Lemma sorted_ordered_on (key : A → K) (l : list A) :
  Forall (λ a, D (key a)) l →
  ∃ out, sorted lt (λ a, Some (key a)) l = Some out ∧
    ∀ i j a b, (i < j)%nat → out !! i = Some a → out !! j = Some b →
      lt (key b) (key a) = false.
Proof.
  intros HD. destruct (sorted_total key l) as [out0 E0]. revert E0.
  unfold sorted.
  destruct (mapM (λ a, k ← Some (key a); Some (k, a)) l) as [keyed|] eqn:E; [|done].
  intros _.
  apply keyed_spec in E as [<- Hk]. eexists. split; [done|].
  intros i j a b Hij Hi Hj.
  apply list_lookup_fmap_Some in Hi as ([ka a'] & -> & Hi).
  apply list_lookup_fmap_Some in Hj as ([kb b'] & -> & Hj).
  assert (Forall (λ ka, Some (key ka.2) = Some ka.1) (sort_keyed lt keyed)) as Hk'
    by by rewrite sort_keyed_perm.
  rewrite Forall_forall in Hk'.
  pose proof (Hk' _ (list_elem_of_lookup_2 _ _ _ Hi)) as [= Ea].
  pose proof (Hk' _ (list_elem_of_lookup_2 _ _ _ Hj)) as [= Eb].
  cbn [fst snd] in *. rewrite Ea, Eb.
  refine (StronglySorted_lookup lt _ _ _ (ka, a') (kb, b') _ Hij Hi Hj).
  apply sort_keyed_sorted_on.
  apply Forall_forall. intros [k a] Hin. cbn.
  rewrite Forall_forall in Hk. specialize (Hk _ Hin). cbn in Hk. injection Hk as <-.
  rewrite Forall_forall in HD. apply HD.
  by apply (list_elem_of_fmap_2 snd _ _ Hin).
Qed.
End Ordered.
End SortedMore.

(** [<] on floats: irreflexive, asymmetric, and a weak order away from
    NaN. *)
Lemma SFltb_irrefl a : SFltb a a = false.
Proof.
  destruct a as [s|s| |s m e]; try (by destruct s); [done|].
  unfold SFltb, SFcompare. rewrite Z.compare_refl, Pos.compare_cont_refl.
  by destruct s.
Qed.

Lemma SFltb_asym a b : SFltb a b = true → SFltb b a = false.
Proof.
  unfold SFltb.
  destruct a as [sa|sa| |sa ma ea], b as [sb|sb| |sb mb eb]; cbn;
    try (destruct sa); try (destruct sb); try done;
    change (Pos.compare_cont Eq) with Pos.compare;
    repeat match goal with
    | |- context [(?x ?= ?y)%Z] => destruct (Z.compare_spec x y)
    | |- context [(?x ?= ?y)%positive] => destruct (Pos.compare_spec x y)
    end; cbn; try done; lia.
Qed.

Lemma SFltb_negtrans a b c :
  b ≠ S754_nan → SFltb b a = false → SFltb c b = false → SFltb c a = false.
Proof.
  unfold SFltb. intros Hb.
  destruct a as [sa|sa| |sa ma ea], b as [sb|sb| |sb mb eb], c as [sc|sc| |sc mc ec];
    try done; cbn;
    try (destruct sa); try (destruct sb); try (destruct sc); try done;
    change (Pos.compare_cont Eq) with Pos.compare;
    repeat match goal with
    | |- context [(?x ?= ?y)%Z] => destruct (Z.compare_spec x y)
    | |- context [(?x ?= ?y)%positive] => destruct (Pos.compare_spec x y)
    end; cbn; try done; try lia.
Qed.

Lemma SFleb_of_not_ltb a b :
  a ≠ S754_nan → b ≠ S754_nan → SFltb b a = false → SFleb a b = true.
Proof.
  unfold SFltb, SFleb. intros Ha Hb.
  destruct a as [sa|sa| |sa ma ea], b as [sb|sb| |sb mb eb];
    try done; cbn;
    try (destruct sa); try (destruct sb); try done;
    change (Pos.compare_cont Eq) with Pos.compare;
    repeat match goal with
    | |- context [(?x ?= ?y)%Z] => destruct (Z.compare_spec x y)
    | |- context [(?x ?= ?y)%positive] => destruct (Pos.compare_spec x y)
    end; cbn; try done; try lia.
Qed.

Lemma is_nan_Prim2SF x : PrimFloat.is_nan x = false → Prim2SF x ≠ S754_nan.
Proof.
  unfold PrimFloat.is_nan. rewrite FloatAxioms.eqb_spec. intros H E.
  by rewrite E in H.
Qed.

Lemma ltb_irrefl (a : float) : PrimFloat.ltb a a = false.
Proof. rewrite FloatAxioms.ltb_spec. apply SFltb_irrefl. Qed.

Lemma ltb_asym (a b : float) : PrimFloat.ltb a b = true → PrimFloat.ltb b a = false.
Proof. rewrite !FloatAxioms.ltb_spec. apply SFltb_asym. Qed.

Lemma ltb_negtrans (a b c : float) :
  PrimFloat.is_nan b = false →
  PrimFloat.ltb b a = false → PrimFloat.ltb c b = false → PrimFloat.ltb c a = false.
Proof.
  intros Hb%is_nan_Prim2SF. rewrite !FloatAxioms.ltb_spec. by apply SFltb_negtrans.
Qed.

Lemma tuple_lt_irrefl a : tuple_lt a a = false.
Proof. induction a as [|x a IH]; [done|]. cbn. by rewrite Z.eqb_refl. Qed.

Global Instance float_eq_dec : EqDecision float.
Proof.
  intros x y. destruct (PrimFloat.Leibniz.eqb x y) eqn:E.
  - left. by apply FloatAxioms.Leibniz.eqb_spec.
  - right. intros H%FloatAxioms.Leibniz.eqb_spec. congruence.
Defined.

Lemma sorted_proxies_lookup s res i p l :
  sorted_proxies s = Some res → proxies s !! i = Some (p, l) →
  ∃ out, res !! i = Some (p, out) ∧
    (if sort_by_speed s
     then sorted PrimFloat.ltb (λ x, Some (speed_sorting_key x)) l
     else sorted tuple_lt alphabet_sorting_key l) = Some out.
Proof.
  unfold sorted_proxies. intros H%mapM_Some Hi.
  destruct (Forall2_lookup_l _ _ _ _ _ H Hi) as ([p' out] & Hres & Hout).
  cbn [fst snd] in Hout.
  destruct (if sort_by_speed s then _ else _) as [out'|]; [|done].
  cbn in Hout. injection Hout as <- <-. by exists out'.
Qed.

(** X14: sorting rearranges and nothing else: the sorted dictionary has
    the protocols of the sets in their order, each with a permutation of
    its set, whichever key is used; and sorting by speed never fails. *)
Theorem X14_sorting_rearranges (s : ProxyScraperChecker) :
  (sort_by_speed s = true → is_Some (sorted_proxies s)) ∧
  (∀ res, sorted_proxies s = Some res →
     Forall2 (λ pp out, out.1 = pp.1 ∧ out.2 ≡ₚ pp.2) (proxies s) res).
Proof.
  unfold sorted_proxies. split.
  - intros ->. induction (proxies s) as [|[p l] d IH]; [done|].
    cbn [mapM]. destruct IH as [res ->]. cbn [fst snd].
    destruct (sorted_total PrimFloat.ltb speed_sorting_key l) as [out ->].
    by eexists.
  - intros res H%mapM_Some. eapply Forall2_impl; [exact H|].
    intros [p l] [p' out]. cbn [fst snd].
    destruct (sort_by_speed s).
    + destruct (sorted _ _ l) as [out'|] eqn:E; [|done]. intros [= <- <-].
      split; [done|]. by eapply sorted_perm.
    + destruct (sorted _ _ l) as [out'|] eqn:E; [|done]. intros [= <- <-].
      split; [done|]. by eapply sorted_perm.
Qed.

(** X15: sorting is stable: within a protocol, the proxies of one key
    (one timeout when sorting by speed, one address tuple otherwise)
    come out in the order the set had them in.  For the sort by speed
    this is said of sets without a NaN timeout. *)
Theorem X15_equal_keys_keep_order (s : ProxyScraperChecker)
    (res : list (proto * list Proxy)) (i : nat) (p : proto) (l : list Proxy) :
  (sort_by_speed s = true →
   ∀ p l x, (p, l) ∈ proxies s → x ∈ l → PrimFloat.is_nan (timeout x) = false) →
  sorted_proxies s = Some res →
  proxies s !! i = Some (p, l) →
  ∃ out, res !! i = Some (p, out) ∧
    if sort_by_speed s
    then ∀ t, filter (λ x, timeout x = t) out = filter (λ x, timeout x = t) l
    else ∀ k, filter (λ x, alphabet_sorting_key x = Some k) out
              = filter (λ x, alphabet_sorting_key x = Some k) l.
Proof.
  intros _ Hres Hi.
  destruct (sorted_proxies_lookup s res i p l Hres Hi) as (out & Hout & Hsorted).
  exists out. split; [done|]. destruct (sort_by_speed s).
  - intros t.
    pose proof (sorted_stable PrimFloat.ltb (λ t', t' = t)
                  (λ a b Ha Hb, eq_trans (f_equal2 PrimFloat.ltb Ha Hb) (ltb_irrefl t))
                  _ l out Hsorted) as E.
    erewrite (list_filter_iff _ (keyed_in (λ t', t' = t) _) out),
             (list_filter_iff _ (keyed_in (λ t', t' = t) _) l); [exact E|done..].
  - intros k.
    pose proof (sorted_stable tuple_lt (λ k', k' = k)
                  (λ a b Ha Hb, eq_trans (f_equal2 tuple_lt Ha Hb) (tuple_lt_irrefl k))
                  _ l out Hsorted) as E.
    assert (∀ x, alphabet_sorting_key x = Some k
                 ↔ keyed_in (λ k', k' = k) alphabet_sorting_key x) as Hiff.
    { intros x. unfold keyed_in.
      destruct (alphabet_sorting_key x); split; intros ?; first [congruence | done]. }
    by rewrite !(list_filter_iff _ _ _ Hiff).
Qed.

(** Three checked proxies, the last two with one timeout, in a set that
    lists the slowest first. *)
Definition tied : ProxyScraperChecker :=
  {| all_folders := []; enabled_folders := []; save_path := Path_of [];
     proxies_count := [];
     proxies :=
       [(http, [set_timeout 2.5 (Proxy_init (str "9.9.9.9:80") (str "9.9.9.9"));
                set_timeout 0.5 (Proxy_init (str "1.2.3.4:81") (str "1.2.3.4"));
                set_timeout 0.5 (Proxy_init (str "1.2.3.4:80") (str "1.2.3.4"))])];
     sort_by_speed := true; sources := [];
     request_timeout := 1%float; sem := 1 |}.

Lemma X15_equal_keys_keep_order_witness :
  ∃ out, [(http, [set_timeout 0.5 (Proxy_init (str "1.2.3.4:81") (str "1.2.3.4"));
                  set_timeout 0.5 (Proxy_init (str "1.2.3.4:80") (str "1.2.3.4"));
                  set_timeout 2.5 (Proxy_init (str "9.9.9.9:80") (str "9.9.9.9"))])]
           !! 0%nat
         = Some (http, out) ∧
    ∀ t, filter (λ x, timeout x = t) out
         = filter (λ x, timeout x = t)
             [set_timeout 2.5 (Proxy_init (str "9.9.9.9:80") (str "9.9.9.9"));
              set_timeout 0.5 (Proxy_init (str "1.2.3.4:81") (str "1.2.3.4"));
              set_timeout 0.5 (Proxy_init (str "1.2.3.4:80") (str "1.2.3.4"))].
Proof.
  apply (X15_equal_keys_keep_order tied _ 0 http _).
  - intros _ p l x Hp Hx. apply list_elem_of_singleton in Hp as [= -> ->].
    repeat (apply elem_of_cons in Hx as [->|Hx]; [reflexivity|]).
    by apply elem_of_nil in Hx.
  - vm_compute. reflexivity.
  - reflexivity.
Defined.

(** X16: sorted by speed, the proxies of every protocol come out with
    timeouts that never decrease, provided no timeout is NaN. *)
Theorem X16_speed_order (s : ProxyScraperChecker) (res : list (proto * list Proxy))
    (p : proto) (out : list Proxy) (i j : nat) (a b : Proxy) :
  sort_by_speed s = true →
  (∀ p l x, (p, l) ∈ proxies s → x ∈ l → PrimFloat.is_nan (timeout x) = false) →
  sorted_proxies s = Some res →
  (p, out) ∈ res → (i < j)%nat → out !! i = Some a → out !! j = Some b →
  PrimFloat.leb (timeout a) (timeout b) = true.
Proof.
  intros Hspeed Hnan Hres (idx & Hidx)%list_elem_of_lookup_1 Hij Hi Hj.
  pose proof Hres as H%mapM_Some.
  destruct (Forall2_lookup_r _ _ _ _ _ H Hidx) as ([p' l] & Hl & _).
  destruct (sorted_proxies_lookup s res idx p' l Hres Hl) as (out' & Hout' & Hsorted).
  rewrite Hidx in Hout'. injection Hout' as -> ->. rewrite Hspeed in Hsorted.
  assert (∀ x, x ∈ l → PrimFloat.is_nan (timeout x) = false) as Hl'.
  { intros x Hx. eapply Hnan; [|exact Hx]. by eapply list_elem_of_lookup_2. }
  destruct (sorted_ordered_on PrimFloat.ltb (λ t, PrimFloat.is_nan t = false)
              ltb_asym ltb_negtrans speed_sorting_key l) as (out'' & E & Hord).
  { apply Forall_forall. intros x Hx. by apply Hl'. }
  rewrite Hsorted in E. injection E as <-.
  specialize (Hord i j a b Hij Hi Hj). unfold speed_sorting_key in Hord.
  pose proof (sorted_perm _ _ _ _ Hsorted) as Hperm.
  assert (a ∈ l) as Ha by (rewrite <- Hperm; by eapply list_elem_of_lookup_2).
  assert (b ∈ l) as Hb by (rewrite <- Hperm; by eapply list_elem_of_lookup_2).
  rewrite FloatAxioms.ltb_spec in Hord. rewrite FloatAxioms.leb_spec.
  apply SFleb_of_not_ltb; [by apply is_nan_Prim2SF, Hl'.. | done].
Qed.

(** Three checked proxies and the object that sorts them by speed. *)
Definition timed (address : string) (t : float) : Proxy :=
  set_timeout t (Proxy_init (str address) (str address)).

Definition by_speed : ProxyScraperChecker :=
  {| all_folders := []; enabled_folders := []; save_path := Path_of [];
     proxies_count := [];
     proxies := [(http, [timed "1.1.1.1:80" 2.5; timed "2.2.2.2:80" 0.25;
                         timed "3.3.3.3:80" infinity])];
     sort_by_speed := true; sources := [];
     request_timeout := 1%float; sem := 1 |}.

Lemma X16_speed_order_witness :
  PrimFloat.leb (timeout (timed "2.2.2.2:80" 0.25)) (timeout (timed "1.1.1.1:80" 2.5))
  = true.
Proof.
  apply (X16_speed_order by_speed
           [(http, [timed "2.2.2.2:80" 0.25; timed "1.1.1.1:80" 2.5;
                    timed "3.3.3.3:80" infinity])]
           http [timed "2.2.2.2:80" 0.25; timed "1.1.1.1:80" 2.5;
                 timed "3.3.3.3:80" infinity] 0 1).
  - reflexivity.
  - intros p l x Hp Hx. apply list_elem_of_singleton in Hp as [= -> ->].
    repeat (apply elem_of_cons in Hx as [->|Hx]; [reflexivity|]).
    by apply elem_of_nil in Hx.
  - vm_compute. reflexivity.
  - apply list_elem_of_here.
  - lia.
  - reflexivity.
  - reflexivity.
Defined.

(** *** The addresses of a run always sort *)

(** Every stored proxy has its address key. *)
Definition keyed (st : machine) : Prop :=
  ∀ p l x, (p, l) ∈ proxies (self st) → x ∈ l → is_Some (alphabet_sorting_key x).

Lemma elem_of_set_item {K V} `{EqDecision K} (d : list (K * V)) k v0 v k' v' :
  item d k = Some v0 → (k', v') ∈ set_item d k v → (k', v') ∈ d ∨ v' = v.
Proof.
  intros E. unfold set_item. rewrite E.
  intros ([k1 v1] & Heq & Hin)%list_elem_of_fmap. cbn [fst] in Heq.
  case_bool_decide; injection Heq as -> ->; [by right | by left].
Qed.

Lemma keyed_of_sets : of_sets (stays keyed).
Proof. intros st st' E Hk p l x. rewrite E. apply Hk. Qed.

Lemma keyed_rewrites proto g st st' :
  rewrites proto g st st' →
  (∀ l, (∀ x, x ∈ l → is_Some (alphabet_sorting_key x)) →
        ∀ x, x ∈ g l → is_Some (alphabet_sorting_key x)) →
  stays keyed st st'.
Proof.
  intros [-> | (l & Hl & _ & _ & E)] Hg Hk; [done|].
  intros p l' x. rewrite E. intros [Hin| ->]%(elem_of_set_item _ _ _ _ _ _ Hl).
  - intros Hx. by eapply Hk.
  - apply Hg. intros y. apply (Hk proto l). by apply item_elem.
Qed.

Lemma sorted_proxies_keyed s :
  (∀ p l x, (p, l) ∈ proxies s → x ∈ l → is_Some (alphabet_sorting_key x)) →
  is_Some (sorted_proxies s).
Proof.
  unfold sorted_proxies. intros Hk.
  induction (proxies s) as [|[p l] d IH]; [by eexists|].
  cbn [mapM]. destruct IH as [res ->].
  { intros p' l' x Hin. apply (Hk p' l'). by apply list_elem_of_further. }
  cbn [fst snd].
  assert (is_Some (if sort_by_speed s
                   then sorted PrimFloat.ltb (λ x, Some (speed_sorting_key x)) l
                   else sorted tuple_lt alphabet_sorting_key l)) as [out ->];
    [|by eexists].
  destruct (sort_by_speed s); [apply sorted_total|].
  destruct (sorted_spec tuple_lt tuple_lt_asym tuple_lt_negtrans
              alphabet_sorting_key l) as (out & -> & _); [|by eexists].
  apply Forall_forall. intros x Hx. apply (Hk p l); [apply list_elem_of_here | done].
Qed.

Lemma scraped_key w proto x : scraped w proto x → is_Some (alphabet_sorting_key x).
Proof. intros (source & status & body & m & _ & Hm & ->). by eapply extracted_key. Qed.

Lemma fetch_stage_keyed hash w : keeps (stays keyed) (fetch_all_sources hash w).
Proof.
  apply (keeps_fetch_all hash w (stays keyed) (stays_refl _) (stays_trans _)).
  - intros e _. apply of_sets_emit, keyed_of_sets.
  - intros proto x Hx st. eapply keyed_rewrites; [apply add_proxy_rewrites|].
    intros l Hl y [Hy|[-> _]]%elem_of_set_add; [by apply Hl | by eapply scraped_key].
  - intros l. apply of_sets_count, keyed_of_sets.
Qed.

Lemma check_stage_keyed hash w : keeps (stays keyed) (check_all_proxies hash w).
Proof.
  apply (keeps_check_all hash w (stays keyed) (stays_refl _) (stays_trans _)).
  - intros e _. apply of_sets_emit, keyed_of_sets.
  - intros proto x st. eapply keyed_rewrites; [apply remove_proxy_rewrites|].
    intros l Hl y [_ Hy]%list_elem_of_filter. by apply Hl.
  - intros proto x f Hf st. eapply keyed_rewrites; [apply assign_rewrites|].
    intros l Hl y (z & -> & Hz)%list_elem_of_fmap.
    case_bool_decide; [|by apply Hl].
    unfold alphabet_sorting_key. destruct (Hf z) as [-> _]. by apply Hl.
Qed.

(** X17: in a run the keys always sort: after the fetch stage and the
    check stage of a freshly constructed object, however they end,
    [sorted_proxies] has a value in either mode, so [save_proxies] never
    raises the [ValueError] of [int] on an address. *)
Theorem X17_sorting_never_fails (hash : text * text → Z) (w : World) (cfg : Config.t)
    (s : ProxyScraperChecker) :
  ProxyScraperChecker_init cfg = inr s →
  is_Some (sorted_proxies
             (self (check_all_proxies hash w
                      (fetch_all_sources hash w {| self := s; log := [] |}).2).2)).
Proof.
  intros (_ & Ep & _)%init_state. apply sorted_proxies_keyed.
  apply (check_stage_keyed hash w), (fetch_stage_keyed hash w).
  intros p l x. cbn [self]. rewrite Ep.
  intros ([p' l'] & [= -> ->] & _)%list_elem_of_fmap Hx. by apply elem_of_nil in Hx.
Qed.

Lemma X17_sorting_never_fails_witness :
  is_Some (sorted_proxies
             (self (check_all_proxies demo_hash (demo_world lookup_payload)
                      (fetch_all_sources demo_hash (demo_world lookup_payload)
                         {| self := built; log := [] |}).2).2)).
Proof.
  apply (X17_sorting_never_fails demo_hash (demo_world lookup_payload) (demo_cfg false)
           built).
  vm_compute. reflexivity.
Defined.

(** ** Writing the output (lines 71-78, 291-308) *)

(** Nothing faults, or only [rmtree], with [FileNotFoundError]. *)
Definition benign (w : World) : Prop :=
  ∀ e, fault w e = None ∨
       (∃ p, e = Rmtree p) ∧ fault w e = Some FileNotFoundError.

Lemma for_each_log {A} (l : list A) (body : A → M unit) (f : A → list event) st :
  (∀ x st, x ∈ l → body x st = (inr tt, {| self := self st; log := log st ++ f x |})) →
  for_each l body st = (inr tt, {| self := self st; log := log st ++ (x ← l; f x) |}).
Proof.
  revert st. induction l as [|x l IH]; intros st Hb.
  - cbn. rewrite app_nil_r. by destruct st.
  - cbn [for_each]. rewrite run_bind, (Hb x st (list_elem_of_here _ _)).
    rewrite IH by (intros y st' Hy; by apply Hb, list_elem_of_further).
    cbn [self log mbind list_bind]. by rewrite <- app_assoc.
Qed.

Lemma Folder_remove_benign w folder st :
  benign w →
  Folder_remove w folder st
  = (inr tt, {| self := self st; log := log st ++ [Rmtree (path folder)] |}).
Proof.
  intros Hw. unfold Folder_remove, try, perform. rewrite run_bind. cbn [emit].
  by destruct (Hw (Rmtree (path folder))) as [-> | [_ ->]].
Qed.

Lemma perform_benign w e st :
  benign w → (∀ p, e ≠ Rmtree p) →
  perform w e st = (inr tt, {| self := self st; log := log st ++ [e] |}).
Proof.
  intros Hw He. apply perform_quiet.
  destruct (Hw e) as [E | [[p ->] _]]; [done|]. by destruct (He p).
Qed.

(** The events of writing the sorted sets [res] into [folder]. *)
Definition written (res : list (proto * list Proxy)) (folder : Folder) : list event :=
  Mkdir (path folder)
  :: ((λ pp, WriteText (slash (path folder) (proto_name pp.1 ++ str ".txt"))
                       (file_text folder pp.2)) <$> res).

Lemma save_proxies_benign w st res :
  benign w →
  sorted_proxies (self st) = Some res →
  save_proxies w st
  = (inr tt,
     {| self := self st;
        log := log st ++ System :: (Rmtree ∘ path <$> all_folders (self st))
                 ++ (folder ← enabled_folders (self st); written res folder) |}).
Proof.
  intros Hw Hres. unfold save_proxies. rewrite (run_bind get). cbn [get].
  rewrite Hres.
  rewrite run_bind, perform_benign by done.
  rewrite run_bind.
  rewrite (for_each_log _ _ (λ folder, [Rmtree (path folder)]))
    by (intros; by apply Folder_remove_benign).
  rewrite (for_each_log _ _ (written res)).
  - cbn [self log]. f_equal. f_equal. rewrite <- !app_assoc. cbn [app]. do 3 f_equal.
  - intros folder st' _. unfold Folder_create. rewrite run_bind, perform_benign by done.
    rewrite (for_each_log _ _ (λ pp, [WriteText (slash (path folder)
                                                   (proto_name pp.1 ++ str ".txt"))
                                                (file_text folder pp.2)]))
      by (intros; by apply perform_benign).
    cbn [self log]. f_equal. f_equal. rewrite <- app_assoc. cbn [app]. unfold written.
    do 2 f_equal.
Qed.

(** X18: when nothing faults, or only [rmtree] with [FileNotFoundError]
    (the folder is not there yet), [save_proxies] returns and does
    exactly this, in this order: the command, [rmtree] on every folder,
    then for every enabled folder [mkdir] and one file per protocol with
    the sorted proxies the folder lists. *)
Theorem X18_save_proxies_trace (w : World) (st : machine)
    (res : list (proto * list Proxy)) :
  benign w →
  sorted_proxies (self st) = Some res →
  save_proxies w st
  = (inr tt,
     {| self := self st;
        log := log st ++ System :: (Rmtree ∘ path <$> all_folders (self st))
                 ++ (folder ← enabled_folders (self st); written res folder) |}).
Proof. apply save_proxies_benign. Qed.

(** A world where no folder exists yet. *)
Definition fresh_world : World :=
  {| fetch := λ _ _, FetchRaised [];
     probe := λ _, demo_probe lookup_payload;
     fault := λ e, match e with Rmtree _ => Some FileNotFoundError | _ => None end;
     order := λ _ l, l |}.

Lemma X18_save_proxies_trace_witness :
  save_proxies fresh_world fetched_machine
  = (inr tt,
     {| self := self fetched_machine;
        log := log fetched_machine
                 ++ System :: (Rmtree ∘ path <$> all_folders (self fetched_machine))
                 ++ (folder ← enabled_folders (self fetched_machine);
                     written [(http, [alive; unreachable; refused])] folder) |}).
Proof.
  apply (X18_save_proxies_trace fresh_world fetched_machine
           [(http, [alive; unreachable; refused])]).
  - intros e. destruct e; first [by left | right; split; [by eexists | done]].
  - vm_compute. reflexivity.
Defined.

Lemma remove_all_fails w folders folder e st :
  folder ∈ folders →
  fault w (Rmtree (path folder)) = Some e → e ≠ FileNotFoundError →
  ∃ e' st', for_each folders (Folder_remove w) st = (inl (Raised e'), st') ∧
    e' ≠ FileNotFoundError ∧
    logs (λ ev, ∃ p, ev = Rmtree p) st st'.
Proof.
  intros Hin He Hne. revert st.
  induction folders as [|x folders IH]; intros st; [by apply elem_of_nil in Hin|].
  cbn [for_each]. rewrite run_bind. unfold Folder_remove at 1, try, perform.
  rewrite run_bind. cbn [emit].
  set (st1 := {| self := self st; log := log st ++ [Rmtree (path x)] |}).
  assert (logs (λ ev, ∃ p, ev = Rmtree p) st st1) as H1.
  { exists [Rmtree (path x)]. split; [done|]. constructor; [by eexists | done]. }
  assert (folder ∈ folders → ∃ e' st',
            for_each folders (Folder_remove w) st1 = (inl (Raised e'), st') ∧
            e' ≠ FileNotFoundError ∧
            logs (λ ev, ∃ p, ev = Rmtree p) st st') as Hrest.
  { intros Hf. destruct (IH Hf st1) as (e' & st' & E & Hne' & Hl).
    exists e', st'. split; [done|]. split; [done|]. by eapply logs_trans. }
  destruct (fault w (Rmtree (path x))) as [e0|] eqn:E0.
  - assert (e0 = FileNotFoundError ∨ e0 ≠ FileNotFoundError) as [-> | Hne0]
      by (destruct e0; first [by left | by right]).
    + cbn. apply Hrest. apply elem_of_cons in Hin as [->|Hin]; [congruence | done].
    + exists e0, st1. split; [by destruct e0 | done].
  - cbn. apply Hrest. apply elem_of_cons in Hin as [->|Hin]; [congruence | done].
Qed.

(** X19: [Folder.remove] lets every error but [FileNotFoundError]
    through: when the keys sort, the command does not fail and [rmtree]
    fails otherwise on one of the folders, [save_proxies] raises, and it
    has called nothing but the command and [rmtree]: no folder is
    created and no file written. *)
Theorem X19_remove_error_aborts (w : World) (st : machine) (folder : Folder) (e : exn) :
  is_Some (sorted_proxies (self st)) →
  fault w System = None →
  folder ∈ all_folders (self st) →
  fault w (Rmtree (path folder)) = Some e → e ≠ FileNotFoundError →
  ∃ e' new, (save_proxies w st).1 = inl (Raised e') ∧ e' ≠ FileNotFoundError ∧
    log (save_proxies w st).2 = log st ++ System :: new ∧
    Forall (λ ev, ∃ p, ev = Rmtree p) new.
Proof.
  intros [res Hres] Hsys Hin He Hne. unfold save_proxies.
  rewrite (run_bind get). cbn [get]. rewrite Hres.
  rewrite run_bind, perform_quiet by done. rewrite run_bind.
  set (st1 := {| self := self st; log := log st ++ [System] |}).
  destruct (remove_all_fails w _ folder e st1 Hin He Hne)
    as (e' & st' & -> & Hne' & new & E & Hnew).
  exists e', new. cbn [fst snd]. split; [done|]. split; [done|]. split; [|done].
  rewrite E. subst st1. cbn [log]. by rewrite <- app_assoc.
Qed.

(** A world where the output folders cannot be removed. *)
Definition locked_world : World :=
  {| fetch := λ _ _, FetchRaised [];
     probe := λ _, demo_probe lookup_payload;
     fault := λ e, match e with Rmtree _ => Some (OSError (Some 13%Z)) | _ => None end;
     order := λ _ l, l |}.

Lemma X19_remove_error_aborts_witness :
  ∃ e' new, (save_proxies locked_world fetched_machine).1 = inl (Raised e') ∧
    e' ≠ FileNotFoundError ∧
    log (save_proxies locked_world fetched_machine).2
    = log fetched_machine ++ System :: new ∧
    Forall (λ ev, ∃ p, ev = Rmtree p) new.
Proof.
  apply (X19_remove_error_aborts locked_world fetched_machine
           (Folder_init (Path_of (str "out")) (str "proxies")) (OSError (Some 13%Z))).
  - vm_compute. by eexists.
  - reflexivity.
  - vm_compute. apply list_elem_of_here.
  - reflexivity.
  - done.
Defined.

(** *** The files *)

Lemma split_cons_sep sep x rest :
  sep ∉ x → split sep (x ++ sep :: rest) = x :: split sep rest.
Proof.
  induction x as [|c x IH]; intros Hx; cbn [app split].
  - by rewrite N.eqb_refl.
  - apply not_elem_of_cons in Hx as [Hc Hx]. rewrite IH by done.
    destruct (N.eqb_spec c sep) as [->|_]; [done|]. done.
Qed.

Lemma split_no_sep sep x : sep ∉ x → split sep x = [x].
Proof.
  induction x as [|c x IH]; intros Hx; cbn [split]; [done|].
  apply not_elem_of_cons in Hx as [Hc Hx]. rewrite IH by done.
  destruct (N.eqb_spec c sep) as [->|_]; [done|]. done.
Qed.

Lemma split_join sep (ls : list text) :
  ls ≠ [] → Forall (λ l, sep ∉ l) ls → split sep (join [sep] ls) = ls.
Proof.
  intros Hne Hls. induction Hls as [|x ls Hx Hls IH]; [done|].
  destruct ls as [|y ls]; cbn [join].
  - by apply split_no_sep.
  - cbn [app]. rewrite split_cons_sep by done. f_equal. by apply IH.
Qed.

(** The line of a proxy in a file of [folder]. *)
Definition line (folder : Folder) (proxy : Proxy) : text :=
  if for_geolocation folder
  then socket_address proxy ++ geolocation proxy
  else socket_address proxy.

(** X20: a file reads back, line by line, as the proxies it was written
    from: split at the newlines, the text [save_proxies] writes for a
    folder is the lines of the proxies the folder lists (all of them,
    or the anonymous ones), in their order, when no line holds a
    newline itself; with no proxy listed the file is empty. *)
Theorem X20_file_lines (folder : Folder) (l : list Proxy) :
  Forall (λ proxy, 10 ∉ line folder proxy) l →
  split 10 (file_text folder l)
  = match filter (λ proxy, listed folder proxy = true) l with
    | [] => [[]]
    | listed_proxies => line folder <$> listed_proxies
    end.
Proof.
  intros Hl. unfold file_text. fold (line folder).
  assert (Forall (λ proxy, 10 ∉ line folder proxy)
            (filter (λ proxy, listed folder proxy = true) l)) as Hf.
  { apply Forall_forall. intros x [_ Hx]%list_elem_of_filter.
    rewrite Forall_forall in Hl. by apply Hl. }
  destruct (filter _ l) as [|x xs]; [done|].
  apply split_join; [done|]. by apply Forall_fmap.
Qed.

Lemma X20_file_lines_witness :
  split 10 (file_text (Folder_init (Path_of (str "out")) (str "proxies_anonymous"))
              [set_timeout 0.5 (update alive lookup_payload); refused; unreachable])
  = [str "10.0.0.1:8080"].
Proof.
  apply (X20_file_lines (Folder_init (Path_of (str "out")) (str "proxies_anonymous"))
           [set_timeout 0.5 (update alive lookup_payload); refused; unreachable]).
  repeat constructor; apply (bool_decide_unpack _); vm_compute; exact I.
Defined.

(** ** One request per source (lines 179-209, 254-265) *)

(** The requests to sources a list of events holds, in order. *)
Definition requests (events : list event) : list text :=
  omap (λ e, match e with Get source => Some source | _ => None end) events.

Definition no_request (e : event) : Prop :=
  match e with Get _ => False | _ => True end.

Lemma requests_none events : Forall no_request events → requests events = [].
Proof.
  induction 1 as [|e events He _ IH]; [done|]. unfold requests in *.
  cbn [omap list_omap]. by destruct e.
Qed.

Lemma requests_app l1 l2 : requests (l1 ++ l2) = requests l1 ++ requests l2.
Proof. apply omap_app. Qed.

Lemma fetch_source_log hash w source proto st :
  ∃ rest, log (fetch_source hash w source proto st).2
          = log st ++ Get (strip source) :: rest ∧
          Forall no_request rest.
Proof.
  unfold fetch_source. rewrite run_bind. cbn [emit].
  set (st1 := {| self := self st; log := _ |}).
  match goal with |- context [log (?k0 st1).2] => set (k := k0) end.
  assert (keeps (logs no_request) k) as Hk.
  { subst k.
    pose proof (logs_refl no_request) as Hr. pose proof (logs_trans no_request) as Ht.
    apply keeps_bind; [done | | intros _; by apply logs_emit].
    destruct (fetch w proto (strip source)) as [exc|status body]; [by apply logs_emit|].
    destruct (finditer body) as [|m ms]; [by apply logs_emit|].
    apply keeps_for_each; [done..|]. intros x st'.
    eapply logs_rewrites, add_proxy_rewrites. }
  destruct (Hk st1) as (rest & E & Hrest). exists rest. split; [|done].
  rewrite E. subst st1. cbn [log]. by rewrite <- app_assoc.
Qed.

Lemma fetches_log hash w (tasks : list (text * proto)) st :
  ∃ new, log (for_each tasks (λ c, fetch_source hash w c.1 c.2) st).2 = log st ++ new ∧
    requests new `prefix_of` (strip ∘ fst <$> tasks) ∧
    ((for_each tasks (λ c, fetch_source hash w c.1 c.2) st).1 = inr tt →
     requests new = strip ∘ fst <$> tasks).
Proof.
  revert st. induction tasks as [|x tasks IH]; intros st.
  - exists []. by rewrite app_nil_r.
  - cbn [for_each]. rewrite run_bind.
    destruct (fetch_source_log hash w x.1 x.2 st) as (rest & E & Hrest).
    assert (requests (Get (strip x.1) :: rest) = [strip x.1]) as Hp.
    { change (Get (strip x.1) :: rest) with ([Get (strip x.1)] ++ rest).
      by rewrite requests_app, (requests_none rest). }
    destruct (fetch_source hash w x.1 x.2 st) as [[e|[]] st1].
    + eexists. split; [exact E|]. rewrite Hp. split; [|done].
      cbn [fmap list_fmap]. by apply prefix_cons, prefix_nil.
    + destruct (IH st1) as (new & E1 & Hpre & Hall).
      exists ((Get (strip x.1) :: rest) ++ new).
      cbn [snd] in E. split; [by rewrite E1, E, <- app_assoc|].
      rewrite requests_app, Hp. cbn [fmap list_fmap app].
      split; [by apply prefix_cons | intros Hdone; by rewrite Hall].
Qed.

(** X21: the fetch stage requests every source at most once, by its
    stripped text, and never again after an error: the requests it adds
    to the log are those of its fetches, one per source of every
    protocol, in the order the fetches run; all of them when the stage
    returns. *)
Theorem X21_one_request_per_source (hash : text * text → Z) (w : World) (st : machine) :
  ∃ new, log (fetch_all_sources hash w st).2 = log st ++ new ∧
    requests new `prefix_of`
      (strip ∘ fst <$> order w _ (ps ← sources (self st); source ← ps.2; [(source, ps.1)])) ∧
    ((fetch_all_sources hash w st).1 = inr tt →
     requests new
     = strip ∘ fst <$> order w _ (ps ← sources (self st); source ← ps.2; [(source, ps.1)])).
Proof.
  unfold fetch_all_sources. rewrite (run_bind get). cbn [get].
  assert (∀ (dict : list (proto * list text)) st0,
    ∃ tasks, for_each dict (λ ps, emit (AddTask Scraping ps.1 (length ps.2))) st0
             = (inr tt, {| self := self st0; log := log st0 ++ tasks |}) ∧
             Forall no_request tasks) as Htasks.
  { intros dict. induction dict as [|pp dict IH]; intros st0.
    - exists []. rewrite app_nil_r. by destruct st0.
    - cbn [for_each]. erewrite bind_ok; [|reflexivity].
      destruct (IH {| self := self st0;
                      log := log st0 ++ [AddTask Scraping pp.1 (length pp.2)] |})
        as (tasks & -> & Ht).
      exists (AddTask Scraping pp.1 (length pp.2) :: tasks). cbn [self log].
      split; [by rewrite <- app_assoc | by constructor]. }
  destruct (Htasks (sources (self st)) st) as (tasks & E0 & Ht).
  rewrite (bind_ok _ _ _ _ _ E0). rewrite run_bind.
  set (st0 := {| self := self st; log := _ |}).
  set (fetches := order w _ _).
  destruct (fetches_log hash w fetches st0) as (new & E & Hpre & Hall).
  destruct (for_each fetches _ st0) as [[e|[]] st2]; cbn [fst snd] in *.
  { exists (tasks ++ new). rewrite requests_app, (requests_none tasks Ht).
    split; [|done]. rewrite E. subst st0. cbn [log]. by rewrite app_assoc. }
  rewrite (run_bind get). cbn [get].
  destruct (count_loop_log (proxies (self st2)) st2) as (st3 & -> & E3).
  exists (tasks ++ new). rewrite requests_app, (requests_none tasks Ht). cbn [fst snd].
  split; [|split; [done | by intros _; apply Hall]].
  rewrite E3, E. subst st0. cbn [log]. by rewrite app_assoc.
Qed.

(** ** A check and the other proxies (lines 211-241) *)

(** The proxies of another protocol or address than [(proto, address)]
    are in their sets as they were. *)
Definition others_intact (proto : proto) (address : text) (st st' : machine) : Prop :=
  ∀ proto' l y, item (proxies (self st)) proto' = Some l → y ∈ l →
    (proto', socket_address y) ≠ (proto, address) →
    ∃ l', item (proxies (self st')) proto' = Some l' ∧ y ∈ l'.

Lemma others_intact_refl proto a st : others_intact proto a st st.
Proof. intros proto' l y Hl Hy _. by exists l. Qed.

Lemma others_intact_trans proto a st1 st2 st3 :
  others_intact proto a st1 st2 → others_intact proto a st2 st3 →
  others_intact proto a st1 st3.
Proof.
  intros H12 H23 proto' l y Hl Hy Hne.
  destruct (H12 proto' l y Hl Hy Hne) as (l2 & Hl2 & Hy2). by eapply H23.
Qed.

Lemma others_intact_of_sets proto a : of_sets (others_intact proto a).
Proof. intros st st' E proto' l y Hl Hy _. rewrite E. by exists l. Qed.

Lemma others_intact_rewrites proto a g st st' :
  rewrites proto g st st' →
  (∀ l y, y ∈ l → socket_address y ≠ a → y ∈ g l) →
  others_intact proto a st st'.
Proof.
  intros [-> | (l & Hl & _ & _ & E)] Hg; [apply others_intact_refl|].
  intros proto' l0 y Hl0 Hy Hne. rewrite E, (item_set_item _ _ _ _ _ Hl).
  case_decide as Ep; [|by exists l0]. subst proto'.
  rewrite Hl in Hl0. injection Hl0 as <-. eexists. split; [done|].
  apply Hg; [done|]. intros Ea. apply Hne. by rewrite Ea.
Qed.

(** X22: a check touches its own proxy only: every proxy of another
    protocol or another address that was in a set before the check is in
    that set afterwards with all its fields as they were, however the
    check ends. *)
Theorem X22_check_leaves_others (hash : text * text → Z) (w : World) (st : machine)
    (proxy : Proxy) (protocol protocol' : proto) (l : list Proxy) (y : Proxy) :
  item (proxies (self st)) protocol' = Some l → y ∈ l →
  (protocol', socket_address y) ≠ (protocol, socket_address proxy) →
  ∃ l', item (proxies (self (check_proxy hash w proxy protocol st).2)) protocol' = Some l' ∧
        y ∈ l'.
Proof.
  revert protocol' l y.
  apply (keeps_check_proxy hash w (others_intact protocol (socket_address proxy))
           (others_intact_refl _ _) (others_intact_trans _ _)).
  - intros e _. apply of_sets_emit, others_intact_of_sets.
  - intros st0. eapply others_intact_rewrites; [apply remove_proxy_rewrites|].
    intros l y Hy Hne. by apply list_elem_of_filter.
  - intros f _ st0. eapply others_intact_rewrites; [apply assign_rewrites|].
    intros l y Hy Hne. apply list_elem_of_fmap. exists y.
    by rewrite bool_decide_eq_false_2.
Qed.

Lemma X22_check_leaves_others_witness :
  ∃ l', item (proxies (self (check_proxy demo_hash (demo_world lookup_payload)
                               unreachable http fetched_machine).2)) http = Some l' ∧
        alive ∈ l'.
Proof.
  apply (X22_check_leaves_others demo_hash (demo_world lookup_payload) fetched_machine
           unreachable http http [alive; refused; unreachable] alive).
  - reflexivity.
  - apply list_elem_of_here.
  - by intros [= ].
Defined.

(** ** A whole run (lines 310-332, 363-391) *)













(** ** The extractor finds what is well formed (lines 143-159, 199-203) *)

Definition ascii_digit (c : char) : Prop := 48 ≤ c ∧ c ≤ 57.

(** [x] is the decimal numeral of an integer between [lo] and [hi], as
    [str] writes it: ASCII digits without leading zero. *)
Definition numeral (lo hi : Z) (x : text) : Prop :=
  number lo hi x ∧ Forall ascii_digit x.

Lemma isdecimal_ascii c : ascii_digit c → isdecimal c = true.
Proof. intros [Hlo Hhi]. unfold isdecimal. by rewrite decimal_ascii. Qed.

Lemma foldl_int_step_ge a x v :
  (0 ≤ a)%Z → foldl int_step (Some a) x = Some v → (a ≤ v)%Z.
Proof.
  revert a. induction x as [|c x IH]; intros a Ha; cbn [foldl].
  - intros [= <-]. lia.
  - unfold int_step at 2. destruct (decimal c) as [dv|].
    + intros Hv%IH; lia.
    + by rewrite foldl_int_step_None.
Qed.

(** Builds a membership in a piece of the pattern from the facts on the
    characters at hand. *)
Ltac rx_test :=
  cbv beta;
  first [ apply isdecimal_ascii; split; lia
        | apply andb_true_intro; split; apply N.leb_le; lia
        | apply N.eqb_eq; lia ].

Ltac rx_build :=
  lazymatch goal with
  | |- _ ∈ alt _ _ _ =>
      apply elem_of_alt; first [left; solve [rx_build] | right; solve [rx_build]]
  | |- (?x, ?r) ∈ cat ?a eps ?s =>
      apply (proj2 (elem_of_cat a eps s x r)); exists x, r, [];
      split; [solve [rx_build] | split; [by apply elem_of_eps | by rewrite app_nil_r]]
  | |- (?c :: ?x, ?r) ∈ cat ?a ?b (?c :: ?s) =>
      apply (proj2 (elem_of_cat a b (c :: s) (c :: x) r)); exists [c], s, x;
      split; [solve [rx_build] | split; [solve [rx_build] | reflexivity]]
  | |- _ ∈ eps _ => by apply elem_of_eps
  | |- _ ∈ opt _ _ => unfold opt at 1; rx_build
  | |- _ ∈ lit ?a _ =>
      let v := eval vm_compute in (ch a) in
      unfold lit; change (ch a) with v; rx_build
  | |- _ ∈ rng ?lo ?hi _ =>
      let l := eval vm_compute in (ch lo) in
      let h := eval vm_compute in (ch hi) in
      unfold rng; change (ch lo) with l; change (ch hi) with h; rx_build
  | |- _ ∈ d _ => unfold d; rx_build
  | |- _ ∈ chr _ _ =>
      apply elem_of_chr; eexists; split; [reflexivity | split; [reflexivity | rx_test]]
  end.

(** Opens [numeral lo hi x] for an [x] of known length. *)
Ltac numeral_open H :=
  let v := fresh "v" in let Hv := fresh "Hv" in let Hr := fresh "Hr" in
  let Hz := fresh "Hz" in let Ha := fresh "Ha" in
  destruct H as [(v & Hv & Hr & Hz) Ha];
  repeat match goal with
  | H : Forall ascii_digit (_ :: _) |- _ => apply Forall_cons in H as [[? ?] H]
  end;
  unfold int in Hv; cbn [foldl] in Hv; unfold int_step in Hv;
  unfold leading_zero in Hz;
  repeat match goal with
  | H : context [decimal ?c] |- _ => rewrite (decimal_ascii c) in H by lia
  end;
  try apply N.eqb_neq in Hz.

Lemma octet_complete x r : numeral 0 255 x → (x, r) ∈ octet (x ++ r).
Proof.
  intros H. destruct x as [|c1 [|c2 [|c3 [|c4 x]]]]; numeral_open H.
  - done.
  - unfold octet. cbn [alts cats foldr times app]. rx_build.
  - injection Hv as <-. unfold octet. cbn [alts cats foldr times app]. rx_build.
  - injection Hv as <-. unfold octet. cbn [alts cats foldr times app].
    assert (c1 = 49 ∨ (c1 = 50 ∧ c2 ≤ 52) ∨ (c1 = 50 ∧ c2 = 53 ∧ c3 ≤ 53))
      as [?|[[? ?]|(? & ? & ?)]] by lia; rx_build.
  - apply foldl_int_step_ge in Hv; lia.
Qed.

Lemma octet1_complete x r : numeral 1 255 x → (x, r) ∈ octet1 (x ++ r).
Proof.
  intros H. destruct x as [|c1 [|c2 [|c3 [|c4 x]]]]; numeral_open H.
  - done.
  - injection Hv as <-. unfold octet1. cbn [alts cats foldr times app]. rx_build.
  - injection Hv as <-. unfold octet1. cbn [alts cats foldr times app]. rx_build.
  - injection Hv as <-. unfold octet1. cbn [alts cats foldr times app].
    assert (c1 = 49 ∨ (c1 = 50 ∧ c2 ≤ 52) ∨ (c1 = 50 ∧ c2 = 53 ∧ c3 ≤ 53))
      as [?|[[? ?]|(? & ? & ?)]] by lia; rx_build.
  - apply foldl_int_step_ge in Hv; lia.
Qed.

Lemma port_complete x r : numeral 0 65535 x → (x, r) ∈ port (x ++ r).
Proof.
  intros H. destruct x as [|c1 [|c2 [|c3 [|c4 [|c5 [|c6 x]]]]]]; numeral_open H.
  - done.
  - unfold port. cbn [alts cats foldr times upto opt app]. rx_build.
  - injection Hv as <-. unfold port. cbn [alts cats foldr times upto opt app]. rx_build.
  - injection Hv as <-. unfold port. cbn [alts cats foldr times upto opt app]. rx_build.
  - injection Hv as <-. unfold port. cbn [alts cats foldr times upto opt app]. rx_build.
  - injection Hv as <-. unfold port. cbn [alts cats foldr times upto opt app].
    assert (c1 ≤ 53 ∨ (c1 = 54 ∧ c2 ≤ 52) ∨ (c1 = 54 ∧ c2 = 53 ∧ c3 ≤ 52) ∨
            (c1 = 54 ∧ c2 = 53 ∧ c3 = 53 ∧ c4 ≤ 50) ∨
            (c1 = 54 ∧ c2 = 53 ∧ c3 = 53 ∧ c4 = 51 ∧ c5 ≤ 53))
      as [?|[[? ?]|[(? & ? & ?)|[(? & ? & ? & ?)|(? & ? & ? & ? & ?)]]]] by lia;
      rx_build.
  - apply foldl_int_step_ge in Hv; lia.
Qed.

Lemma numeral_digits lo hi x :
  numeral lo hi x → x ≠ [] ∧ Forall (λ c, isdecimal c = true) x.
Proof. intros [H _]. by eapply number_digits. Qed.

(** A run of digits ends where the text says, and nowhere else. *)
Lemma span_unique x x' r r' :
  Forall (λ c, isdecimal c = true) x → Forall (λ c, isdecimal c = true) x' →
  no_digit_ahead r → no_digit_ahead r' →
  x ++ r = x' ++ r' → x = x' ∧ r = r'.
Proof.
  intros Hx. revert x'. induction Hx as [|c x Hc Hx IH]; intros x' Hx' Hr Hr'.
  - destruct Hx' as [|c' x' Hc' Hx']; [done|]. cbn [app]. intros ->.
    cbn in Hr. congruence.
  - destruct Hx' as [|c' x' Hc' Hx']; cbn [app].
    + intros <-. cbn in Hr'. congruence.
    + intros [= <- E]. destruct (IH x' Hx' Hr Hr' E) as [-> ->]. done.
Qed.

(** What an attempt of the pattern is made of, its closing piece
    included. *)
Lemma regex_parts bol s a :
  a ∈ regex bol s →
  ∃ tail e, s = a_lead a ++ a_group1 a ++ tail ∧
            (e, a_rest a) ∈ alt D dollar tail ∧
            anatomy (a_lead a) (a_group1 a) (a_group2 a) tail.
Proof.
  intros Ha. destruct (regex_anatomy bol s a Ha) as (tail & Hs & Han).
  unfold regex in Ha.
  apply list_elem_of_bind in Ha as ([lead s0] & H & Hlead).
  apply list_elem_of_bind in H as ([g2 s1] & H & Hip).
  apply list_elem_of_bind in H as ([c s2] & H & Hc).
  apply list_elem_of_bind in H as ([p s3] & H & Hp).
  apply list_elem_of_bind in H as ([e s4] & H & He).
  apply list_elem_of_singleton in H as ->. cbn [a_lead a_group1 a_group2 a_rest] in *.
  exists tail, e. split; [done|]. split; [|done].
  assert (s = lead ++ s0) as Es by (clear -Hlead; rx_inv; done).
  apply port_number in Hp as [-> _].
  assert (s1 = c ++ p ++ s3 ∧ s0 = g2 ++ s1) as [-> ->].
  { clear -Hip Hc. unfold ipv4 in Hip. cbn [cats foldr] in Hip.
    repeat match goal with
    | H : _ ∈ cat octet1 _ _ |- _ =>
        apply elem_of_cat in H as (? & ? & ? & [-> ?]%octet1_number & H & ->)
    | H : _ ∈ cat octet _ _ |- _ =>
        apply elem_of_cat in H as (? & ? & ? & [-> ?]%octet_number & H & ->)
    | H : _ ∈ cat (lit _) _ _ |- _ =>
        apply elem_of_cat in H as (? & ? & ? & ? & H & ->)
    end.
    rx_inv. rewrite app_nil_r. split; [done|].
    rewrite <- !app_assoc. cbn [app]. by rewrite <- ?app_assoc. }
  rewrite Es in Hs. rewrite <- !app_assoc in Hs.
  apply app_inv_head in Hs. apply app_inv_head in Hs.
  apply app_inv_head in Hs. apply app_inv_head in Hs. by subst tail.
Qed.

(** The digit groups of a written address. *)
Record groups := {
  octet_1 : text;
  octet_2 : text;
  octet_3 : text;
  octet_4 : text;
  port_5 : text;
}.

Definition ip_of (g : groups) : text :=
  octet_1 g ++ dot ++ octet_2 g ++ dot ++ octet_3 g ++ dot ++ octet_4 g.

Definition address_of (g : groups) : text := ip_of g ++ colon ++ port_5 g.

(** The address is written as [str] writes numbers in range. *)
Definition well_formed (g : groups) : Prop :=
  numeral 1 255 (octet_1 g) ∧ numeral 0 255 (octet_2 g) ∧
  numeral 0 255 (octet_3 g) ∧ numeral 0 255 (octet_4 g) ∧
  numeral 0 65535 (port_5 g).

(** What may follow an address in a list of them: nothing, or one
    character that is no digit and then more text. *)
Definition follows (tail : text) : Prop :=
  match tail with
  | [] => True
  | sep :: rest => isdecimal sep = false ∧ rest ≠ []
  end.

Lemma regex_finds bol g tail :
  well_formed g → follows tail →
  Attempt [] (address_of g) (ip_of g) (drop 1 tail) ∈ regex bol (address_of g ++ tail).
Proof.
  intros (H1 & H2 & H3 & H4 & Hp) Ht. unfold regex.
  apply list_elem_of_bind. exists ([], address_of g ++ tail). split.
  2:{ unfold opt. apply elem_of_alt. right. by apply elem_of_eps. }
  apply list_elem_of_bind. exists (ip_of g, colon ++ port_5 g ++ tail). split.
  2:{ unfold address_of, ip_of, ipv4. cbn [cats foldr]. rewrite <- !app_assoc.
      apply elem_of_cat. eexists _, _, _.
      split; [by apply octet1_complete|]. split; [|reflexivity].
      apply elem_of_cat. exists dot. eexists _, _.
      split; [unfold lit; by apply elem_of_chr; eexists|]. split; [|reflexivity].
      apply elem_of_cat. eexists _, _, _.
      split; [by apply octet_complete|]. split; [|reflexivity].
      apply elem_of_cat. exists dot. eexists _, _.
      split; [unfold lit; by apply elem_of_chr; eexists|]. split; [|reflexivity].
      apply elem_of_cat. eexists _, _, _.
      split; [by apply octet_complete|]. split; [|reflexivity].
      apply elem_of_cat. exists dot. eexists _, _.
      split; [unfold lit; by apply elem_of_chr; eexists|]. split; [|reflexivity].
      apply elem_of_cat. exists (octet_4 g). eexists _, [].
      split; [by apply octet_complete|]. split; [by apply elem_of_eps|].
      by rewrite app_nil_r. }
  apply list_elem_of_bind. exists (colon, port_5 g ++ tail). split.
  2:{ unfold lit. apply elem_of_chr. by eexists. }
  apply list_elem_of_bind. exists (port_5 g, tail). split.
  2:{ by apply port_complete. }
  apply list_elem_of_bind. exists (take 1 tail, drop 1 tail). split.
  2:{ apply elem_of_alt. destruct tail as [|sep rest].
      - right. by apply list_elem_of_singleton.
      - left. destruct Ht as [Hsep _]. unfold D. apply elem_of_chr. exists sep.
        by rewrite Hsep. }
  by apply list_elem_of_singleton.
Qed.

Lemma regex_only bol g tail a :
  well_formed g → follows tail →
  a ∈ regex bol (address_of g ++ tail) →
  a = Attempt [] (address_of g) (ip_of g) (drop 1 tail).
Proof.
  intros (H1 & H2 & H3 & H4 & Hp) Ht (tail' & e & Hs & He & Han)%regex_parts.
  destruct (numeral_digits _ _ _ H1) as [N1 D1], (numeral_digits _ _ _ H2) as [_ D2],
    (numeral_digits _ _ _ H3) as [_ D3], (numeral_digits _ _ _ H4) as [_ D4],
    (numeral_digits _ _ _ Hp) as [_ Dp].
  destruct a as [lead g1 g2 rest]. cbn [a_lead a_group1 a_group2 a_rest] in *.
  destruct Han as [(o1 & o2 & o3 & o4 & p & -> & -> & G1 & G2 & G3 & G4 & Gp) Hlead Htail].
  destruct (number_digits _ _ _ G1) as [_ E1], (number_digits _ _ _ G2) as [_ E2],
    (number_digits _ _ _ G3) as [_ E3], (number_digits _ _ _ G4) as [_ E4],
    (number_digits _ _ _ Gp) as [_ Ep].
  assert (lead = []) as ->.
  { destruct Hlead as [->|(c & -> & Hc)]; [done|]. exfalso.
    unfold address_of, ip_of in Hs. destruct (octet_1 g) as [|c1 o]; [done|].
    apply Forall_cons in D1 as [Hc1 _]. cbn in Hs. injection Hs as <- _. congruence. }
  cbn [app] in Hs. unfold address_of, ip_of in *. rewrite <- !app_assoc in Hs.
  assert (∀ t : text, no_digit_ahead (dot ++ t)) as Hdot by done.
  assert (∀ t : text, no_digit_ahead (colon ++ t)) as Hcolon by done.
  assert (no_digit_ahead tail) as Htl by (destruct tail; [done | apply Ht]).
  apply span_unique in Hs as [<- Hs]; [|done..]. apply app_inv_head in Hs.
  apply span_unique in Hs as [<- Hs]; [|done..]. apply app_inv_head in Hs.
  apply span_unique in Hs as [<- Hs]; [|done..]. apply app_inv_head in Hs.
  apply span_unique in Hs as [<- Hs]; [|done..]. apply app_inv_head in Hs.
  apply span_unique in Hs as [<- <-]; [|done..].
  f_equal.
  destruct tail as [|sep [|c rest']].
  - apply elem_of_alt in He as [He|He]; [by rx_inv|].
    by apply elem_of_dollar in He as (_ & -> & _).
  - by destruct Ht.
  - apply elem_of_alt in He as [He|He].
    + unfold D in He. by apply elem_of_chr in He as (c0 & [= <- <-] & _ & _).
    + by apply elem_of_dollar in He as (_ & _ & [?|?]).
Qed.

Lemma match_at_address pos g tail :
  well_formed g → follows tail →
  match_at pos (address_of g ++ tail)
  = Some {| m_start := pos;
            m_end := pos + (length (address_of g ++ tail) - length (drop 1 tail));
            start1 := pos + 0;
            group1 := address_of g;
            group2 := ip_of g |}.
Proof.
  intros Hg Ht. unfold match_at.
  pose proof (regex_finds (Nat.eqb pos 0) g tail Hg Ht) as Hin.
  pose proof (regex_only (Nat.eqb pos 0) g tail) as Hall.
  destruct (regex _ _) as [|a l]; [by apply elem_of_nil in Hin|].
  by rewrite (Hall a Hg Ht (list_elem_of_here _ _)).
Qed.

Lemma scan_skip pos x y : scan pos (length x) (x ++ y) = scan (pos + length x) 0 y.
Proof.
  revert pos. induction x as [|c x IH]; intros pos.
  - cbn [length app]. by rewrite Nat.add_0_r.
  - cbn [length app scan]. rewrite IH. f_equal. lia.
Qed.

Lemma scan_end pos : scan pos 0 [] = [].
Proof. by destruct pos. Qed.

Lemma scan_step pos s :
  scan pos 0 s
  = match match_at pos s with
    | Some m =>
        m :: match s with
             | [] => []
             | _ :: s' => scan (S pos) (m_end m - pos - 1) s'
             end
    | None => match s with [] => [] | _ :: s' => scan (S pos) 0 s' end
    end.
Proof. by destruct s. Qed.

Lemma join_cons sep (x y : text) l :
  join sep (x :: y :: l) = x ++ sep ++ join sep (y :: l).
Proof. done. Qed.

Lemma scan_addresses sep pos l :
  isdecimal sep = false → l ≠ [] → Forall well_formed l →
  (λ m, (group1 m, group2 m)) <$> scan pos 0 (join [sep] (address_of <$> l))
  = (λ g, (address_of g, ip_of g)) <$> l.
Proof.
  intros Hsep Hne Hl. revert pos.
  induction Hl as [|g l Hg Hl IH]; [done|]. intros pos.
  assert (∃ c rest, address_of g = c :: rest) as (c & addr & Eaddr).
  { destruct Hg as ([Hd _]%numeral_digits & _). unfold address_of, ip_of.
    destruct (octet_1 g); [done | by eexists _, _]. }
  destruct l as [|g2 l].
  - cbn [fmap list_fmap join]. rewrite scan_step.
    rewrite <- (app_nil_r (address_of g)) at 1.
    rewrite match_at_address by done. rewrite app_nil_r, Eaddr.
    cbn [fmap list_fmap group1 group2 m_end length drop]. f_equal.
    replace (pos + (S (length addr) - 0) - pos - 1)%nat with (length addr) by lia.
    rewrite <- (app_nil_r addr) at 2. rewrite scan_skip. by rewrite scan_end.
  - rewrite !fmap_cons, join_cons.
    set (rest := join [sep] (address_of g2 :: (address_of <$> l))).
    assert (rest ≠ []) as Hrest.
    { subst rest. destruct (Forall_cons_1 _ _ _ Hl) as [Hg2 _].
      destruct Hg2 as ([Hd _]%numeral_digits & _). unfold address_of at 1, ip_of.
      destruct (octet_1 g2); [done|]. by destruct l. }
    rewrite scan_step. cbn [app].
    rewrite (match_at_address pos g (sep :: rest)) by done.
    rewrite Eaddr. cbn [fmap list_fmap group1 group2 m_end drop app].
    rewrite <- Eaddr at 1 2. f_equal.
    replace (pos + (length (c :: addr ++ sep :: rest) - length (drop 0 rest)) - pos - 1)%nat
      with (length (addr ++ [sep]))
      by (rewrite drop_0; cbn [length]; rewrite !length_app; cbn [length]; lia).
    replace (addr ++ sep :: rest) with ((addr ++ [sep]) ++ rest)
      by by rewrite <- app_assoc.
    rewrite scan_skip. by apply IH.
Qed.

(** X24: the extractor finds every well-formed address of a list: from
    a body that holds addresses written [a.b.c.d:port] in ASCII digits
    without leading zeros, the first octet in 1..255, the others in
    0..255 and the port in 0..65535, one after the other with a single
    character that is no digit between them (a newline, say), it
    extracts exactly these addresses with their ips, in order. *)
Theorem X24_listed_addresses_found (sep : char) (l : list groups) :
  isdecimal sep = false →
  Forall well_formed l →
  extract (join [sep] (address_of <$> l)) = (λ g, (address_of g, ip_of g)) <$> l.
Proof.
  intros Hsep Hl. destruct l as [|g l]; [done|].
  unfold extract, finditer. by apply scan_addresses.
Qed.

Definition listed_first : groups :=
  {| octet_1 := str "10"; octet_2 := str "0"; octet_3 := str "0"; octet_4 := str "1";
     port_5 := str "8080" |}.

Definition listed_second : groups :=
  {| octet_1 := str "255"; octet_2 := str "255"; octet_3 := str "249"; octet_4 := str "9";
     port_5 := str "65535" |}.

Lemma X24_listed_addresses_found_witness :
  extract (str "10.0.0.1:8080" ++ [10] ++ str "255.255.249.9:65535")
  = [ (str "10.0.0.1:8080", str "10.0.0.1");
      (str "255.255.249.9:65535", str "255.255.249.9") ].
Proof.
  apply (X24_listed_addresses_found 10 [listed_first; listed_second]).
  - reflexivity.
  - repeat constructor;
      first [ by eexists; split; [vm_compute; reflexivity | split; [lia | reflexivity]]
            | vm_compute; by intros [=] ].
Defined.

(** ** One source, one check: what exactly happens (lines 179-241) *)




Lemma add_proxy_run hash proto x st l :
  item (proxies (self st)) proto = Some l →
  ∃ st', add_proxy hash proto x st = (inr tt, st') ∧ log st' = log st ∧
    item (proxies (self st')) proto = Some (set_add hash x l).
Proof.
  intros Hl. unfold add_proxy. run_M. rewrite Hl. run_M.
  eexists. split; [reflexivity|]. split; [reflexivity|]. cbn [self proxies].
  rewrite (item_set_item _ _ _ _ _ Hl). by rewrite decide_True.
Qed.

Lemma add_all_run hash proto (ms : list Match) st l :
  item (proxies (self st)) proto = Some l →
  ∃ st', for_each ms (λ m, add_proxy hash proto (Proxy_init (group1 m) (group2 m))) st
         = (inr tt, st') ∧ log st' = log st ∧
    item (proxies (self st')) proto
    = Some (foldl (λ s m, set_add hash (Proxy_init (group1 m) (group2 m)) s) l ms).
Proof.
  revert st l. induction ms as [|m ms IH]; intros st l Hl.
  - by exists st.
  - cbn [for_each foldl].
    destruct (add_proxy_run hash proto (Proxy_init (group1 m) (group2 m)) st l Hl)
      as (st1 & E1 & Elog1 & Hl1).
    rewrite (bind_ok _ _ _ _ _ E1).
    destruct (IH st1 _ Hl1) as (st' & -> & Elog & Hl').
    exists st'. split; [done|]. split; [congruence | done].
Qed.

Lemma fetch_source_adds hash w source proto st l status body :
  item (proxies (self st)) proto = Some l →
  fetch w proto (strip source) = Fetched status body →
  finditer body ≠ [] →
  ∃ st', fetch_source hash w source proto st = (inr tt, st') ∧
    log st' = log st ++ [Get (strip source); Advance Scraping proto] ∧
    item (proxies (self st')) proto
    = Some (foldl (λ s m, set_add hash (Proxy_init (group1 m) (group2 m)) s)
                  l (finditer body)).
Proof.
  intros Hl Hf Hne. unfold fetch_source. erewrite bind_ok; [|reflexivity].
  rewrite Hf. set (st1 := {| self := self st; log := _ |}).
  destruct (add_all_run hash proto (finditer body) st1 l Hl) as (st2 & E2 & Elog & Hl2).
  destruct (finditer body) as [|m ms] eqn:Em; [done|].
  rewrite (bind_ok _ _ _ _ _ E2). cbn [emit]. eexists. split; [reflexivity|].
  cbn [self log]. split; [|done]. rewrite Elog. subst st1. cbn [log].
  by rewrite <- app_assoc.
Qed.

(** X26: a source whose body holds matches adds them all, in the order
    of the text, and says nothing: [fetch_source] returns, the log gains
    the request and the progress step only, and the set of the protocol
    is the old one with [Proxy(group(1), group(2))] added for every
    match in turn (an address the set already holds is not added
    again). *)
Theorem X26_source_adds_its_matches (hash : text * text → Z) (w : World)
    (source : text) (protocol : proto) (st : machine) (l : list Proxy)
    (status : Z) (body : text) :
  item (proxies (self st)) protocol = Some l →
  fetch w protocol (strip source) = Fetched status body →
  finditer body ≠ [] →
  ∃ st', fetch_source hash w source protocol st = (inr tt, st') ∧
    log st' = log st ++ [Get (strip source); Advance Scraping protocol] ∧
    item (proxies (self st')) protocol
    = Some (foldl (λ s m, set_add hash (Proxy_init (group1 m) (group2 m)) s)
                  l (finditer body)).
Proof. apply fetch_source_adds. Qed.

Lemma X26_source_adds_its_matches_witness :
  ∃ st', fetch_source demo_hash (demo_world lookup_payload)
           (str "http://lists.example/http.txt") http {| self := built; log := [] |}
         = (inr tt, st') ∧
    log st' = [] ++ [Get (strip (str "http://lists.example/http.txt"));
                     Advance Scraping http] ∧
    item (proxies (self st')) http
    = Some (foldl (λ s m, set_add demo_hash (Proxy_init (group1 m) (group2 m)) s) []
              (finditer (str "foo 10.0.0.1:8080 bar 999.1.1.1:80 baz 10.0.0.2:3128"))).
Proof.
  apply (X26_source_adds_its_matches demo_hash (demo_world lookup_payload)
           (str "http://lists.example/http.txt") http {| self := built; log := [] |}
           [] 200 (str "foo 10.0.0.1:8080 bar 999.1.1.1:80 baz 10.0.0.2:3128")).
  - vm_compute. reflexivity.
  - reflexivity.
  - vm_compute. by intros [=].
Defined.

(** X27: scraping a list.  When a source answers, with any status, a
    body of one or more well-formed addresses separated by one character
    that is no digit, [fetch_source] returns and adds a fresh proxy for
    each of them, in order, to the set of the protocol (which exists). *)
Theorem X27_listed_addresses_stored (hash : text * text → Z) (w : World)
    (source : text) (protocol : proto) (st : machine) (l : list Proxy)
    (status : Z) (sep : char) (listed_groups : list groups) :
  item (proxies (self st)) protocol = Some l →
  isdecimal sep = false →
  Forall well_formed listed_groups →
  listed_groups ≠ [] →
  fetch w protocol (strip source)
  = Fetched status (join [sep] (address_of <$> listed_groups)) →
  ∃ st', fetch_source hash w source protocol st = (inr tt, st') ∧
    item (proxies (self st')) protocol
    = Some (foldl (λ s g, set_add hash (Proxy_init (address_of g) (ip_of g)) s)
                  l listed_groups).
Proof.
  intros Hl Hsep Hg Hne Hf.
  pose proof (scan_addresses sep 0 listed_groups Hsep Hne Hg) as Hscan.
  fold (finditer (join [sep] (address_of <$> listed_groups))) in Hscan.
  destruct (fetch_source_adds hash w source protocol st l status _ Hl Hf)
    as (st' & E & _ & Hl').
  { intros E. rewrite E in Hscan. by destruct listed_groups. }
  exists st'. split; [done|]. rewrite Hl'. f_equal.
  revert Hscan. generalize (finditer (join [sep] (address_of <$> listed_groups))).
  clear. revert l. induction listed_groups as [|g gs IH]; intros l [|m ms]; try done.
  cbn [fmap list_fmap foldl]. intros [= E1 E2 Hms]. rewrite E1, E2. by apply IH.
Qed.

(** A world whose http source lists two addresses, one per line. *)
Definition listing_world : World :=
  {| fetch := λ _ _, Fetched 200 (join [10] (address_of <$> [listed_first; listed_second]));
     probe := λ _, demo_probe lookup_payload;
     fault := λ _, None;
     order := λ _ l, l |}.

Lemma X27_listed_addresses_stored_witness :
  ∃ st', fetch_source demo_hash listing_world (str "http://lists.example/http.txt") http
           {| self := built; log := [] |} = (inr tt, st') ∧
    item (proxies (self st')) http
    = Some (foldl (λ s g, set_add demo_hash (Proxy_init (address_of g) (ip_of g)) s)
                  [] [listed_first; listed_second]).
Proof.
  apply (X27_listed_addresses_stored demo_hash listing_world
           (str "http://lists.example/http.txt") http {| self := built; log := [] |}
           [] 200 10 [listed_first; listed_second]).
  - vm_compute. reflexivity.
  - reflexivity.
  - repeat constructor;
      first [ by eexists; split; [vm_compute; reflexivity | split; [lia | reflexivity]]
            | vm_compute; by intros [=] ].
  - done.
  - reflexivity.
Defined.

(** The exception the [try] body of [check_proxy] ends in, if any: the
    request's, or that of decoding an answer of status 200. *)
Definition raised (a : answer) : option exn :=
  match reply a with
  | inl e => Some e
  | inr r =>
      if (status r =? 200)%Z
      then match json r with inl e => Some e | inr _ => None end
      else None
  end.

(** X28: a check that raises removes its proxy and goes on: it returns,
    the set of the protocol loses the proxies of that address and
    nothing else, and the log gains the probe, the advisory to lower
    MAX_CONNECTIONS exactly when the exception is [OSError] with errno
    24, and the progress step. *)
Theorem X28_failed_check_trace (hash : text * text → Z) (w : World) (st : machine)
    (protocol : proto) (l : list Proxy) (proxy : Proxy) (e : exn) :
  item (proxies (self st)) protocol = Some l → proxy ∈ l →
  raised (probe w protocol (socket_address proxy)) = Some e →
  ∃ st', check_proxy hash w proxy protocol st = (inr tt, st') ∧
    log st'
    = log st ++ Probe protocol (socket_address proxy)
        :: (if too_many_open_files e
            then [Print (str "[red]Please, set MAX_CONNECTIONS to lower value.")]
            else [])
        ++ [Advance Checking protocol] ∧
    item (proxies (self st')) protocol
    = Some (filter (λ y, socket_address y ≠ socket_address proxy) l).
Proof.
  intros Hl Hp Hr. unfold check_proxy, raised in *.
  set (a := probe w protocol (socket_address proxy)) in *.
  assert (match reply a with
          | inl e => inl e
          | inr response =>
              if (status response =? 200)%Z
              then match json response with
                   | inl e => inl e
                   | inr data => inr (Some data)
                   end
              else inr None
          end = @inl exn (option payload) e) as ->.
  { destruct (reply a) as [e'|r]; [congruence|].
    destruct (status r =? 200)%Z; [|done]. destruct (json r); [congruence | done]. }
  erewrite bind_ok; [|reflexivity].
  set (st1 := {| self := self st; log := _ |}).
  assert (∀ st2, self st2 = self st →
    ∃ st3, remove_proxy hash protocol proxy st2 = (inr tt, st3) ∧ log st3 = log st2 ∧
      item (proxies (self st3)) protocol
      = Some (filter (λ y, socket_address y ≠ socket_address proxy) l)) as Hrem.
  { intros [s2 log2] E2. cbn [self] in E2. subst s2.
    unfold remove_proxy. run_M. rewrite Hl. unfold set_remove.
    assert (existsb (found hash proxy) l = true) as ->.
    { apply existsb_found, list_elem_of_fmap. by exists proxy. }
    run_M. eexists. split; [reflexivity|]. split; [reflexivity|]. cbn [self proxies].
    rewrite (item_set_item _ _ _ _ _ Hl), decide_True by done.
    by rewrite set_remove_filter. }
  subst st1.
  destruct (too_many_open_files e); run_M;
    match goal with
    | |- context [remove_proxy hash protocol proxy ?s] =>
        destruct (Hrem s eq_refl) as (st3 & E3 & Elog & Hl3)
    end;
    rewrite E3; eexists; (split; [reflexivity|]); cbn [self log];
    (split; [|done]); rewrite Elog; cbn [log]; by rewrite <- !app_assoc.
Qed.

Lemma X28_failed_check_trace_witness :
  ∃ st', check_proxy demo_hash (demo_world lookup_payload) unreachable http fetched_machine
         = (inr tt, st') ∧
    log st'
    = log fetched_machine ++ Probe http (socket_address unreachable)
        :: (if too_many_open_files (OtherException (str "timed out"))
            then [Print (str "[red]Please, set MAX_CONNECTIONS to lower value.")]
            else [])
        ++ [Advance Checking http] ∧
    item (proxies (self st')) http
    = Some (filter (λ y, socket_address y ≠ socket_address unreachable)
              [alive; refused; unreachable]).
Proof.
  apply (X28_failed_check_trace demo_hash (demo_world lookup_payload) fetched_machine
           http [alive; refused; unreachable] unreachable
           (OtherException (str "timed out"))).
  - reflexivity.
  - apply list_elem_of_further, list_elem_of_further, list_elem_of_here.
  - vm_compute. reflexivity.
Defined.

(** X29: a lookup answered with status 200 and a truthy JSON value that
    is no object (a list, a string, a number) breaks the check:
    [proxy.update] raises [AttributeError] outside the [try], after the
    timeout is set, so the check raises, the proxy stays in its set
    with the elapsed time, and the progress step is not logged. *)
Theorem X29_non_object_payload_raises (hash : text * text → Z) (w : World)
    (st : machine) (protocol : proto) (l : list Proxy) (proxy : Proxy) :
  item (proxies (self st)) protocol = Some l →
  crashes (probe w protocol (socket_address proxy)) = true →
  ∃ st', check_proxy hash w proxy protocol st = (inl (Raised AttributeError), st') ∧
    log st' = log st ++ [Probe protocol (socket_address proxy)] ∧
    item (proxies (self st')) protocol
    = Some ((λ y, if bool_decide (socket_address y = socket_address proxy)
                  then set_timeout (finish (probe w protocol (socket_address proxy))
                                    - start (probe w protocol (socket_address proxy)))%float y
                  else y) <$> l).
Proof.
  intros Hl Hc. unfold check_proxy, crashes in *.
  set (a := probe w protocol (socket_address proxy)) in *.
  erewrite bind_ok; [|reflexivity].
  set (st1 := {| self := self st; log := _ |}).
  destruct (assign_run protocol proxy (set_timeout (finish a - start a)%float)
              st1 l Hl) as (st2 & E2 & Elog & Hl2).
  destruct (reply a) as [e|r]; [done|].
  destruct (status r =? 200)%Z; [|done].
  destruct (json r) as [e|[data|[|]]]; try done.
  rewrite run_bind, (bind_ok _ _ _ _ _ E2). cbn. exists st2. by rewrite Elog.
Qed.

(** A lookup that answers with a JSON list. *)
Definition list_world : World :=
  {| fetch := λ _ _, FetchRaised [];
     probe := λ _ _, {| start := 1%float;
                        reply := inr {| status := 200; json := inr (JOther true) |};
                        finish := 1.5%float |};
     fault := λ _, None;
     order := λ _ l, l |}.

Lemma X29_non_object_payload_raises_witness :
  ∃ st', check_proxy demo_hash list_world alive http fetched_machine
         = (inl (Raised AttributeError), st') ∧
    log st' = log fetched_machine ++ [Probe http (socket_address alive)] ∧
    item (proxies (self st')) http
    = Some ((λ y, if bool_decide (socket_address y = socket_address alive)
                  then set_timeout (finish (probe list_world http (socket_address alive))
                                    - start (probe list_world http (socket_address alive)))%float y
                  else y) <$> [alive; refused; unreachable]).
Proof.
  apply (X29_non_object_payload_raises demo_hash list_world fetched_machine http
           [alive; refused; unreachable] alive).
  - reflexivity.
  - reflexivity.
Defined.

(** ** Every survivor carries its measured time (lines 211-241, 271-289) *)

(** The time [check_proxy] measures for the proxy at [address]. *)
Definition elapsed (w : World) (proto : proto) (address : text) : float :=
  (finish (probe w proto address) - start (probe w proto address))%float.

(** The proxies of [address] in the set of [proto] have their measured
    time as timeout. *)
Definition measured (w : World) (proto : proto) (address : text) (st : machine) : Prop :=
  ∀ l y, item (proxies (self st)) proto = Some l → y ∈ l →
    socket_address y = address → timeout y = elapsed w proto address.

(** Every proxy of another protocol or address than [(proto, address)]
    was in its set before, as it is. *)
Definition others_from (proto : proto) (address : text) (st st' : machine) : Prop :=
  ∀ proto' l' y, item (proxies (self st')) proto' = Some l' → y ∈ l' →
    (proto', socket_address y) ≠ (proto, address) →
    ∃ l, item (proxies (self st)) proto' = Some l ∧ y ∈ l.

Lemma others_from_refl proto a st : others_from proto a st st.
Proof. intros proto' l y Hl Hy _. by exists l. Qed.

Lemma others_from_trans proto a st1 st2 st3 :
  others_from proto a st1 st2 → others_from proto a st2 st3 →
  others_from proto a st1 st3.
Proof.
  intros H12 H23 proto' l y Hl Hy Hne.
  destruct (H23 proto' l y Hl Hy Hne) as (l2 & Hl2 & Hy2). by eapply H12.
Qed.

Lemma others_from_of_sets proto a : of_sets (others_from proto a).
Proof. intros st st' E proto' l y Hl Hy _. rewrite E in Hl. by exists l. Qed.

Lemma others_from_rewrites proto a g st st' :
  rewrites proto g st st' →
  (∀ l y, y ∈ g l → socket_address y ≠ a → y ∈ l) →
  others_from proto a st st'.
Proof.
  intros [-> | (l & Hl & _ & _ & E)] Hg; [apply others_from_refl|].
  intros proto' l0 y. rewrite E, (item_set_item _ _ _ _ _ Hl).
  case_decide as Ep; [|intros Hl0 Hy _; by exists l0]. subst proto'.
  intros [= <-] Hy Hne. exists l. split; [done|]. apply Hg; [done|].
  intros Ea. apply Hne. by rewrite Ea.
Qed.

Lemma others_from_check_proxy hash w proxy proto :
  keeps (others_from proto (socket_address proxy)) (check_proxy hash w proxy proto).
Proof.
  apply (keeps_check_proxy hash w (others_from proto (socket_address proxy))
           (others_from_refl _ _) (others_from_trans _ _)).
  - intros e _. apply of_sets_emit, others_from_of_sets.
  - intros st0. eapply others_from_rewrites; [apply remove_proxy_rewrites|].
    by intros l y [_ Hy]%list_elem_of_filter _.
  - intros f Hf st0. eapply others_from_rewrites; [apply assign_rewrites|].
    intros l y (y0 & -> & Hy0)%list_elem_of_fmap Hne.
    case_bool_decide as Ea; [|done]. destruct (Hf y0) as [Ef _]. congruence.
Qed.

(** A check of another proxy leaves the measured times alone. *)
Lemma measured_kept hash w proxy proto proto' a st :
  (proto', a) ≠ (proto, socket_address proxy) →
  measured w proto' a st → measured w proto' a (check_proxy hash w proxy proto st).2.
Proof.
  intros Hne Ht l y Hl Hy Ea.
  destruct (others_from_check_proxy hash w proxy proto st proto' l y Hl Hy)
    as (l0 & Hl0 & Hy0); [by rewrite Ea|].
  by eapply Ht.
Qed.

Lemma same_keys_check_proxy hash w proxy proto :
  keeps same_keys (check_proxy hash w proxy proto).
Proof.
  apply (keeps_check_proxy hash w same_keys same_keys_refl same_keys_trans).
  - intros e _. apply of_sets_emit, same_keys_of_sets.
  - intros st. eapply same_keys_rewrites, remove_proxy_rewrites.
  - intros f _ st. eapply same_keys_rewrites, assign_rewrites.
Qed.

(** A check that returns leaves its proxy timed, or removed. *)
Lemma check_proxy_times hash w proxy proto st :
  (check_proxy hash w proxy proto st).1 = inr tt →
  measured w proto (socket_address proxy) (check_proxy hash w proxy proto st).2.
Proof.
  intros Hdone.
  destruct (item (proxies (self st)) proto) as [l|] eqn:Hl.
  2:{ intros l' y Hl'. exfalso.
      pose proof (same_keys_check_proxy hash w proxy proto st) as Hk.
      apply item_None in Hl. rewrite <- Hk in Hl. apply item_None in Hl. congruence. }
  destruct (raises (probe w proto (socket_address proxy))) eqn:Hr.
  { intros l' y Hl' Hy Ea. exfalso.
    by apply (check_proxy_raises_done hash w proxy proto st Hr Hdone l' y Hl' Hy). }
  destruct (answers_nothing (probe w proto (socket_address proxy))) eqn:Hn.
  { destruct (check_proxy_unannotated hash w st proto l proxy Hl Hn) as (_ & _ & Hl1).
    intros l' y. rewrite Hl1. intros [= <-] (y0 & -> & Hy0)%list_elem_of_fmap.
    case_bool_decide as Ea; [intros _; reflexivity | by intros ?]. }
  unfold raises, answers_nothing in Hr, Hn.
  destruct (reply (probe w proto (socket_address proxy))) as [e|[s j]] eqn:Hreply;
    [done|]. cbn [status json] in *.
  destruct (s =? 200)%Z eqn:Hs; [|done]. apply Z.eqb_eq in Hs. subst s.
  destruct j as [e|[data|[|]]]; try done.
  - apply bool_decide_eq_false in Hn.
    destruct (check_proxy_answered hash w proxy proto st l data Hl Hreply Hn)
      as [_ Hl1].
    intros l' y. rewrite Hl1.
    intros [= <-] (y1 & -> & (y0 & -> & Hy0)%list_elem_of_fmap)%list_elem_of_fmap.
    destruct (bool_decide (socket_address y0 = socket_address proxy)) eqn:E0;
      cbn [socket_address set_timeout]; rewrite E0.
    + intros _. reflexivity.
    + apply bool_decide_eq_false in E0. by intros ?.
  - exfalso. revert Hdone. unfold check_proxy. rewrite Hreply. cbn [status json Z.eqb Pos.eqb].
    erewrite bind_ok; [|reflexivity].
    destruct (assign_run proto proxy
                (set_timeout (finish (probe w proto (socket_address proxy))
                              - start (probe w proto (socket_address proxy)))%float)
                {| self := self st;
                   log := log st ++ [Probe proto (socket_address proxy)] |} l Hl)
      as (st2 & E2 & _ & _).
    rewrite run_bind, (bind_ok _ _ _ _ _ E2). done.
Qed.

Lemma checks_measured hash w (tasks : list (Proxy * proto)) st proto a :
  (for_each tasks (λ c, check_proxy hash w c.1 c.2) st).1 = inr tt →
  measured w proto a st ∨ (∃ c, c ∈ tasks ∧ (c.2, socket_address c.1) = (proto, a)) →
  measured w proto a (for_each tasks (λ c, check_proxy hash w c.1 c.2) st).2.
Proof.
  revert st. induction tasks as [|x tasks IH]; intros st Hdone Hor.
  - destruct Hor as [Ht|(c & Hc & _)]; [done | by apply elem_of_nil in Hc].
  - cbn [for_each] in *. rewrite run_bind in *.
    pose proof (check_proxy_times hash w x.1 x.2 st) as Hx.
    pose proof (measured_kept hash w x.1 x.2 proto a st) as Hkept.
    destruct (check_proxy hash w x.1 x.2 st) as [[e|[]] st1]; [done|].
    cbn [fst snd] in *. apply IH; [done|].
    destruct (decide ((proto, a) = (x.2, socket_address x.1))) as [[= -> ->]|Hne].
    { left. by apply Hx. }
    destruct Hor as [Ht|(c & Hc & Ec)]; [left; by apply Hkept|].
    right. exists c. split; [|done].
    apply elem_of_cons in Hc as [->|Hc]; [congruence | done].
Qed.

(** X30: when the check stage returns, every proxy still in a set
    carries the time measured by its own check as its timeout: none
    keeps the infinite timeout it was created with, so sorting by speed
    ranks measured times only. *)
Theorem X30_survivors_are_timed (hash : text * text → Z) (w : World) (st : machine)
    (protocol : proto) (l : list Proxy) (y : Proxy) :
  (∀ tasks : list (Proxy * proto), order w _ tasks ≡ₚ tasks) →
  (check_all_proxies hash w st).1 = inr tt →
  item (proxies (self (check_all_proxies hash w st).2)) protocol = Some l →
  y ∈ l →
  timeout y = elapsed w protocol (socket_address y).
Proof.
  intros Hperm Hdone Hl Hy.
  destruct (checked_down_check_all hash w st protocol l y Hl Hy)
    as (l0 & y0 & Hl0 & Hy0 & Ea & _).
  destruct (check_all_done hash w st Hdone) as (st1 & E1 & Erun).
  rewrite Erun in Hdone, Hl.
  refine (checks_measured hash w _ st1 protocol (socket_address y) Hdone _ l y Hl Hy eq_refl).
  right. exists (y0, protocol). split; [|cbn [fst snd]; by rewrite Ea].
  rewrite Hperm. by eapply coroutines_elem.
Qed.

Lemma X30_survivors_are_timed_witness :
  timeout (set_timeout 0.5 refused)
  = elapsed (demo_world lookup_payload) http (socket_address (set_timeout 0.5 refused)).
Proof.
  apply (X30_survivors_are_timed demo_hash (demo_world lookup_payload) fetched_machine
           http [update (set_timeout 0.5 alive) lookup_payload; set_timeout 0.5 refused]).
  - intros tasks. apply Permutation_sym, Permutation_rev.
  - vm_compute. reflexivity.
  - vm_compute. reflexivity.
  - apply list_elem_of_further, list_elem_of_here.
Defined.
